(** * FUDGE-guided decoding: a model of [models/fudge/fudge_inference.py]

    The class [FudgeInference] steers the sampling of a causal language model
    with an auxiliary classifier.  This development embeds its two methods,
    [get_next_token_distribution] and [generate_with_fudge], and the
    target-class resolution of its constructor.

    Numbers.  Tensor entries are modelled as real numbers ([R]): the
    development follows the arithmetic the code writes down, not its rounding.
    The only non-finite value the code itself introduces, [float('-inf')], is
    kept as the constructor [NegInf] of [xreal].  A division by a zero
    temperature leaves the reals (IEEE gives infinities and NaN, and no
    Python exception); a run that does so ends in the outcome [NonFinite]
    and is not followed further.

    Tensors.  A one-dimensional tensor is a [list]; the batch dimension of
    the code always has size one here ([tokenizer.encode] returns one row)
    and is left out, except at the two calls of [torch.cat], which compare
    the number of dimensions of their operands ([token_tensor]).

    Names.  The module uses the class [AutoregressiveFudgeClassifier] but
    neither defines nor imports it; what the name is bound to when the
    constructor runs is a parameter of [__init__]. *)

From Stdlib Require Import String Ascii.
From Stdlib Require Import Reals Lra Lia ZArith Bool Arith List.
From Stdlib Require Import Permutation Sorted DecimalString.
Import ListNotations.

Set Implicit Arguments.

(** ** Outcomes of a Python call *)

Inductive exception : Type :=
| IndexError (msg : string)
| NameError (msg : string)
| RuntimeError (msg : string)
| ValueError (msg : string).

(** [Ok a]: the call returns [a].  [Raise e]: it raises [e].  [NonFinite]: no
    exception has been raised, but a tensor now holds an infinity or a NaN
    that the real-number model cannot represent. *)
Inductive outcome (A : Type) : Type :=
| Ok (a : A)
| Raise (e : exception)
| NonFinite.

Arguments Raise {A} e.
Arguments NonFinite {A}.

Definition bind {A B : Type} (c : outcome A) (k : A -> outcome B) : outcome B :=
  match c with
  | Ok a => k a
  | Raise e => Raise e
  | NonFinite => NonFinite
  end.

Notation "x <- c ;; k" := (bind c (fun x => k))
  (at level 61, c at next level, right associativity).
Notation "' pat <- c ;; k" := (bind c (fun x => match x with pat => k end))
  (at level 61, pat pattern, c at next level, right associativity).

Definition raises {A : Type} (c : outcome A) : Prop := exists e, c = Raise e.

(** ** Extended reals: a score, or the mask value [float('-inf')] *)

Inductive xreal : Type :=
| NegInf
| Fin (r : R).

Definition Rltb (a b : R) : bool := if Rlt_dec a b then true else false.

Definition xltb (x y : xreal) : bool :=
  match x, y with
  | NegInf, Fin _ => true
  | Fin a, Fin b => Rltb a b
  | _, NegInf => false
  end.

(** [exp] extended by [exp(-inf) = 0]. *)
Definition xexp (x : xreal) : R :=
  match x with
  | NegInf => 0%R
  | Fin r => exp r
  end.

(** ** Tensor primitives *)

Fixpoint Rsum (l : list R) : R :=
  match l with
  | [] => 0%R
  | x :: t => (x + Rsum t)%R
  end.

(** [torch.softmax(x, dim=-1)]. *)
Definition softmax (x : list xreal) : list R :=
  let total := Rsum (map xexp x) in
  map (fun xi => (xexp xi / total)%R) x.

(** [torch.cumsum(x, dim=-1)], with the running total [acc] made explicit. *)
Fixpoint cumsum_from (acc : R) (x : list R) : list R :=
  match x with
  | [] => []
  | xi :: t => (acc + xi)%R :: cumsum_from (acc + xi)%R t
  end.

Definition cumsum (x : list R) : list R := cumsum_from 0%R x.

(** [x[i] = v] on a copy; positions outside the tensor are not written (the
    indices the code uses come from [topk] and [sort] and are in range). *)
Fixpoint update {A : Type} (x : list A) (i : nat) (v : A) : list A :=
  match x, i with
  | [], _ => []
  | _ :: t, O => v :: t
  | h :: t, S j => h :: update t j v
  end.

(** [base[index] = src] (and [Tensor.scatter(1, index, src)] on one row):
    the writes happen in order, a later write to the same position wins. *)
Fixpoint scatter {A : Type} (base : list A) (index : list nat) (src : list A) : list A :=
  match index, src with
  | i :: index', v :: src' => scatter (update base i v) index' src'
  | _, _ => base
  end.

(** [torch.zeros_like(x)]. *)
Definition zeros_like (x : list R) : list R := repeat 0%R (length x).

(** The positions of a vector that carry non-zero mass. *)
Definition nonzero (v : R) : bool := if Req_dec_T v 0 then false else true.

Definition support (x : list R) : list nat :=
  filter (fun j => nonzero (nth j x 0%R)) (seq 0 (length x)).

(** [x[..., -1]]: the last entry, an [IndexError] on an empty dimension.
    The message is abridged: torch's also says which dimension is empty. *)
Definition index_last {A : Type} (x : list A) : outcome A :=
  match rev x with
  | [] => Raise (IndexError "index -1 is out of bounds for dimension with size 0")
  | v :: _ => Ok v
  end.

(** ** Sorting: [torch.sort(descending=True)] and [torch.topk]

    Both return values together with the positions they came from, in
    descending order of the values; torch leaves the order among equal values
    open.  [sort_desc] is one such order, a stable insertion sort of
    (position, value) pairs; [descending_order] says what every such order
    satisfies. *)

(** The largest 64-bit signed integer. *)
Definition int64_max : Z := (2 ^ 63 - 1)%Z.

Section Sorting.
Variable A : Type.
Variable ltb : A -> A -> bool.

Definition enumerate (x : list A) : list (nat * A) :=
  combine (seq 0 (length x)) x.

Fixpoint insert_desc (e : nat * A) (s : list (nat * A)) : list (nat * A) :=
  match s with
  | [] => [e]
  | e' :: s' =>
      if ltb (snd e) (snd e') then e' :: insert_desc e s' else e :: e' :: s'
  end.

Definition sort_desc (x : list A) : list (nat * A) :=
  fold_right insert_desc [] (enumerate x).

(** [a] may stand before [b] in descending order. *)
Definition not_below (a b : nat * A) : Prop := ltb (snd a) (snd b) = false.

(** [sorted] is a result [torch.sort(x, descending=True)] may return: every
    entry of [x] once, with its position, the values never increasing. *)
Definition descending_order (x : list A) (sorted : list (nat * A)) : Prop :=
  Permutation sorted (enumerate x) /\ StronglySorted not_below sorted.

(** [torch.topk(x, k)]: the [k] largest entries, largest first.  [k] is a
    Python [int]; torch rejects a [k] outside [0 .. len(x)].  Before that it
    converts [k] to a 64-bit integer, and a [k] of [2^63] or more fails in
    the conversion with a [ValueError] (a tensor has fewer than [2^63]
    entries, so such a [k] is out of range as well). *)
Definition topk (x : list A) (k : Z) : outcome (list (nat * A)) :=
  if (k <? 0)%Z || (Z.of_nat (length x) <? k)%Z
  then if (int64_max <? k)%Z
       then Raise (ValueError "Overflow when unpacking long long")
       else Raise (RuntimeError "selected index k out of range")
  else Ok (firstn (Z.to_nat k) (sort_desc x)).
End Sorting.

(** ** The Distribution Builder: [get_next_token_distribution] *)

(** [logits[mask] = float('-inf')]. *)
Definition masked_fill (logits : list xreal) (mask : list bool) : list xreal :=
  map (fun xm : xreal * bool => if snd xm then NegInf else fst xm)
      (combine logits mask).

(** Lines 80-82: every score below the [top_k]-th largest is masked. *)
Definition top_k_filter (top_k : Z) (logits : list xreal) : outcome (list xreal) :=
  top <- topk xltb logits top_k ;;
  kth <- index_last (map snd top) ;;
  let indices_to_remove := map (fun x => xltb x kth) logits in
  Ok (masked_fill logits indices_to_remove).

(** [m[..., 1:] = m[..., :-1].clone()]: entry 0 stays, every other entry
    takes the value of its left neighbour. *)
Definition shift_right (m : list bool) : list bool :=
  match m with
  | [] => []
  | m0 :: _ => m0 :: removelast m
  end.

(** [m[..., 0] = v]: an [IndexError] on an empty dimension (message
    abridged as for [index_last]). *)
Definition set_index0 {A : Type} (m : list A) (v : A) : outcome (list A) :=
  match m with
  | [] => Raise (IndexError "index 0 is out of bounds for dimension with size 0")
  | _ :: t => Ok (v :: t)
  end.

(** Lines 86-91: nucleus filtering, given the sorted logits and their
    positions as [torch.sort] returned them at line 85. *)
Definition top_p_filter_with (sorted : list (nat * xreal)) (top_p : R)
    (logits : list xreal) : outcome (list xreal) :=
  let sorted_logits := map snd sorted in
  let sorted_indices := map fst sorted in
  let cumulative_probs := cumsum (softmax sorted_logits) in
  let sorted_indices_to_remove := map (fun c => Rltb top_p c) cumulative_probs in
  sorted_indices_to_remove <- set_index0 (shift_right sorted_indices_to_remove) false ;;
  let indices_to_remove :=
    scatter sorted_indices_to_remove sorted_indices sorted_indices_to_remove in
  Ok (masked_fill logits indices_to_remove).

(** Lines 84-91: nucleus filtering. *)
Definition top_p_filter (top_p : R) (logits : list xreal) : outcome (list xreal) :=
  let sorted := sort_desc xltb logits in
  let sorted_logits := map snd sorted in
  let sorted_indices := map fst sorted in
  let cumulative_probs := cumsum (softmax sorted_logits) in
  let sorted_indices_to_remove := map (fun c => Rltb top_p c) cumulative_probs in
  sorted_indices_to_remove <- set_index0 (shift_right sorted_indices_to_remove) false ;;
  let indices_to_remove :=
    scatter sorted_indices_to_remove sorted_indices sorted_indices_to_remove in
  Ok (masked_fill logits indices_to_remove).

Definition apply_filters (top_k : option Z) (top_p : option R) (logits : list xreal)
  : outcome (list xreal) :=
  logits <- match top_k with
            | Some k => top_k_filter k logits
            | None => Ok logits
            end ;;
  match top_p with
  | Some p => top_p_filter p logits
  | None => Ok logits
  end.

(** Lines 77-93 with [top_k=None] and [top_p] set, from the scaled logits
    on, given what [torch.sort] returned at line 85. *)
Definition nucleus_distribution (sorted : list (nat * xreal)) (top_p : R)
    (logits : list xreal) : outcome (list R) :=
  logits <- top_p_filter_with sorted top_p logits ;;
  Ok (softmax logits).

(** The values of [top_k] the top-k filter accepts on a vocabulary of size
    [V]. *)
Definition valid_top_k (top_k : option Z) (V : nat) : Prop :=
  match top_k with
  | None => True
  | Some k => (1 <= k <= Z.of_nat V)%Z
  end.

(** [x / t].  With [t = 0] every entry of a non-empty tensor becomes an
    infinity or a NaN ([None]); an empty tensor stays empty. *)
Definition scale (x : list R) (t : R) : option (list xreal) :=
  match x with
  | [] => Some []
  | _ :: _ => if Req_dec_T t 0 then None else Some (map (fun xi => Fin (xi / t)) x)
  end.

(** The base model maps a token sequence to one row of logits per position
    ([outputs.logits[0]]); [logits[:, -1, :]] takes the last row.

    When the division leaves the reals the two filters still run, on a
    tensor of the same shape: they raise what [top_k] and the vocabulary
    size make them raise, and otherwise the final softmax returns NaN
    entries without raising. *)
Definition get_next_token_distribution
    (model : list nat -> list (list R)) (input_ids : list nat)
    (temperature : R) (top_k : option Z) (top_p : option R) : outcome (list R) :=
  row <- index_last (model input_ids) ;;
  match scale row temperature with
  | Some logits =>
      logits <- apply_filters top_k top_p logits ;;
      Ok (softmax logits)
  | None =>
      _ <- apply_filters top_k top_p (map Fin row) ;;
      NonFinite
  end.

(** ** The decoder instance and its construction *)

Record Tokenizer : Type := {
  encode : string -> list nat;
  decode : list nat -> string;
  eos_token_id : nat
}.

(** The object [torch.load] returns. *)
Record Checkpoint (StateDict : Type) : Type := {
  ckpt_label_mapping : list (string * Z);
  ckpt_num_labels : Z;
  ckpt_base_model_name : string;
  ckpt_state_dict : StateDict
}.

(** The attributes of a [FudgeInference] object.  [fudge_model] maps a token
    sequence to the row [fudge_outputs['logits'][0]]. *)
Record FudgeInference : Type := {
  model : list nat -> list (list R);
  tokenizer : Tokenizer;
  label_mapping : list (string * Z);
  num_classes : Z;
  target_class : Z;
  fudge_model : list nat -> list R
}.

(** [target_class: int | str]. *)
Inductive class_spec : Type :=
| ClassName (name : string)
| ClassIndex (index : Z).

(** A Python [dict] with string keys, in insertion order. *)
Fixpoint dict_get (d : list (string * Z)) (key : string) : option Z :=
  match d with
  | [] => None
  | (k, v) :: d' => if String.eqb key k then Some v else dict_get d' key
  end.

Definition dict_keys (d : list (string * Z)) : list string := map fst d.

Definition str_of_int (z : Z) : string :=
  DecimalString.NilZero.string_of_int (Z.to_int z).

(** [repr] of a [str] whose code points lie below 256, one character of the
    string for each.  Python writes the text between single quotes, or
    between double quotes when it holds a single quote and no double quote.
    Inside, the backslash and the chosen quote are escaped with a backslash,
    tab, newline and carriage return are written with their letters, and
    every other code point that is not printable (the control characters,
    the no-break space and the soft hyphen) as [\x] and two hexadecimal
    digits. *)
Definition single_quote : ascii := ascii_of_nat 39.
Definition double_quote : ascii := ascii_of_nat 34.
Definition backslash : ascii := ascii_of_nat 92.

Definition hex_digit (n : nat) : ascii :=
  nth n ["0"; "1"; "2"; "3"; "4"; "5"; "6"; "7"; "8"; "9";
         "a"; "b"; "c"; "d"; "e"; "f"]%char "0"%char.

(** [str.isprintable] on one code point below 256. *)
Definition is_printable (c : ascii) : bool :=
  let n := nat_of_ascii c in
  ((32 <=? n)%nat && (n <=? 126)%nat) || ((161 <=? n)%nat && negb (n =? 173)%nat).

Definition repr_char (quote c : ascii) : string :=
  let n := nat_of_ascii c in
  if Ascii.eqb c quote || Ascii.eqb c backslash then String backslash (String c "")
  else if (n =? 9)%nat then String backslash "t"
  else if (n =? 10)%nat then String backslash "n"
  else if (n =? 13)%nat then String backslash "r"
  else if is_printable c then String c ""
  else String backslash
         (String "x" (String (hex_digit (n / 16)) (String (hex_digit (n mod 16)) ""))).

Fixpoint string_mem (c : ascii) (s : string) : bool :=
  match s with
  | EmptyString => false
  | String c' s' => Ascii.eqb c c' || string_mem c s'
  end.

Definition repr_quote (s : string) : ascii :=
  if string_mem single_quote s && negb (string_mem double_quote s)
  then double_quote
  else single_quote.

Fixpoint repr_body (quote : ascii) (s : string) : string :=
  match s with
  | EmptyString => EmptyString
  | String c s' => (repr_char quote c ++ repr_body quote s')%string
  end.

Definition repr_str (s : string) : string :=
  let quote := repr_quote s in
  String quote (repr_body quote s ++ String quote "")%string.

(** A text of printable characters with no single quote and no backslash:
    its [repr] is the text itself between single quotes. *)
Fixpoint plain (s : string) : bool :=
  match s with
  | EmptyString => true
  | String c s' =>
      is_printable c && negb (Ascii.eqb c single_quote)
        && negb (Ascii.eqb c backslash) && plain s'
  end.

(** [str] of a list of such strings. *)
Definition str_of_list (l : list string) : string :=
  ("[" ++ String.concat ", " (map repr_str l) ++ "]")%string.

Definition unknown_class_message (name : string) (d : list (string * Z)) : string :=
  ("Unknown class name: " ++ name ++ ". Available classes: "
     ++ str_of_list (dict_keys d))%string.

Definition out_of_range_message (n : Z) : string :=
  ("target_class must be between 0 and " ++ str_of_int (n - 1))%string.

(** The message [msg] contains the text [s]. *)
Definition mentions (msg s : string) : Prop :=
  exists pre post, msg = (pre ++ s ++ post)%string.

(** Lines 39-47. *)
Definition resolve_target_class (mapping : list (string * Z)) (n : Z) (t : class_spec)
  : outcome Z :=
  match t with
  | ClassName name =>
      match dict_get mapping name with
      | None => Raise (ValueError (unknown_class_message name mapping))
      | Some index => Ok index
      end
  | ClassIndex index =>
      if negb ((0 <=? index)%Z && (index <? n)%Z)
      then Raise (ValueError (out_of_range_message n))
      else Ok index
  end.

(** The targets lines 39-47 accept: a key of the label mapping, or an index
    in [0 .. num_classes - 1]. *)
Definition valid_target (mapping : list (string * Z)) (n : Z) (t : class_spec) : Prop :=
  match t with
  | ClassName name => In name (dict_keys mapping)
  | ClassIndex index => (0 <= index < n)%Z
  end.

(** Arguments of [generate_with_fudge] other than the prompt. *)
Record GenerationConfig : Type := {
  max_length : Z;
  temperature : R;
  fudge_temperature : R;
  base_top_k : option Z;
  base_top_p : option R;
  fudge_top_k : Z;
  lambda_weight : R
}.

(** The ranges of the generation arguments: positive temperatures, a mixing
    weight in [0, 1], at least one candidate and, when set, a positive
    truncation width. *)
Definition valid_config (cfg : GenerationConfig) : Prop :=
  (0 < temperature cfg)%R /\
  (0 < fudge_temperature cfg)%R /\
  (0 <= lambda_weight cfg <= 1)%R /\
  (1 <= fudge_top_k cfg)%Z /\
  (forall k, base_top_k cfg = Some k -> (1 <= k)%Z).

(** The tensors one iteration of the decoding loop computes (lines 125-166).
    The code rebinds [combined_distribution] at line 165; the second value is
    [retruncated_distribution] here. *)
Record step_tensors : Type := {
  base_distribution : list R;
  candidate_values : list R;
  candidate_indices : list nat;
  fudge_scores : list R;
  fudge_distribution : list R;
  combined_scores : list R;
  combined_distribution : list R;
  retruncated_distribution : list R
}.

(** [fudge_outputs['logits'][0, 1]]: an [IndexError] when the scorer has
    fewer than two output channels (torch's message also gives their
    number). *)
Definition channel_1 (logits : list R) : outcome R :=
  match nth_error logits 1 with
  | Some s => Ok s
  | None => Raise (IndexError "index 1 is out of bounds for dimension 1")
  end.

(** Lines 139-149: one call of the auxiliary scorer per candidate.  Both
    operands of the concatenation at lines 141-144 have two dimensions, and
    its row is [generated_tokens ++ [token_id]]. *)
Fixpoint score_candidates (scorer : list nat -> list R) (generated_tokens : list nat)
    (candidates : list nat) : outcome (list R) :=
  match candidates with
  | [] => Ok []
  | token_id :: rest =>
      fudge_score <- channel_1 (scorer (generated_tokens ++ [token_id])) ;;
      scores <- score_candidates scorer generated_tokens rest ;;
      Ok (fudge_score :: scores)
  end.

(** Line 154, entry by entry. *)
Definition fuse (lam : R) (base_probability fudge_probability : R) : R :=
  ((1 - lam) * base_probability + lam * fudge_probability)%R.

Fixpoint map2 {A B C : Type} (f : A -> B -> C) (x : list A) (y : list B) : list C :=
  match x, y with
  | a :: x', b :: y' => f a b :: map2 f x' y'
  | _, _ => []
  end.

Definition decoding_step (self : FudgeInference) (cfg : GenerationConfig)
    (generated_tokens : list nat) : outcome step_tensors :=
  base_distribution <-
    get_next_token_distribution (model self) generated_tokens
      (temperature cfg) None (base_top_p cfg) ;;
  candidates <-
    topk Rltb base_distribution
      (Z.min (fudge_top_k cfg) (Z.of_nat (length base_distribution))) ;;
  let candidate_values := map snd candidates in
  let candidate_indices := map fst candidates in
  fudge_scores <- score_candidates (fudge_model self) generated_tokens candidate_indices ;;
  match scale fudge_scores (fudge_temperature cfg) with
  | None => NonFinite
  | Some scaled =>
      let fudge_distribution := softmax scaled in
      let combined_scores :=
        map2 (fuse (lambda_weight cfg)) candidate_values fudge_distribution in
      let combined_distribution :=
        scatter (zeros_like base_distribution) candidate_indices combined_scores in
      retruncated <-
        match base_top_k cfg with
        | Some k =>
            top <- topk Rltb combined_distribution
                     (Z.min k (Z.of_nat (length combined_distribution))) ;;
            let top_k_values := map snd top in
            let top_k_indices := map fst top in
            Ok (scatter (zeros_like base_distribution) top_k_indices top_k_values)
        | None => Ok combined_distribution
        end ;;
      Ok {| base_distribution := base_distribution;
            candidate_values := candidate_values;
            candidate_indices := candidate_indices;
            fudge_scores := fudge_scores;
            fudge_distribution := fudge_distribution;
            combined_scores := combined_scores;
            combined_distribution := combined_distribution;
            retruncated_distribution := retruncated |}
  end.

(** What the decoder expects of its two models: the base model returns a
    non-empty row of logits for the last position of a non-empty sequence,
    and the auxiliary scorer returns at least two output channels. *)
Definition well_formed_models (self : FudgeInference) : Prop :=
  (forall s, s <> [] ->
     exists row, index_last (model self s) = Ok row /\ row <> []) /\
  (forall s, (2 <= length (fudge_model self s))%nat).

(** ** Shapes of token tensors

    [torch.cat] looks at the number of dimensions of its operands, so the
    operands of the two concatenations of the decoding loop keep theirs.
    [generated_tokens] has shape [1, n] (line 119, [return_tensors="pt"]) and
    is represented by its one row.  [token_id.unsqueeze(0).unsqueeze(0)] at
    line 143 has shape [1, 1]: [Row [token_id]].  The result of
    [torch.multinomial] on the one-dimensional [combined_distribution[0]] at
    line 169 has shape [num_samples]: [Vector [next_token]]. *)
Inductive token_tensor : Type :=
| Vector (entries : list nat)
| Row (entries : list nat).

(** [torch.cat([generated_tokens, t], dim=-1)] for [generated_tokens] of
    shape [1, n]: the row of the result.  The operands must have the same
    number of dimensions; only the empty one-dimensional tensor is skipped
    whatever the other operand. *)
Definition cat_row (generated_tokens : list nat) (t : token_tensor)
  : outcome (list nat) :=
  match t with
  | Row entries => Ok (generated_tokens ++ entries)
  | Vector [] => Ok generated_tokens
  | Vector _ =>
      Raise (RuntimeError "Tensors must have same number of dimensions: got 2 and 1")
  end.

Section Decoder.
(** The weights stored in a checkpoint. *)
Variable StateDict : Type.

(** What the global name [AutoregressiveFudgeClassifier] is bound to when
    line 50 looks it up.  The module neither defines nor imports the name:
    in the module as it stands the binding is [None].  [Some classifier] is
    the case of a caller that has put the class into the module's namespace;
    [classifier name n weights] then stands for lines 50-57, the call of the
    class, [.to(device)], [load_state_dict] and [eval], any of which may
    raise, and returns the scorer's forward pass. *)
Variable AutoregressiveFudgeClassifier :
  option (string -> Z -> StateDict -> outcome (list nat -> list R)).

(** The state of torch's random number generator, and the draw
    [torch.multinomial] makes from a vector of valid weights. *)
Variable Generator : Type.
Variable draw : Generator -> list R -> nat * Generator.

(** Lines 24-57; [checkpoint] is what [torch.load(fudge_model_path)]
    returned. *)
Definition __init__ (model : list nat -> list (list R)) (tokenizer : Tokenizer)
    (checkpoint : Checkpoint StateDict) (target_class : class_spec)
  : outcome FudgeInference :=
  let label_mapping := ckpt_label_mapping checkpoint in
  let num_classes := ckpt_num_labels checkpoint in
  target_class <- resolve_target_class label_mapping num_classes target_class ;;
  match AutoregressiveFudgeClassifier with
  | None => Raise (NameError "name 'AutoregressiveFudgeClassifier' is not defined")
  | Some classifier =>
      fudge_model <-
        classifier (ckpt_base_model_name checkpoint) num_classes
          (ckpt_state_dict checkpoint) ;;
      Ok {| model := model;
            tokenizer := tokenizer;
            label_mapping := label_mapping;
            num_classes := num_classes;
            target_class := target_class;
            fudge_model := fudge_model |}
  end.

(** [torch.multinomial(weights, num_samples=1)]: the weights must be
    non-negative with a non-zero sum, as torch checks before drawing. *)
Definition multinomial (g : Generator) (weights : list R) : outcome (nat * Generator) :=
  if existsb (fun w => Rltb w 0) weights
  then Raise (RuntimeError
                "probability tensor contains either `inf`, `nan` or element < 0")
  else if Req_dec_T (Rsum weights) 0
  then Raise (RuntimeError
                "invalid multinomial distribution (sum of probabilities <= 0)")
  else Ok (draw g weights).

(** Lines 123-175: [n] iterations of the loop remain.  Line 172
    concatenates [generated_tokens], of shape [1, n], with [next_token] as
    [torch.multinomial] returned it, of shape [1]. *)
Fixpoint generation_loop (self : FudgeInference) (cfg : GenerationConfig) (n : nat)
    (generated_tokens : list nat) (g : Generator) : outcome (list nat * Generator) :=
  match n with
  | O => Ok (generated_tokens, g)
  | S n' =>
      st <- decoding_step self cfg generated_tokens ;;
      '(next_token, g) <- multinomial g (retruncated_distribution st) ;;
      generated_tokens <- cat_row generated_tokens (Vector [next_token]) ;;
      if Nat.eqb next_token (eos_token_id (tokenizer self))
      then Ok (generated_tokens, g)
      else generation_loop self cfg n' generated_tokens g
  end.

(** The token sequence [generated_tokens[0]] at line 177. *)
Definition generate_tokens (self : FudgeInference) (cfg : GenerationConfig)
    (prompt : string) (g : Generator) : outcome (list nat * Generator) :=
  let input_ids := encode (tokenizer self) prompt in
  generation_loop self cfg (Z.to_nat (max_length cfg)) input_ids g.

Definition generate_with_fudge (self : FudgeInference) (cfg : GenerationConfig)
    (prompt : string) (g : Generator) : outcome (string * Generator) :=
  '(generated_tokens, g) <- generate_tokens self cfg prompt g ;;
  Ok (decode (tokenizer self) generated_tokens, g).
End Decoder.

(** ** Introspection: [target_class_name] and [get_available_classes] *)

(** A Python [dict] with [int] keys, in insertion order: lookup, and the
    assignment [d[key] = v], which overwrites in place or appends. *)
Fixpoint int_dict_get (d : list (Z * string)) (key : Z) : option string :=
  match d with
  | [] => None
  | (k, v) :: d' => if Z.eqb key k then Some v else int_dict_get d' key
  end.

Fixpoint int_dict_set (d : list (Z * string)) (key : Z) (v : string)
  : list (Z * string) :=
  match d with
  | [] => [(key, v)]
  | (k, v') :: d' =>
      if Z.eqb key k then (k, v) :: d' else (k, v') :: int_dict_set d' key v
  end.

(** Line 36: [{v: k for k, v in self.label_mapping.items()}].  The attribute
    is computed once from [label_mapping] and never assigned again, so it is
    a function of the instance. *)
Definition reverse_mapping (self : FudgeInference) : list (Z * string) :=
  fold_left (fun d kv => int_dict_set d (snd kv) (fst kv)) (label_mapping self) [].

(** Lines 59-62: [self.reverse_mapping.get(self.target_class,
    str(self.target_class))]. *)
Definition target_class_name (self : FudgeInference) : string :=
  match int_dict_get (reverse_mapping self) (target_class self) with
  | Some name => name
  | None => str_of_int (target_class self)
  end.

(** Lines 64-66. *)
Definition get_available_classes (self : FudgeInference) : list (string * Z) :=
  label_mapping self.

(** ** A two-token instance

    A vocabulary of two tokens, used to run the definitions on concrete
    inputs.  The base model prefers token 0; [tie_model] scores both tokens
    alike; the scorer has two output channels. *)

Definition toy_model (ids : list nat) : list (list R) :=
  map (fun _ => [1%R; 0%R]) ids.

Definition tie_model (ids : list nat) : list (list R) :=
  map (fun _ => [1%R; 1%R]) ids.

Definition toy_scorer (ids : list nat) : list R := [0%R; 0%R].

(** The class bound to the name, building [toy_scorer] from any checkpoint. *)
Definition toy_classifier
  : option (string -> Z -> unit -> outcome (list nat -> list R)) :=
  Some (fun _ _ _ => Ok toy_scorer).

Definition toy_tokenizer : Tokenizer :=
  {| encode := fun _ => [0%nat];
     decode := fun _ => "text"%string;
     eos_token_id := 1%nat |}.

Definition toy_checkpoint : Checkpoint unit :=
  {| ckpt_label_mapping := [("positive"%string, 1%Z); ("negative"%string, 0%Z)];
     ckpt_num_labels := 2%Z;
     ckpt_base_model_name := "gpt2"%string;
     ckpt_state_dict := tt |}.

(** The instance [__init__] builds from these parts for a resolved target. *)
Definition toy_self (target : Z) : FudgeInference :=
  {| model := toy_model;
     tokenizer := toy_tokenizer;
     label_mapping := ckpt_label_mapping toy_checkpoint;
     num_classes := ckpt_num_labels toy_checkpoint;
     target_class := target;
     fudge_model := toy_scorer |}.

(** The default arguments of [generate_with_fudge]. *)
Definition default_config : GenerationConfig :=
  {| max_length := 50%Z;
     temperature := 1%R;
     fudge_temperature := 1%R;
     base_top_k := Some 50%Z;
     base_top_p := None;
     fudge_top_k := 200%Z;
     lambda_weight := (1 / 2)%R |}.

(** The defaults with an empty candidate pool. *)
Definition no_candidates_config : GenerationConfig :=
  {| max_length := 50%Z;
     temperature := 1%R;
     fudge_temperature := 1%R;
     base_top_k := Some 50%Z;
     base_top_p := None;
     fudge_top_k := 0%Z;
     lambda_weight := (1 / 2)%R |}.

(** A generator whose state is a counter and whose draw is always token 0. *)
Definition toy_draw (g : nat) (weights : list R) : nat * nat := (0%nat, S g).

(** ** Further instances

    A scorer with a single output channel, a scorer whose channel 1 is
    shifted by one, three more configurations, and a generator that draws
    the first position of positive weight. *)

Definition one_channel_self : FudgeInference :=
  {| model := toy_model;
     tokenizer := toy_tokenizer;
     label_mapping := ckpt_label_mapping toy_checkpoint;
     num_classes := 1%Z;
     target_class := 0%Z;
     fudge_model := fun _ => [0%R] |}.

Definition shifted_self : FudgeInference :=
  {| model := toy_model;
     tokenizer := toy_tokenizer;
     label_mapping := ckpt_label_mapping toy_checkpoint;
     num_classes := 2%Z;
     target_class := 1%Z;
     fudge_model := fun _ => [0%R; 1%R] |}.


(** The defaults with [lambda_weight = 0]. *)
Definition base_only_config : GenerationConfig :=
  {| max_length := 50%Z;
     temperature := 1%R;
     fudge_temperature := 1%R;
     base_top_k := Some 50%Z;
     base_top_p := None;
     fudge_top_k := 200%Z;
     lambda_weight := 0%R |}.

(** The defaults with [base_top_k] as wide as the candidate pool. *)
Definition wide_config : GenerationConfig :=
  {| max_length := 50%Z;
     temperature := 1%R;
     fudge_temperature := 1%R;
     base_top_k := Some 200%Z;
     base_top_p := None;
     fudge_top_k := 200%Z;
     lambda_weight := (1 / 2)%R |}.

(** A scorer that differs from the toy scorer on channel 0 only. *)
Definition other_channel_self : FudgeInference :=
  {| model := toy_model;
     tokenizer := toy_tokenizer;
     label_mapping := ckpt_label_mapping toy_checkpoint;
     num_classes := 2%Z;
     target_class := 1%Z;
     fudge_model := fun _ => [5%R; 0%R] |}.

(** A tokenizer that encodes every prompt to no token at all. *)
Definition empty_prompt_self : FudgeInference :=
  {| model := toy_model;
     tokenizer := {| encode := fun _ => [];
                     decode := fun _ => "text"%string;
                     eos_token_id := 1%nat |};
     label_mapping := ckpt_label_mapping toy_checkpoint;
     num_classes := 2%Z;
     target_class := 1%Z;
     fudge_model := toy_scorer |}.

(** The defaults with [max_length = 0]. *)
Definition zero_length_config : GenerationConfig :=
  {| max_length := 0%Z;
     temperature := 1%R;
     fudge_temperature := 1%R;
     base_top_k := Some 50%Z;
     base_top_p := None;
     fudge_top_k := 200%Z;
     lambda_weight := (1 / 2)%R |}.

Fixpoint first_positive (weights : list R) : nat :=
  match weights with
  | [] => 0%nat
  | w :: rest => if Rltb 0 w then 0%nat else S (first_positive rest)
  end.

Definition first_positive_draw (g : nat) (weights : list R) : nat * nat :=
  (first_positive weights, S g).

(** * Facts about the primitives *)

(** ** Outcomes *)

Lemma bind_Ok_inv (A B : Type) (c : outcome A) (k : A -> outcome B) (b : B) :
  bind c k = Ok b -> exists a, c = Ok a /\ k a = Ok b.
Proof.
  destruct c as [a| |]; simpl; intros H; try discriminate.
  exists a; split; [reflexivity | exact H].
Qed.

Lemma bind_Ok (A B : Type) (a : A) (k : A -> outcome B) : bind (Ok a) k = k a.
Proof. reflexivity. Qed.

(** From [H : x <- c ;; k = Ok b] to the value [x] of [c] and the rest. *)
Ltac bind_inv H x Hx :=
  apply bind_Ok_inv in H; destruct H as [x [Hx H]].

Lemma raises_Ok (A : Type) (a : A) : ~ raises (Ok a).
Proof. intros [e He]; discriminate. Qed.

Lemma raises_NonFinite (A : Type) : ~ raises (@NonFinite A).
Proof. intros [e He]; discriminate. Qed.

(** ** Comparisons *)

Lemma Rltb_true (a b : R) : Rltb a b = true <-> (a < b)%R.
Proof. unfold Rltb; destruct (Rlt_dec a b); split; intros; congruence || assumption || reflexivity. Qed.

Lemma Rltb_false (a b : R) : Rltb a b = false <-> (b <= a)%R.
Proof.
  unfold Rltb; destruct (Rlt_dec a b); split; intros; try lra; try discriminate; reflexivity.
Qed.

Lemma xltb_asym (x y : xreal) : xltb x y = true -> xltb y x = false.
Proof.
  destruct x, y; simpl; try congruence.
  rewrite Rltb_true, Rltb_false; lra.
Qed.

Lemma xltb_negtrans (x y z : xreal) :
  xltb x y = false -> xltb y z = false -> xltb x z = false.
Proof.
  destruct x, y, z; simpl; try congruence.
  rewrite !Rltb_false; lra.
Qed.

Lemma Rltb_irrefl (a : R) : Rltb a a = false.
Proof. apply Rltb_false; lra. Qed.

Lemma Rltb_asym (a b : R) : Rltb a b = true -> Rltb b a = false.
Proof. rewrite Rltb_true, Rltb_false; lra. Qed.

Lemma Rltb_negtrans (a b c : R) :
  Rltb a b = false -> Rltb b c = false -> Rltb a c = false.
Proof. rewrite !Rltb_false; lra. Qed.

(** ** Positions and values of [enumerate] *)

Lemma combine_seq_In (A : Type) (x : list A) (n i : nat) (v : A) :
  In (i, v) (combine (seq n (length x)) x) ->
  (n <= i)%nat /\ nth_error x (i - n) = Some v.
Proof.
  revert n; induction x as [|a x IH]; simpl; intros n H; [contradiction|].
  destruct H as [H|H].
  - inversion H; subst. rewrite Nat.sub_diag. split; [lia | reflexivity].
  - apply IH in H. destruct H as [Hle Hnth]. split; [lia|].
    replace (i - n)%nat with (S (i - S n)) by lia. exact Hnth.
Qed.

Lemma combine_seq_fst (A : Type) (x : list A) (n : nat) :
  map fst (combine (seq n (length x)) x) = seq n (length x).
Proof.
  revert n; induction x as [|a x IH]; simpl; intros n; [reflexivity|].
  now rewrite IH.
Qed.

Lemma combine_seq_snd (A : Type) (x : list A) (n : nat) :
  map snd (combine (seq n (length x)) x) = x.
Proof.
  revert n; induction x as [|a x IH]; simpl; intros n; [reflexivity|].
  now rewrite IH.
Qed.

(** ** The sort is a sorted permutation *)

Section SortingFacts.
Variable A : Type.
Variable ltb : A -> A -> bool.
Hypothesis ltb_asym : forall a b, ltb a b = true -> ltb b a = false.
Hypothesis ltb_negtrans :
  forall a b c, ltb a b = false -> ltb b c = false -> ltb a c = false.

Lemma insert_desc_perm (e : nat * A) (s : list (nat * A)) :
  Permutation (insert_desc ltb e s) (e :: s).
Proof.
  induction s as [|e' s IH]; simpl; [apply Permutation_refl|].
  destruct (ltb (snd e) (snd e')).
  - eapply perm_trans; [apply perm_skip, IH | apply perm_swap].
  - apply Permutation_refl.
Qed.

Lemma sort_desc_perm (x : list A) :
  Permutation (sort_desc ltb x) (enumerate x).
Proof.
  unfold sort_desc. induction (enumerate x) as [|e s IH]; simpl.
  - apply perm_nil.
  - eapply perm_trans; [apply insert_desc_perm | apply perm_skip, IH].
Qed.

Lemma insert_desc_sorted (e : nat * A) (s : list (nat * A)) :
  StronglySorted (not_below ltb) s -> StronglySorted (not_below ltb) (insert_desc ltb e s).
Proof.
  induction s as [|e' s IH]; simpl; intros Hs.
  - constructor; [constructor | constructor].
  - inversion Hs as [|? ? Hs' Hall]; subst.
    destruct (ltb (snd e) (snd e')) eqn:Hlt.
    + constructor; [apply IH, Hs'|].
      apply Forall_forall. intros y Hy.
      apply (Permutation_in _ (insert_desc_perm e s)) in Hy.
      destruct Hy as [Hy|Hy].
      * subst y. apply ltb_asym, Hlt.
      * rewrite Forall_forall in Hall. apply Hall, Hy.
    + constructor; [exact Hs|].
      constructor; [exact Hlt|].
      apply Forall_forall. intros y Hy.
      rewrite Forall_forall in Hall.
      eapply ltb_negtrans; [exact Hlt | apply Hall, Hy].
Qed.

Lemma sort_desc_sorted (x : list A) : StronglySorted (not_below ltb) (sort_desc ltb x).
Proof.
  unfold sort_desc. induction (enumerate x) as [|e s IH]; simpl.
  - constructor.
  - apply insert_desc_sorted, IH.
Qed.

Lemma sort_desc_length (x : list A) : length (sort_desc ltb x) = length x.
Proof.
  rewrite (Permutation_length (sort_desc_perm x)).
  unfold enumerate. rewrite length_combine, length_seq. apply Nat.min_id.
Qed.

Lemma sort_desc_indices (x : list A) :
  Permutation (map fst (sort_desc ltb x)) (seq 0 (length x)).
Proof.
  rewrite <- (combine_seq_fst x 0). apply Permutation_map, sort_desc_perm.
Qed.

Lemma sort_desc_values (x : list A) :
  Permutation (map snd (sort_desc ltb x)) x.
Proof.
  rewrite <- (combine_seq_snd x 0) at 2. apply Permutation_map, sort_desc_perm.
Qed.

Lemma sort_desc_NoDup (x : list A) : NoDup (map fst (sort_desc ltb x)).
Proof.
  apply (Permutation_NoDup (Permutation_sym (sort_desc_indices x))), seq_NoDup.
Qed.

Lemma sort_desc_In (x : list A) (i : nat) (v : A) :
  In (i, v) (sort_desc ltb x) -> nth_error x i = Some v.
Proof.
  intros H. apply (Permutation_in _ (sort_desc_perm x)) in H.
  apply combine_seq_In in H. destruct H as [_ H].
  now rewrite Nat.sub_0_r in H.
Qed.

Lemma sort_desc_index_lt (x : list A) (i : nat) :
  In i (map fst (sort_desc ltb x)) <-> (i < length x)%nat.
Proof.
  split; intros H.
  - apply (Permutation_in _ (sort_desc_indices x)) in H.
    apply in_seq in H. lia.
  - apply (Permutation_in _ (Permutation_sym (sort_desc_indices x))).
    apply in_seq. lia.
Qed.

(** In a sorted list every entry of a prefix may stand before every entry of
    the rest. *)
Lemma sorted_split (s : list (nat * A)) (k : nat) (a b : nat * A) :
  StronglySorted (not_below ltb) s ->
  In a (firstn k s) -> In b (skipn k s) -> not_below ltb a b.
Proof.
  revert k; induction s as [|e s IH]; intros k Hs Ha Hb.
  - rewrite firstn_nil in Ha. contradiction.
  - destruct k as [|k]; [contradiction|].
    inversion Hs as [|? ? Hs' Hall]; subst.
    simpl in Ha, Hb. destruct Ha as [Ha|Ha].
    + subst a. rewrite Forall_forall in Hall. apply Hall.
      rewrite <- (firstn_skipn k s). apply in_or_app. right. exact Hb.
    + apply (IH k); assumption.
Qed.

(** The stable sort is one of the descending orders. *)
Lemma sort_desc_descending (x : list A) : descending_order ltb x (sort_desc ltb x).
Proof. split; [apply sort_desc_perm | apply sort_desc_sorted]. Qed.
End SortingFacts.

(** ** Any arrangement of the entries with their positions *)

Section OrderFacts.
Variable A : Type.
Variable x : list A.
Variable sorted : list (nat * A).
Hypothesis sorted_perm : Permutation sorted (enumerate x).

Lemma order_length : length sorted = length x.
Proof.
  rewrite (Permutation_length sorted_perm).
  unfold enumerate. rewrite length_combine, length_seq. apply Nat.min_id.
Qed.

Lemma order_indices : Permutation (map fst sorted) (seq 0 (length x)).
Proof.
  rewrite <- (combine_seq_fst x 0). apply Permutation_map, sorted_perm.
Qed.

Lemma order_NoDup : NoDup (map fst sorted).
Proof.
  apply (Permutation_NoDup (Permutation_sym order_indices)), seq_NoDup.
Qed.

Lemma order_In (i : nat) (v : A) : In (i, v) sorted -> nth_error x i = Some v.
Proof.
  intros H. apply (Permutation_in _ sorted_perm) in H.
  apply combine_seq_In in H. destruct H as [_ H].
  now rewrite Nat.sub_0_r in H.
Qed.

Lemma order_index_lt (i : nat) : In i (map fst sorted) <-> (i < length x)%nat.
Proof.
  split; intros H.
  - apply (Permutation_in _ order_indices) in H. apply in_seq in H. lia.
  - apply (Permutation_in _ (Permutation_sym order_indices)). apply in_seq. lia.
Qed.

End OrderFacts.

(** ** Indexed writes *)

Lemma length_update (A : Type) (x : list A) (i : nat) (v : A) :
  length (update x i v) = length x.
Proof.
  revert i; induction x as [|a x IH]; intros [|i]; simpl; try reflexivity.
  now rewrite IH.
Qed.

Lemma nth_update_eq (A : Type) (x : list A) (i : nat) (v d : A) :
  (i < length x)%nat -> nth i (update x i v) d = v.
Proof.
  revert i; induction x as [|a x IH]; intros [|i]; simpl; intros H; try lia.
  - reflexivity.
  - apply IH. lia.
Qed.

Lemma nth_update_neq (A : Type) (x : list A) (i j : nat) (v d : A) :
  i <> j -> nth j (update x i v) d = nth j x d.
Proof.
  revert i j; induction x as [|a x IH]; intros [|i] [|j]; simpl; intros H;
    try reflexivity; try congruence.
  apply IH. congruence.
Qed.

Lemma Forall_update (A : Type) (P : A -> Prop) (x : list A) (i : nat) (v : A) :
  Forall P x -> P v -> Forall P (update x i v).
Proof.
  intros Hx Hv. revert i; induction Hx as [|a x Ha Hx IH]; intros [|i]; simpl;
    constructor; auto.
Qed.

Lemma length_scatter (A : Type) (base : list A) (index : list nat) (src : list A) :
  length (scatter base index src) = length base.
Proof.
  revert base src; induction index as [|i index IH]; intros base [|v src]; simpl;
    try reflexivity.
  now rewrite IH, length_update.
Qed.

Lemma nth_scatter_notin (A : Type) (base : list A) (index : list nat) (src : list A)
    (j : nat) (d : A) :
  ~ In j index -> nth j (scatter base index src) d = nth j base d.
Proof.
  revert base src; induction index as [|i index IH]; intros base [|v src] Hj; simpl;
    try reflexivity.
  rewrite IH by (intros H; apply Hj; now right).
  apply nth_update_neq. intros ->. apply Hj. now left.
Qed.

Lemma nth_scatter_In (A : Type) (base : list A) (index : list nat) (src : list A)
    (j : nat) (v d : A) :
  NoDup index -> In (j, v) (combine index src) -> (j < length base)%nat ->
  nth j (scatter base index src) d = v.
Proof.
  revert base src; induction index as [|i index IH]; intros base [|v0 src] Hnd Hin Hj;
    simpl in *; try contradiction.
  inversion Hnd as [|? ? Hni Hnd']; subst.
  destruct Hin as [Hin|Hin].
  - inversion Hin; subst. rewrite nth_scatter_notin by exact Hni.
    now apply nth_update_eq.
  - apply IH; [exact Hnd' | exact Hin | now rewrite length_update].
Qed.

Lemma Forall_scatter (A : Type) (P : A -> Prop) (base : list A) (index : list nat)
    (src : list A) :
  Forall P base -> Forall P src -> Forall P (scatter base index src).
Proof.
  revert base src; induction index as [|i index IH]; intros base [|v src] Hb Hs; simpl;
    try exact Hb.
  inversion Hs; subst. apply IH; [apply Forall_update|]; assumption.
Qed.

Lemma In_combine_map (A : Type) (s : list (nat * A)) (e : nat * A) :
  In e s -> In e (combine (map fst s) (map snd s)).
Proof.
  induction s as [|e' s IH]; simpl; [tauto|].
  intros [H|H]; [left; subst; now destruct e | right; auto].
Qed.

(** ** Sums and softmax *)

Lemma Rsum_nonneg (l : list R) : Forall (fun v => 0 <= v)%R l -> (0 <= Rsum l)%R.
Proof. induction 1; simpl; lra. Qed.

Lemma Rsum_pos (l : list R) (v : R) :
  Forall (fun v => 0 <= v)%R l -> In v l -> (0 < v)%R -> (0 < Rsum l)%R.
Proof.
  induction 1 as [|a l Ha Hl IH]; simpl; [contradiction|].
  pose proof (Rsum_nonneg Hl).
  intros [->|Hin] Hv; [lra|]. specialize (IH Hin Hv). lra.
Qed.

Lemma Rsum_zero (l : list R) : Forall (fun v => v = 0)%R l -> Rsum l = 0%R.
Proof. induction 1; simpl; lra. Qed.

Lemma xexp_nonneg (x : xreal) : (0 <= xexp x)%R.
Proof. destruct x; simpl; [lra | apply Rlt_le, exp_pos]. Qed.

Lemma xexp_zero (x : xreal) : xexp x = 0%R <-> x = NegInf.
Proof.
  destruct x; simpl; split; intros H; try reflexivity; try discriminate.
  pose proof (exp_pos r). lra.
Qed.

Lemma xexp_all_nonneg (x : list xreal) : Forall (fun v => 0 <= v)%R (map xexp x).
Proof. apply Forall_forall. intros v Hv. apply in_map_iff in Hv.
  destruct Hv as [y [<- _]]. apply xexp_nonneg. Qed.

Lemma softmax_total_pos (x : list xreal) (r : R) :
  In (Fin r) x -> (0 < Rsum (map xexp x))%R.
Proof.
  intros H. apply Rsum_pos with (v := exp r).
  - apply xexp_all_nonneg.
  - change (exp r) with (xexp (Fin r)). now apply in_map.
  - apply exp_pos.
Qed.

Lemma length_softmax (x : list xreal) : length (softmax x) = length x.
Proof. unfold softmax. apply length_map. Qed.

Lemma nth_softmax (x : list xreal) (i : nat) :
  (i < length x)%nat ->
  nth i (softmax x) 0%R = (xexp (nth i x NegInf) / Rsum (map xexp x))%R.
Proof.
  intros H. unfold softmax.
  rewrite (nth_indep _ 0%R ((fun xi => xexp xi / Rsum (map xexp x)) NegInf)%R)
    by now rewrite length_map.
  exact (map_nth (fun xi => (xexp xi / Rsum (map xexp x))%R) x NegInf i).
Qed.

Lemma softmax_nonneg (x : list xreal) : Forall (fun v => 0 <= v)%R (softmax x).
Proof.
  apply Forall_forall. intros v Hv. unfold softmax in Hv.
  apply in_map_iff in Hv. destruct Hv as [y [<- _]].
  pose proof (xexp_nonneg y). pose proof (Rsum_nonneg (xexp_all_nonneg x)) as Hs.
  destruct (Req_dec_T (Rsum (map xexp x)) 0) as [E|E].
  - rewrite E. unfold Rdiv. rewrite Rinv_0. lra.
  - apply Rle_mult_inv_pos; lra.
Qed.

Lemma softmax_entry_zero (x : list xreal) (i : nat) :
  (0 < Rsum (map xexp x))%R -> (i < length x)%nat ->
  (nth i (softmax x) 0%R = 0%R <-> nth i x NegInf = NegInf).
Proof.
  intros Hs Hi. rewrite nth_softmax by exact Hi. rewrite <- xexp_zero.
  split; intros H.
  - apply (Rmult_eq_compat_r (Rsum (map xexp x))) in H.
    unfold Rdiv in H. rewrite Rmult_assoc, Rinv_l, Rmult_1_r, Rmult_0_l in H by lra.
    exact H.
  - rewrite H. unfold Rdiv. apply Rmult_0_l.
Qed.

Lemma softmax_all_finite_pos (s : list R) (t : R) (v : R) :
  In v (softmax (map (fun si => Fin (si / t)) s)) -> (0 < v)%R.
Proof.
  unfold softmax. intros H. apply in_map_iff in H. destruct H as [y [<- Hy]].
  apply in_map_iff in Hy. destruct Hy as [si [<- Hsi]]. simpl.
  apply Rdiv_lt_0_compat; [apply exp_pos|].
  apply softmax_total_pos with (r := (si / t)%R).
  apply in_map_iff. now exists si.
Qed.

(** ** [topk] returns the largest entries *)

Section TopkFacts.
Variable A : Type.
Variable ltb : A -> A -> bool.
Hypothesis ltb_asym : forall a b, ltb a b = true -> ltb b a = false.
Hypothesis ltb_negtrans :
  forall a b c, ltb a b = false -> ltb b c = false -> ltb a c = false.

Lemma topk_Ok_inv (x : list A) (k : Z) (top : list (nat * A)) :
  topk ltb x k = Ok top ->
  (0 <= k <= Z.of_nat (length x))%Z /\ top = firstn (Z.to_nat k) (sort_desc ltb x).
Proof.
  unfold topk. destruct (k <? 0)%Z eqn:E1; simpl;
    [destruct (int64_max <? k)%Z; discriminate|].
  destruct (Z.of_nat (length x) <? k)%Z eqn:E2;
    [destruct (int64_max <? k)%Z; discriminate|].
  intros H; inversion H. apply Z.ltb_ge in E1, E2. split; [lia | reflexivity].
Qed.

Lemma topk_succeeds (x : list A) (k : Z) :
  (0 <= k <= Z.of_nat (length x))%Z ->
  topk ltb x k = Ok (firstn (Z.to_nat k) (sort_desc ltb x)).
Proof.
  intros H. unfold topk.
  destruct (k <? 0)%Z eqn:E1; [apply Z.ltb_lt in E1; lia|].
  destruct (Z.of_nat (length x) <? k)%Z eqn:E2; [apply Z.ltb_lt in E2; lia|].
  reflexivity.
Qed.


Lemma topk_length (x : list A) (k : Z) (top : list (nat * A)) :
  topk ltb x k = Ok top -> Z.of_nat (length top) = k.
Proof.
  intros H. apply topk_Ok_inv in H. destruct H as [Hk ->].
  rewrite length_firstn, sort_desc_length. lia.
Qed.

Lemma topk_In (x : list A) (k : Z) (top : list (nat * A)) (i : nat) (v : A) :
  topk ltb x k = Ok top -> In (i, v) top -> nth_error x i = Some v.
Proof.
  intros H Hin. apply topk_Ok_inv in H. destruct H as [_ ->].
  apply sort_desc_In with (ltb := ltb).
  rewrite <- (firstn_skipn (Z.to_nat k)). apply in_or_app. now left.
Qed.

Lemma topk_NoDup (x : list A) (k : Z) (top : list (nat * A)) :
  topk ltb x k = Ok top -> NoDup (map fst top).
Proof.
  intros H. apply topk_Ok_inv in H. destruct H as [_ ->].
  pose proof (sort_desc_NoDup ltb x) as Hnd.
  rewrite <- (firstn_skipn (Z.to_nat k) (sort_desc ltb x)), map_app in Hnd.
  apply NoDup_app_remove_r in Hnd. exact Hnd.
Qed.

Lemma topk_largest (x : list A) (k : Z) (top : list (nat * A)) (e : nat * A)
    (j : nat) (w : A) :
  topk ltb x k = Ok top -> In e top ->
  nth_error x j = Some w -> ~ In j (map fst top) ->
  ltb (snd e) w = false.
Proof.
  intros H He Hw Hj. apply topk_Ok_inv in H. destruct H as [_ ->].
  assert (Hjs : In j (map fst (sort_desc ltb x))).
  { apply sort_desc_index_lt. apply nth_error_Some. congruence. }
  apply in_map_iff in Hjs. destruct Hjs as [[j' w'] [Hfst Hin]]. simpl in Hfst. subst j'.
  pose proof (sort_desc_In _ _ _ _ Hin) as Hw'.
  assert (w' = w) by congruence. subst w'.
  rewrite <- (firstn_skipn (Z.to_nat k) (sort_desc ltb x)) in Hin.
  apply in_app_or in Hin. destruct Hin as [Hin|Hin].
  - exfalso. apply Hj. apply in_map_iff. now exists (j, w).
  - change (not_below ltb e (j, w)).
    eapply sorted_split with (s := sort_desc ltb x) (k := Z.to_nat k);
      [apply sort_desc_sorted| |]; assumption.
Qed.

(** The first entry returned is a largest entry of the input. *)
Lemma topk_head_max (x : list A) (k : Z) (e : nat * A) (rest : list (nat * A))
    (j : nat) (w : A) :
  topk ltb x k = Ok (e :: rest) -> nth_error x j = Some w -> ltb (snd e) w = false.
Proof.
  intros H Hw. apply topk_Ok_inv in H. destruct H as [_ H].
  pose proof (@sort_desc_sorted A ltb ltb_asym ltb_negtrans x) as Hs.
  assert (Hjs : In j (map fst (sort_desc ltb x))).
  { apply sort_desc_index_lt. apply nth_error_Some. congruence. }
  apply in_map_iff in Hjs. destruct Hjs as [[j' w'] [Hfst Hin]]. simpl in Hfst. subst j'.
  pose proof (sort_desc_In _ _ _ _ Hin) as Hw'.
  assert (w' = w) by congruence. subst w'.
  destruct (sort_desc ltb x) as [|e0 s]; [contradiction|].
  destruct (Z.to_nat k); simpl in H; [discriminate|]. inversion H; subst e0.
  inversion Hs as [|? ? _ Hall]; subst. destruct Hin as [Hin|Hin].
  - subst e. simpl.
    destruct (ltb w w) eqn:E; [|reflexivity]. now rewrite (ltb_asym E) in E.
  - rewrite Forall_forall in Hall. apply (Hall _ Hin).
Qed.
End TopkFacts.

(** ** Support of a vector *)

Lemma nonzero_true (v : R) : nonzero v = true <-> v <> 0%R.
Proof. unfold nonzero. destruct (Req_dec_T v 0); split; congruence. Qed.

Lemma support_In (x : list R) (j : nat) : In j (support x) <-> nth j x 0%R <> 0%R.
Proof.
  unfold support. rewrite filter_In, in_seq, nonzero_true. split; [tauto|].
  intros H. split; [|exact H]. split; [lia|]. simpl.
  destruct (Nat.lt_ge_cases j (length x)) as [Hlt|Hge]; [exact Hlt|].
  exfalso. apply H. now apply nth_overflow.
Qed.

Lemma support_NoDup (x : list R) : NoDup (support x).
Proof. apply NoDup_filter, seq_NoDup. Qed.

Lemma nth_zeros_like (x : list R) (j : nat) : nth j (zeros_like x) 0%R = 0%R.
Proof. unfold zeros_like. apply nth_repeat. Qed.

Lemma length_zeros_like (x : list R) : length (zeros_like x) = length x.
Proof. unfold zeros_like. apply repeat_length. Qed.

(** Mass scattered into a zero vector sits on the written positions only. *)
Lemma support_scatter_zeros (x : list R) (index : list nat) (src : list R) :
  incl (support (scatter (zeros_like x) index src)) index.
Proof.
  intros j Hj. apply support_In in Hj.
  destruct (in_dec Nat.eq_dec j index) as [Hin|Hnin]; [exact Hin|].
  exfalso. apply Hj. rewrite nth_scatter_notin by exact Hnin. apply nth_zeros_like.
Qed.

(** ** [map2] *)

Lemma length_map2 (A B C : Type) (f : A -> B -> C) (x : list A) (y : list B) :
  length (map2 f x y) = Nat.min (length x) (length y).
Proof.
  revert y; induction x as [|a x IH]; intros [|b y]; simpl; try reflexivity.
  now rewrite IH.
Qed.

Lemma nth_map2 (A B C : Type) (f : A -> B -> C) (x : list A) (y : list B)
    (i : nat) (da : A) (db : B) (dc : C) :
  (i < length x)%nat -> (i < length y)%nat ->
  nth i (map2 f x y) dc = f (nth i x da) (nth i y db).
Proof.
  revert y i; induction x as [|a x IH]; intros [|b y] [|i]; simpl; intros Hx Hy;
    try lia; try reflexivity.
  apply IH; lia.
Qed.

Lemma map2_fuse_0 (x y : list R) :
  length x = length y -> map2 (fuse 0) x y = x.
Proof.
  revert y; induction x as [|a x IH]; intros [|b y]; simpl; intros H;
    try reflexivity; try discriminate.
  rewrite IH by congruence. f_equal. unfold fuse. ring.
Qed.

Lemma map2_fuse_1 (x y : list R) :
  length x = length y -> map2 (fuse 1) x y = y.
Proof.
  revert y; induction x as [|a x IH]; intros [|b y]; simpl; intros H;
    try reflexivity; try discriminate.
  rewrite IH by congruence. f_equal. unfold fuse. ring.
Qed.

(** ** Inversion of a successful decoding step *)

Lemma scale_Some (x : list R) (t : R) (y : list xreal) :
  scale x t = Some y -> y = map (fun xi => Fin (xi / t)) x.
Proof.
  destruct x as [|a x]; simpl; [congruence|].
  destruct (Req_dec_T t 0); congruence.
Qed.

Lemma scale_nonzero (x : list R) (t : R) :
  t <> 0%R -> scale x t = Some (map (fun xi => Fin (xi / t)) x).
Proof.
  intros H. destruct x as [|a x]; simpl; [reflexivity|].
  destruct (Req_dec_T t 0); [contradiction | reflexivity].
Qed.

Lemma scale_zero (x : list R) : x <> [] -> scale x 0 = None.
Proof.
  destruct x as [|a x]; [congruence|]. intros _. simpl.
  destruct (Req_dec_T 0 0); [reflexivity | congruence].
Qed.

Lemma score_candidates_length (scorer : list nat -> list R) (gen cands : list nat)
    (scores : list R) :
  score_candidates scorer gen cands = Ok scores -> length scores = length cands.
Proof.
  revert scores; induction cands as [|c cands IH]; simpl; intros scores H.
  - inversion H. reflexivity.
  - apply bind_Ok_inv in H. destruct H as [s [_ H]].
    apply bind_Ok_inv in H. destruct H as [ss [Hss H]].
    inversion H. simpl. f_equal. now apply IH.
Qed.

Lemma decoding_step_inv (self : FudgeInference) (cfg : GenerationConfig)
    (gen : list nat) (st : step_tensors) :
  decoding_step self cfg gen = Ok st ->
  exists candidates,
    get_next_token_distribution (model self) gen (temperature cfg) None (base_top_p cfg)
      = Ok (base_distribution st) /\
    topk Rltb (base_distribution st)
      (Z.min (fudge_top_k cfg) (Z.of_nat (length (base_distribution st)))) = Ok candidates /\
    candidate_values st = map snd candidates /\
    candidate_indices st = map fst candidates /\
    score_candidates (fudge_model self) gen (candidate_indices st) = Ok (fudge_scores st) /\
    fudge_distribution st =
      softmax (map (fun s => Fin (s / fudge_temperature cfg)) (fudge_scores st)) /\
    combined_scores st =
      map2 (fuse (lambda_weight cfg)) (candidate_values st) (fudge_distribution st) /\
    combined_distribution st =
      scatter (zeros_like (base_distribution st)) (candidate_indices st) (combined_scores st) /\
    match base_top_k cfg with
    | Some k =>
        exists top,
          topk Rltb (combined_distribution st)
            (Z.min k (Z.of_nat (length (combined_distribution st)))) = Ok top /\
          retruncated_distribution st =
            scatter (zeros_like (base_distribution st)) (map fst top) (map snd top)
    | None => retruncated_distribution st = combined_distribution st
    end.
Proof.
  unfold decoding_step. intros H.
  bind_inv H base Hbase. bind_inv H cands Hcands. bind_inv H scores Hscores.
  destruct (scale scores (fudge_temperature cfg)) as [scaled|] eqn:Hscale; [|discriminate].
  apply scale_Some in Hscale. subst scaled.
  bind_inv H retr Hretr.
  inversion H; subst st; clear H; simpl.
  exists cands. repeat (split; [assumption || reflexivity|]).
  destruct (base_top_k cfg) as [k|].
  - bind_inv Hretr top Htop.
    inversion Hretr. exists top. split; [exact Htop | reflexivity].
  - inversion Hretr. reflexivity.
Qed.

Lemma topk_values_nth (x : list R) (k : Z) (top : list (nat * R)) :
  topk Rltb x k = Ok top ->
  map snd top = map (fun j => nth j x 0%R) (map fst top).
Proof.
  intros H. rewrite map_map. apply map_ext_in. intros [i v] Hin. simpl.
  symmetry. apply nth_error_nth. exact (topk_In _ _ _ _ _ H Hin).
Qed.

(** * The decoding step *)

(** C1.  In a decoding step the fused score of the [i]-th candidate is
    [(1 - lambda_weight) * b + lambda_weight * f], where [b] is the entry of
    the full base distribution at the candidate's token (as returned by
    [get_next_token_distribution], not renormalised over the candidates) and
    [f] is the [i]-th entry of the softmax of the auxiliary scores divided by
    [fudge_temperature].  With [lambda_weight = 0] the fused scores are the
    candidates' base probabilities, with [lambda_weight = 1] they are the
    auxiliary softmax distribution. *)
Theorem fused_score_is_convex_combination (self : FudgeInference)
    (cfg : GenerationConfig) (gen : list nat) (st : step_tensors) :
  decoding_step self cfg gen = Ok st ->
  let lam := lambda_weight cfg in
  let base := base_distribution st in
  let fudge :=
    softmax (map (fun s => Fin (s / fudge_temperature cfg)) (fudge_scores st)) in
  get_next_token_distribution (model self) gen (temperature cfg) None (base_top_p cfg)
    = Ok base /\
  score_candidates (fudge_model self) gen (candidate_indices st) = Ok (fudge_scores st) /\
  length (combined_scores st) = length (candidate_indices st) /\
  (forall i, (i < length (candidate_indices st))%nat ->
     nth i (combined_scores st) 0%R =
       ((1 - lam) * nth (nth i (candidate_indices st) 0%nat) base 0
        + lam * nth i fudge 0)%R) /\
  (lam = 0%R ->
     combined_scores st = map (fun j => nth j base 0%R) (candidate_indices st)) /\
  (lam = 1%R -> combined_scores st = fudge).
Proof.
  intros H lam base fudge.
  destruct (decoding_step_inv _ _ _ H)
    as [cands [Hbase [Htop [Hval [Hidx [Hsc [Hfd [Hcs _]]]]]]]].
  pose proof (score_candidates_length _ _ _ Hsc) as Hlen.
  pose proof (topk_values_nth _ _ Htop) as Hvals.
  rewrite <- Hval, <- Hidx in Hvals.
  assert (Hlv : length (candidate_values st) = length (candidate_indices st))
    by (rewrite Hval, Hidx, !length_map; reflexivity).
  assert (Hlf : length (fudge_distribution st) = length (candidate_indices st))
    by (rewrite Hfd, length_softmax, length_map; exact Hlen).
  split; [exact Hbase|]. split; [exact Hsc|].
  split; [rewrite Hcs, length_map2, Hlv, Hlf; apply Nat.min_id|].
  split; [|split].
  - intros i Hi. rewrite Hcs.
    rewrite (nth_map2 _ _ _ 0%R 0%R 0%R) by lia.
    unfold fuse, fudge, lam. rewrite <- Hfd. f_equal. f_equal.
    rewrite Hvals.
    rewrite (nth_indep _ 0%R ((fun j => nth j base 0%R) 0%nat))
      by (rewrite length_map; exact Hi).
    exact (map_nth (fun j => nth j base 0%R) (candidate_indices st) 0%nat i).
  - intros Hl. rewrite Hcs. fold lam. rewrite Hl.
    rewrite map2_fuse_0 by congruence. exact Hvals.
  - intros Hl. rewrite Hcs. fold lam. rewrite Hl.
    rewrite map2_fuse_1 by congruence. exact Hfd.
Qed.

(** C4.  The candidates of a decoding step are [min(fudge_top_k, vocabulary
    size)] distinct tokens; they are highest-probability tokens of the base
    distribution [get_next_token_distribution] returns with [top_k=None] (no
    token outside the set has a larger probability than one inside), and
    the value recorded for a candidate is its entry in that distribution. *)
Theorem candidate_set_is_top_of_base (self : FudgeInference)
    (cfg : GenerationConfig) (gen : list nat) (st : step_tensors) :
  decoding_step self cfg gen = Ok st ->
  let base := base_distribution st in
  get_next_token_distribution (model self) gen (temperature cfg) None (base_top_p cfg)
    = Ok base /\
  Z.of_nat (length (candidate_indices st))
    = Z.min (fudge_top_k cfg) (Z.of_nat (length base)) /\
  NoDup (candidate_indices st) /\
  (forall i, In i (candidate_indices st) -> (i < length base)%nat) /\
  (forall i j, In i (candidate_indices st) -> (j < length base)%nat ->
     ~ In j (candidate_indices st) -> (nth j base 0 <= nth i base 0)%R) /\
  candidate_values st = map (fun i => nth i base 0%R) (candidate_indices st).
Proof.
  intros H base. subst base.
  destruct (decoding_step_inv _ _ _ H) as [cands [Hbase [Htop [Hval [Hidx _]]]]].
  split; [exact Hbase|].
  split; [rewrite Hidx, length_map; exact (topk_length _ _ _ Htop)|].
  split; [rewrite Hidx; exact (topk_NoDup _ _ _ Htop)|].
  split; [|split].
  - intros i Hi. rewrite Hidx in Hi. apply in_map_iff in Hi.
    destruct Hi as [[i' v] [Hfst Hin]]. simpl in Hfst. subst i'.
    apply nth_error_Some. rewrite (topk_In _ _ _ _ _ Htop Hin). discriminate.
  - intros i j Hi Hj Hnj. rewrite Hidx in Hi, Hnj. apply in_map_iff in Hi.
    destruct Hi as [[i' v] [Hfst Hin]]. simpl in Hfst. subst i'.
    pose proof (topk_In _ _ _ _ _ Htop Hin) as Hv.
    rewrite (nth_error_nth _ _ 0%R Hv).
    destruct (nth_error (base_distribution st) j) as [w|] eqn:Hw;
      [|apply nth_error_None in Hw; lia].
    rewrite (nth_error_nth _ _ 0%R Hw).
    apply Rltb_false.
    change (Rltb (snd (i, v)) w = false).
    eapply topk_largest;
      [apply Rltb_asym | apply Rltb_negtrans | exact Htop | exact Hin | exact Hw | exact Hnj].
  - rewrite Hval, Hidx. exact (topk_values_nth _ _ Htop).
Qed.

(** C5.  In a decoding step the full-vocabulary combined vector is zero at
    every position outside the candidate set; after the optional
    [base_top_k] re-truncation its support is still inside the candidate
    set, and when [base_top_k] is set it has at most [min(base_top_k,
    vocabulary size)] positions. *)
Theorem combined_mass_stays_on_candidates (self : FudgeInference)
    (cfg : GenerationConfig) (gen : list nat) (st : step_tensors) :
  decoding_step self cfg gen = Ok st ->
  (forall j, ~ In j (candidate_indices st) ->
     nth j (combined_distribution st) 0%R = 0%R) /\
  incl (support (retruncated_distribution st)) (candidate_indices st) /\
  (forall k, base_top_k cfg = Some k ->
     (Z.of_nat (length (support (retruncated_distribution st)))
      <= Z.min k (Z.of_nat (length (base_distribution st))))%Z).
Proof.
  intros H.
  destruct (decoding_step_inv _ _ _ H)
    as [cands [_ [_ [_ [_ [_ [_ [_ [Hcd Hre]]]]]]]]].
  assert (Hout : forall j, ~ In j (candidate_indices st) ->
                           nth j (combined_distribution st) 0%R = 0%R).
  { intros j Hj. rewrite Hcd, nth_scatter_notin by exact Hj. apply nth_zeros_like. }
  assert (Hlen : length (combined_distribution st) = length (base_distribution st))
    by (rewrite Hcd, length_scatter; apply length_zeros_like).
  split; [exact Hout|].
  destruct (base_top_k cfg) as [k|].
  - destruct Hre as [top [Htop Hre]]. split.
    + intros j Hj.
      pose proof (support_scatter_zeros (base_distribution st) (map fst top) (map snd top))
        as Hincl.
      rewrite <- Hre in Hincl. specialize (Hincl j Hj).
      apply in_map_iff in Hincl. destruct Hincl as [[j' v] [Hfst Hin]].
      simpl in Hfst. subst j'.
      pose proof (topk_In _ _ _ _ _ Htop Hin) as Hv.
      apply support_In in Hj. rewrite Hre in Hj.
      rewrite (@nth_scatter_In R _ (map fst top) (map snd top) j v 0%R) in Hj.
      * destruct (in_dec Nat.eq_dec j (candidate_indices st)) as [Hc|Hc]; [exact Hc|].
        exfalso. apply Hj. rewrite <- (Hout j Hc).
        symmetry. apply nth_error_nth. exact Hv.
      * exact (topk_NoDup _ _ _ Htop).
      * apply In_combine_map. exact Hin.
      * rewrite length_zeros_like, <- Hlen. apply nth_error_Some. congruence.
    + intros k' Hk'. inversion Hk'; subst k'.
      rewrite <- Hlen, <- (topk_length _ _ _ Htop).
      apply inj_le. rewrite <- (length_map fst top).
      apply NoDup_incl_length; [apply support_NoDup|].
      rewrite Hre. apply support_scatter_zeros.
  - split; [|discriminate].
    intros j Hj. rewrite Hre in Hj. apply support_In in Hj.
    destruct (in_dec Nat.eq_dec j (candidate_indices st)) as [Hc|Hc]; [exact Hc|].
    exfalso. apply Hj. exact (Hout j Hc).
Qed.

(** * The Distribution Builder *)

(** ** Counting with [filter] *)

Lemma filter_all (A : Type) (f : A -> bool) (l : list A) :
  Forall (fun a => f a = true) l -> filter f l = l.
Proof. induction 1 as [|a l Ha _ IH]; simpl; [reflexivity|]. now rewrite Ha, IH. Qed.

Lemma filter_none (A : Type) (f : A -> bool) (l : list A) :
  Forall (fun a => f a = false) l -> filter f l = [].
Proof. induction 1 as [|a l Ha _ IH]; simpl; [reflexivity|]. now rewrite Ha. Qed.

Lemma filter_length_le (A : Type) (f : A -> bool) (l : list A) :
  (length (filter f l) <= length l)%nat.
Proof. induction l as [|a l IH]; simpl; [lia|]. destruct (f a); simpl; lia. Qed.

Lemma Permutation_filter_length (A : Type) (f : A -> bool) (l l' : list A) :
  Permutation l l' -> length (filter f l) = length (filter f l').
Proof.
  induction 1 as [| a l l' _ IH | a b l | l l' l'' _ IH1 _ IH2]; simpl.
  - reflexivity.
  - destruct (f a); simpl; now rewrite IH.
  - destruct (f a), (f b); reflexivity.
  - now rewrite IH1.
Qed.

Lemma filter_map_length (A B : Type) (g : A -> B) (f : B -> bool) (l : list A) :
  length (filter f (map g l)) = length (filter (fun a => f (g a)) l).
Proof.
  induction l as [|a l IH]; simpl; [reflexivity|].
  destruct (f (g a)); simpl; now rewrite IH.
Qed.

Lemma filter_cons_length (A : Type) (f : A -> bool) (a : A) (l : list A) :
  length (filter f (a :: l)) = ((if f a then 1 else 0) + length (filter f l))%nat.
Proof. simpl. destruct (f a); reflexivity. Qed.

(** Counting positions by their entry is counting entries. *)
Lemma filter_positions_length (A : Type) (f : A -> bool) (l : list A) (d : A) :
  length (filter (fun j => f (nth j l d)) (seq 0 (length l))) = length (filter f l).
Proof.
  induction l as [|a l IH]; [reflexivity|].
  change (seq 0 (length (a :: l))) with (0%nat :: seq 1 (length l)).
  rewrite <- seq_shift.
  assert (E : length (filter (fun j => f (nth j (a :: l) d)) (map S (seq 0 (length l))))
              = length (filter f l)).
  { rewrite (filter_map_length S (fun j => f (nth j (a :: l) d))). exact IH. }
  rewrite !filter_cons_length, E. reflexivity.
Qed.

(** ** The [k]-th largest entry *)

Section KthLargest.
Variable A : Type.
Variable ltb : A -> A -> bool.
Hypothesis ltb_asym : forall a b, ltb a b = true -> ltb b a = false.
Hypothesis ltb_negtrans :
  forall a b c, ltb a b = false -> ltb b c = false -> ltb a c = false.

Lemma ltb_irrefl (a : A) : ltb a a = false.
Proof. destruct (ltb a a) eqn:E; [|reflexivity]. now rewrite (ltb_asym E) in E. Qed.

Lemma sorted_middle (l1 l2 : list (nat * A)) (e : nat * A) :
  StronglySorted (not_below ltb) (l1 ++ e :: l2) ->
  Forall (fun a => ltb (snd a) (snd e) = false) l1 /\
  Forall (fun b => ltb (snd e) (snd b) = false) l2.
Proof.
  induction l1 as [|a l1 IH]; simpl; intros Hs;
    inversion Hs as [|? ? Hs' Hall]; subst.
  - split; [constructor | exact Hall].
  - destruct (IH Hs') as [H1 H2]. split; [|exact H2].
    constructor; [|exact H1].
    rewrite Forall_forall in Hall. apply Hall. apply in_or_app. right. now left.
Qed.

(** The sorted list splits around the entry of rank [n]. *)
Lemma sort_desc_split (x : list A) (n : nat) :
  (n < length x)%nat ->
  exists l1 e l2,
    sort_desc ltb x = l1 ++ e :: l2 /\ length l1 = n /\
    firstn (S n) (sort_desc ltb x) = l1 ++ [e].
Proof.
  intros Hn. rewrite <- (sort_desc_length ltb x) in Hn.
  destruct (nth_error (sort_desc ltb x) n) as [e|] eqn:He;
    [|apply nth_error_None in He; lia].
  pose proof (firstn_skipn_middle _ _ He) as Hsplit.
  exists (firstn n (sort_desc ltb x)), e, (skipn (S n) (sort_desc ltb x)).
  assert (Hl : length (firstn n (sort_desc ltb x)) = n)
    by (rewrite length_firstn; lia).
  split; [symmetry; exact Hsplit|]. split; [exact Hl|].
  rewrite <- Hsplit at 1. rewrite firstn_app, Hl.
  replace (S n - n)%nat with 1%nat by lia.
  rewrite firstn_all2 by (rewrite Hl; lia). reflexivity.
Qed.

(** At least [n + 1] entries are not below the entry of rank [n], and at
    most [n] entries are above it. *)
Lemma rank_counts (x : list A) (l1 l2 : list (nat * A)) (e : nat * A) :
  sort_desc ltb x = l1 ++ e :: l2 ->
  In (snd e) x /\
  (S (length l1) <= length (filter (fun a => negb (ltb a (snd e))) x))%nat /\
  (length (filter (fun a => ltb (snd e) a) x) <= length l1)%nat.
Proof.
  intros Hs.
  pose proof (@sort_desc_sorted A ltb ltb_asym ltb_negtrans x) as Hsorted.
  pose proof (sort_desc_values ltb x) as Hperm.
  rewrite Hs in Hsorted, Hperm. apply sorted_middle in Hsorted.
  destruct Hsorted as [H1 H2]. rewrite map_app in Hperm. simpl in Hperm.
  split; [|split].
  - apply (Permutation_in _ Hperm). apply in_or_app. right. now left.
  - rewrite <- (Permutation_filter_length _ Hperm), filter_app. simpl.
    rewrite ltb_irrefl. simpl. rewrite filter_all.
    + rewrite length_app, length_map. simpl. lia.
    + apply Forall_forall. intros a Ha. apply in_map_iff in Ha.
      destruct Ha as [a' [<- Ha']]. rewrite Forall_forall in H1.
      now rewrite (H1 _ Ha').
  - rewrite <- (Permutation_filter_length _ Hperm), filter_app. simpl.
    rewrite ltb_irrefl. rewrite (@filter_none _ _ (map snd l2)).
    + rewrite length_app. simpl. rewrite Nat.add_0_r.
      rewrite <- (length_map snd l1). apply filter_length_le.
    + apply Forall_forall. intros b Hb. apply in_map_iff in Hb.
      destruct Hb as [b' [<- Hb']]. rewrite Forall_forall in H2. exact (H2 _ Hb').
Qed.

Hypothesis ltb_total : forall a b, ltb a b = false -> ltb b a = false -> a = b.

(** Without ties exactly [n + 1] entries are not below the entry of rank [n]. *)
Lemma rank_count_exact (x : list A) (l1 l2 : list (nat * A)) (e : nat * A) :
  NoDup x ->
  sort_desc ltb x = l1 ++ e :: l2 ->
  length (filter (fun a => negb (ltb a (snd e))) x) = S (length l1).
Proof.
  intros Hnd Hs.
  pose proof (@sort_desc_sorted A ltb ltb_asym ltb_negtrans x) as Hsorted.
  pose proof (sort_desc_values ltb x) as Hperm.
  rewrite Hs in Hsorted, Hperm. apply sorted_middle in Hsorted.
  destruct Hsorted as [H1 H2]. rewrite map_app in Hperm. simpl in Hperm.
  pose proof (Permutation_NoDup (Permutation_sym Hperm) Hnd) as Hnd'.
  apply NoDup_remove_2 in Hnd'.
  rewrite <- (Permutation_filter_length _ Hperm), filter_app. simpl.
  rewrite ltb_irrefl. simpl. rewrite filter_all, (@filter_none _ _ (map snd l2)).
  - rewrite length_app, length_map. simpl. lia.
  - apply Forall_forall. intros b Hb.
    destruct (ltb b (snd e)) eqn:E; [reflexivity|]. exfalso.
    apply Hnd'. apply in_or_app. right.
    assert (Hbe : b = snd e).
    { pose proof Hb as Hb0. apply in_map_iff in Hb0. destruct Hb0 as [b' [Hb1 Hb']].
      rewrite Forall_forall in H2. specialize (H2 _ Hb'). rewrite Hb1 in H2.
      exact (ltb_total E H2). }
    rewrite <- Hbe. exact Hb.
  - apply Forall_forall. intros a Ha. apply in_map_iff in Ha.
    destruct Ha as [a' [<- Ha']]. rewrite Forall_forall in H1.
    now rewrite (H1 _ Ha').
Qed.
End KthLargest.

(** ** The top-k filter *)

Lemma xltb_total (x y : xreal) : xltb x y = false -> xltb y x = false -> x = y.
Proof.
  destruct x, y; simpl; try congruence.
  rewrite !Rltb_false. intros. f_equal. lra.
Qed.

Lemma index_last_app (A : Type) (l : list A) (a : A) : index_last (l ++ [a]) = Ok a.
Proof. unfold index_last. now rewrite rev_unit. Qed.

Lemma index_last_nonempty (A : Type) (l : list A) :
  l <> [] -> exists a, index_last l = Ok a.
Proof.
  destruct l as [|b l] using rev_ind; [congruence|].
  intros _. exists b. apply index_last_app.
Qed.

Lemma masked_fill_map (f : xreal -> bool) (logits : list xreal) :
  masked_fill logits (map f logits)
  = map (fun x => if f x then NegInf else x) logits.
Proof.
  unfold masked_fill. induction logits as [|x logits IH]; simpl; [reflexivity|].
  now rewrite IH.
Qed.

Lemma length_masked_fill (logits : list xreal) (mask : list bool) :
  length mask = length logits -> length (masked_fill logits mask) = length logits.
Proof.
  intros H. unfold masked_fill. rewrite length_map, length_combine. lia.
Qed.

Lemma nth_masked_fill (logits : list xreal) (mask : list bool) (i : nat) :
  length mask = length logits -> (i < length logits)%nat ->
  nth i (masked_fill logits mask) NegInf
  = if nth i mask false then NegInf else nth i logits NegInf.
Proof.
  intros Hlen Hi. unfold masked_fill.
  rewrite (nth_indep _ NegInf
             ((fun xm : xreal * bool => if snd xm then NegInf else fst xm) (NegInf, false)))
    by (rewrite length_map, length_combine; lia).
  rewrite (map_nth (fun xm : xreal * bool => if snd xm then NegInf else fst xm)).
  rewrite combine_nth by congruence. reflexivity.
Qed.

(** The filter masks exactly the scores below the entry of rank [top_k - 1]
    of the sorted scores. *)
Lemma top_k_filter_spec (top_k : Z) (logits : list xreal) :
  (1 <= top_k <= Z.of_nat (length logits))%Z ->
  exists l1 e l2,
    sort_desc xltb logits = l1 ++ e :: l2 /\
    S (length l1) = Z.to_nat top_k /\
    top_k_filter top_k logits
    = Ok (map (fun x => if xltb x (snd e) then NegInf else x) logits).
Proof.
  intros Hk.
  destruct (@sort_desc_split _ xltb logits (Z.to_nat top_k - 1)) as [l1 [e [l2 [Hs [Hl Hf]]]]];
    [lia|].
  exists l1, e, l2. split; [exact Hs|]. split; [lia|].
  unfold top_k_filter. rewrite topk_succeeds by lia. simpl.
  replace (Z.to_nat top_k) with (S (Z.to_nat top_k - 1)) by lia.
  rewrite Hf, map_app. simpl. rewrite index_last_app. simpl.
  now rewrite masked_fill_map.
Qed.

Lemma NoDup_map_Fin (s : list R) : NoDup s -> NoDup (map Fin s).
Proof.
  induction 1 as [|a s Ha _ IH]; simpl; constructor; [|exact IH].
  intros H. apply in_map_iff in H. destruct H as [b [Hb Hin]].
  inversion Hb; subst. contradiction.
Qed.

Lemma get_next_token_distribution_top_k
    (model : list nat -> list (list R)) (ids : list nat) (t : R) (k : Z) (row : list R) :
  index_last (model ids) = Ok row -> t <> 0%R ->
  (1 <= k <= Z.of_nat (length row))%Z ->
  let scores := map (fun x => (x / t)%R) row in
  exists d kth,
    get_next_token_distribution model ids t (Some k) None = Ok d /\
    length d = length row /\
    In kth scores /\
    (length (filter (fun s => Rltb kth s) scores) < Z.to_nat k)%nat /\
    (Z.to_nat k <= length (filter (fun s => negb (Rltb s kth)) scores))%nat /\
    (forall i, (i < length row)%nat ->
       nth i d 0%R <> 0%R <-> (kth <= nth i scores 0)%R) /\
    length (support d) = length (filter (fun s => negb (Rltb s kth)) scores) /\
    (NoDup scores -> length (support d) = Z.to_nat k).
Proof.
  intros Hrow Ht Hk scores.
  assert (Hlogits : map (fun x => Fin (x / t)) row = map Fin scores)
    by (unfold scores; now rewrite map_map).
  assert (Hlen : length (map Fin scores) = length row)
    by (unfold scores; now rewrite !length_map).
  destruct (@top_k_filter_spec k (map Fin scores)) as [l1 [e [l2 [Hs [Hl Hf]]]]];
    [rewrite Hlen; exact Hk|].
  destruct (@rank_counts _ xltb xltb_asym xltb_negtrans _ _ _ _ Hs) as [Hin [Hge Hgt]].
  apply in_map_iff in Hin. destruct Hin as [kth [Hkth Hin]].
  rewrite <- Hkth in Hf, Hge, Hgt.
  set (masked := map (fun x => if xltb x (Fin kth) then NegInf else x) (map Fin scores)) in *.
  assert (Htotal : (0 < Rsum (map xexp masked))%R).
  { apply softmax_total_pos with (r := kth). unfold masked.
    apply in_map_iff. exists (Fin kth). simpl. rewrite Rltb_irrefl.
    split; [reflexivity | now apply in_map]. }
  assert (Hentry : forall i, (i < length row)%nat ->
            nth i masked NegInf
            = if Rltb (nth i scores 0%R) kth then NegInf else Fin (nth i scores 0%R)).
  { intros i Hi. unfold masked.
    rewrite (nth_indep _ NegInf
               ((fun x => if xltb x (Fin kth) then NegInf else x) (Fin 0%R)))
      by (rewrite length_map, Hlen; exact Hi).
    rewrite (map_nth (fun x => if xltb x (Fin kth) then NegInf else x)).
    rewrite (map_nth Fin). reflexivity. }
  assert (Hzero : forall i, (i < length row)%nat ->
            nth i (softmax masked) 0%R <> 0%R <-> (kth <= nth i scores 0)%R).
  { intros i Hi.
    rewrite softmax_entry_zero
      by (try exact Htotal; unfold masked; rewrite length_map, Hlen; exact Hi).
    rewrite (Hentry i Hi). rewrite <- Rltb_false.
    destruct (Rltb (nth i scores 0%R) kth); split; congruence. }
  assert (Hsupp : length (support (softmax masked))
                  = length (filter (fun s => negb (Rltb s kth)) scores)).
  { unfold support. rewrite length_softmax.
    replace (length masked) with (length scores)
      by (unfold masked; now rewrite !length_map).
    rewrite <- (filter_positions_length (fun s => negb (Rltb s kth)) scores 0%R).
    f_equal. apply filter_ext_in. intros j Hj. apply in_seq in Hj.
    assert (Hj' : (j < length row)%nat)
      by (unfold scores in Hj; rewrite length_map in Hj; lia).
    specialize (Hzero j Hj'). rewrite <- Rltb_false in Hzero.
    unfold nonzero. destruct (Req_dec_T (nth j (softmax masked) 0%R) 0) as [E|E];
      destruct (Rltb (nth j scores 0%R) kth); simpl; try reflexivity; tauto. }
  exists (softmax masked), kth.
  split.
  { unfold get_next_token_distribution. rewrite Hrow. simpl.
    rewrite scale_nonzero by exact Ht. unfold apply_filters.
    rewrite Hlogits, Hf. reflexivity. }
  split; [rewrite length_softmax; unfold masked; now rewrite length_map|].
  split; [exact Hin|].
  rewrite (filter_map_length Fin (fun a => xltb (Fin kth) a)) in Hgt.
  rewrite (filter_map_length Fin (fun a => negb (xltb a (Fin kth)))) in Hge.
  simpl in Hgt, Hge.
  split; [lia|]. split; [lia|]. split; [exact Hzero|]. split; [exact Hsupp|].
  intros Hnd. rewrite Hsupp, <- Hl.
  pose proof (@rank_count_exact _ xltb xltb_asym xltb_negtrans xltb_total
                _ _ _ _ (NoDup_map_Fin Hnd) Hs) as Hex.
  rewrite <- Hkth in Hex.
  rewrite (filter_map_length Fin (fun a => negb (xltb a (Fin kth)))) in Hex.
  exact Hex.
Qed.

(** ** The nucleus filter *)

Lemma length_cumsum_from (acc : R) (x : list R) :
  length (cumsum_from acc x) = length x.
Proof. revert acc; induction x as [|a x IH]; intros acc; simpl; [reflexivity|]. now rewrite IH. Qed.

(** Entry [j] of the cumulative sum is the sum of the entries up to and
    including [j]. *)
Lemma nth_cumsum_from (acc : R) (x : list R) (j : nat) :
  (j < length x)%nat ->
  nth j (cumsum_from acc x) 0%R = (acc + Rsum (firstn (S j) x))%R.
Proof.
  revert acc j; induction x as [|a x IH]; intros acc j Hj; simpl in Hj; [lia|].
  destruct j as [|j].
  - simpl. lra.
  - change (nth j (cumsum_from (acc + a) x) 0%R = (acc + (a + Rsum (firstn (S j) x)))%R).
    rewrite IH by lia. lra.
Qed.

Lemma nth_cumsum (x : list R) (j : nat) :
  (j < length x)%nat -> nth j (cumsum x) 0%R = Rsum (firstn (S j) x).
Proof. intros H. unfold cumsum. rewrite nth_cumsum_from by exact H. lra. Qed.

(** The mask after lines 88-89: rank 0 is kept, rank [j + 1] takes the
    earlier verdict on rank [j]. *)
Lemma shifted_mask (m : list bool) :
  m <> [] ->
  exists m',
    set_index0 (shift_right m) false = Ok m' /\
    length m' = length m /\
    nth 0 m' false = false /\
    (forall j, (S j < length m)%nat -> nth (S j) m' false = nth j m false).
Proof.
  destruct m as [|m0 m]; [congruence|]. intros _.
  exists (false :: removelast (m0 :: m)).
  split; [reflexivity|].
  assert (Hl : length (removelast (m0 :: m)) = length m).
  { rewrite removelast_firstn_len, length_firstn. simpl. lia. }
  split; [change (S (length (removelast (m0 :: m))) = S (length m)); now rewrite Hl|].
  split; [reflexivity|].
  intros j Hj. simpl in Hj.
  change (nth j (removelast (m0 :: m)) false = nth j (m0 :: m) false).
  rewrite removelast_firstn_len, nth_firstn.
  destruct (j <? pred (length (m0 :: m)))%nat eqn:E; [reflexivity|].
  apply Nat.ltb_ge in E. simpl in E. lia.
Qed.

Lemma top_p_filter_spec (top_p : R) (logits : list xreal) :
  logits <> [] ->
  let sorted := sort_desc xltb logits in
  let probs := softmax (map snd sorted) in
  exists mask,
    top_p_filter top_p logits = Ok (masked_fill logits mask) /\
    length mask = length logits /\
    (forall j, (j < length logits)%nat ->
       nth (nth j (map fst sorted) 0%nat) mask false
       = match j with
         | O => false
         | S j' => Rltb top_p (Rsum (firstn j probs))
         end).
Proof.
  intros Hne sorted probs.
  set (rem := map (fun c => Rltb top_p c) (cumsum probs)).
  assert (Hlp : length probs = length logits).
  { unfold probs. rewrite length_softmax, length_map. apply sort_desc_length. }
  assert (Hlr : length rem = length logits).
  { unfold rem, cumsum. now rewrite length_map, length_cumsum_from. }
  destruct (@shifted_mask rem) as [m' [Hset [Hlm [H0 HS]]]].
  { intros E. rewrite E in Hlr. destruct logits; [congruence | discriminate]. }
  assert (Hli : length (map fst sorted) = length logits).
  { rewrite length_map. apply sort_desc_length. }
  exists (scatter m' (map fst sorted) m').
  split.
  { unfold top_p_filter. fold sorted. fold probs. fold rem. rewrite Hset. reflexivity. }
  split; [rewrite length_scatter; congruence|].
  intros j Hj.
  assert (Hidx : (nth j (map fst sorted) 0%nat < length logits)%nat).
  { apply (sort_desc_index_lt xltb). apply nth_In.
    change (j < length (map fst sorted))%nat. now rewrite Hli. }
  rewrite (@nth_scatter_In bool m' (map fst sorted) m'
             (nth j (map fst sorted) 0%nat) (nth j m' false) false).
  - destruct j as [|j']; [exact H0|].
    rewrite HS by (rewrite Hlr; exact Hj).
    unfold rem.
    rewrite (nth_indep _ false ((fun c => Rltb top_p c) 0%R))
      by (unfold cumsum; rewrite length_map, length_cumsum_from, Hlp; lia).
    rewrite (map_nth (fun c => Rltb top_p c)).
    rewrite nth_cumsum by (rewrite Hlp; lia). reflexivity.
  - apply sort_desc_NoDup.
  - rewrite <- (combine_nth (map fst sorted) m' j 0%nat false) by congruence.
    apply nth_In. rewrite length_combine. lia.
  - rewrite Hlm, Hlr. exact Hidx.
Qed.

(** The nucleus filter for whatever arrangement the sort has returned. *)
Lemma top_p_filter_with_spec (top_p : R) (logits : list xreal)
    (sorted : list (nat * xreal)) :
  logits <> [] -> Permutation sorted (enumerate logits) ->
  let probs := softmax (map snd sorted) in
  exists mask,
    top_p_filter_with sorted top_p logits = Ok (masked_fill logits mask) /\
    length mask = length logits /\
    (forall j, (j < length logits)%nat ->
       nth (nth j (map fst sorted) 0%nat) mask false
       = match j with
         | O => false
         | S j' => Rltb top_p (Rsum (firstn j probs))
         end).
Proof.
  intros Hne Hperm probs.
  set (rem := map (fun c => Rltb top_p c) (cumsum probs)).
  assert (Hls : length sorted = length logits) by exact (@order_length _ _ _ Hperm).
  assert (Hlp : length probs = length logits).
  { unfold probs. rewrite length_softmax, length_map. exact Hls. }
  assert (Hlr : length rem = length logits).
  { unfold rem, cumsum. now rewrite length_map, length_cumsum_from. }
  destruct (@shifted_mask rem) as [m' [Hset [Hlm [H0 HS]]]].
  { intros E. rewrite E in Hlr. destruct logits; [congruence | discriminate]. }
  assert (Hli : length (map fst sorted) = length logits).
  { rewrite length_map. exact Hls. }
  exists (scatter m' (map fst sorted) m').
  split.
  { unfold top_p_filter_with. fold probs. fold rem. rewrite Hset. reflexivity. }
  split; [rewrite length_scatter; congruence|].
  intros j Hj.
  assert (Hidx : (nth j (map fst sorted) 0%nat < length logits)%nat).
  { apply (@order_index_lt _ _ _ Hperm). apply nth_In. now rewrite Hli. }
  rewrite (@nth_scatter_In bool m' (map fst sorted) m'
             (nth j (map fst sorted) 0%nat) (nth j m' false) false).
  - destruct j as [|j']; [exact H0|].
    rewrite HS by (rewrite Hlr; exact Hj).
    unfold rem.
    rewrite (nth_indep _ false ((fun c => Rltb top_p c) 0%R))
      by (unfold cumsum; rewrite length_map, length_cumsum_from, Hlp; lia).
    rewrite (map_nth (fun c => Rltb top_p c)).
    rewrite nth_cumsum by (rewrite Hlp; lia). reflexivity.
  - apply (@order_NoDup _ _ _ Hperm).
  - rewrite <- (combine_nth (map fst sorted) m' j 0%nat false) by congruence.
    apply nth_In. rewrite length_combine. lia.
  - rewrite Hlm, Hlr. exact Hidx.
Qed.

(** The position a descending order puts first carries a highest score. *)
Lemma descending_head_max (t : R) (row : list R) (sorted : list (nat * xreal)) :
  row <> [] ->
  descending_order xltb (map (fun x => Fin (x / t)%R) row) sorted ->
  let top := nth 0 (map fst sorted) 0%nat in
  (top < length row)%nat /\
  (forall i, (i < length row)%nat -> (nth i row 0 / t <= nth top row 0 / t)%R).
Proof.
  intros Hne [Hperm Hsorted] top.
  set (logits := map (fun x => Fin (x / t)%R) row) in *.
  assert (Hll : length logits = length row) by apply length_map.
  assert (HV : (0 < length row)%nat) by (destruct row; [congruence | simpl; lia]).
  assert (Hls : length sorted = length row)
    by (rewrite <- Hll; exact (@order_length _ _ _ Hperm)).
  assert (Hval : forall i, (i < length row)%nat ->
                           nth i logits NegInf = Fin (nth i row 0 / t)%R).
  { intros i Hi. unfold logits.
    rewrite (nth_indep _ NegInf ((fun x => Fin (x / t)%R) 0%R))
      by (rewrite length_map; exact Hi).
    exact (map_nth (fun x => Fin (x / t)%R) row 0%R i). }
  assert (Hentry : forall i w, In (i, w) sorted ->
                     (i < length row)%nat /\ w = Fin (nth i row 0 / t)%R).
  { intros i w Hin. pose proof (@order_In _ _ _ Hperm i w Hin) as Hnth.
    assert (Hi : (i < length row)%nat)
      by (rewrite <- Hll; apply nth_error_Some; congruence).
    split; [exact Hi|]. rewrite <- (Hval i Hi). symmetry.
    now apply nth_error_nth. }
  assert (Hmem : forall i, (i < length row)%nat -> In i (map fst sorted))
    by (intros i Hi; apply (@order_index_lt _ _ _ Hperm); now rewrite Hll).
  destruct sorted as [|[i0 x0] rest]; [simpl in Hls; lia|].
  change (nth 0 (map fst ((i0, x0) :: rest)) 0%nat) with i0 in top.
  destruct (Hentry i0 x0 (or_introl eq_refl)) as [Hi0 Hx0].
  split; [exact Hi0|].
  intros i Hi. pose proof (Hmem i Hi) as Hin.
  apply in_map_iff in Hin. destruct Hin as [[i' w] [Hf Hin]]. simpl in Hf. subst i'.
  destruct (Hentry i w Hin) as [_ Hw].
  destruct Hin as [Hin|Hin].
  - inversion Hin; subst. unfold top. lra.
  - inversion Hsorted as [|? ? _ Hall]; subst.
    rewrite Forall_forall in Hall. specialize (Hall _ Hin).
    unfold not_below in Hall. simpl in Hall.
    apply Rltb_false in Hall. unfold top. exact Hall.
Qed.

(** What the nucleus filter leaves of finite scaled logits, for whatever
    arrangement the sort has returned: the position of rank [j] loses its
    mass exactly when [j >= 1] and the probabilities of the ranks before it
    sum to more than [top_p]. *)
Lemma nucleus_distribution_spec (t p : R) (row : list R) (sorted : list (nat * xreal)) :
  row <> [] ->
  let logits := map (fun x => Fin (x / t)%R) row in
  Permutation sorted (enumerate logits) ->
  let probs := softmax (map snd sorted) in
  exists out,
    top_p_filter_with sorted p logits = Ok out /\
    nucleus_distribution sorted p logits = Ok (softmax out) /\
    length (softmax out) = length row /\
    (exists r, In (Fin r) out) /\
    (forall j, (j < length row)%nat ->
       nth (nth j (map fst sorted) 0%nat) (softmax out) 0%R = 0%R
       <-> (1 <= j)%nat /\ (p < Rsum (firstn j probs))%R).
Proof.
  intros Hne logits Hperm probs.
  assert (Hll : length logits = length row) by (unfold logits; apply length_map).
  assert (Hlne : logits <> [])
    by (intros E; rewrite E in Hll; destruct row; [congruence|discriminate]).
  destruct (@top_p_filter_with_spec p logits sorted Hlne Hperm) as [mask [Hf [Hlm Hmask]]].
  fold probs in Hmask.
  set (masked := masked_fill logits mask) in *.
  assert (Hlmk : length masked = length logits) by (apply length_masked_fill; exact Hlm).
  assert (Hli : length (map fst sorted) = length logits).
  { rewrite length_map. exact (@order_length _ _ _ Hperm). }
  assert (Hidx : forall j, (j < length logits)%nat ->
                           (nth j (map fst sorted) 0%nat < length logits)%nat).
  { intros j Hj. apply (@order_index_lt _ _ _ Hperm). apply nth_In. now rewrite Hli. }
  assert (Hfin : forall i, (i < length logits)%nat -> exists r, nth i logits NegInf = Fin r).
  { intros i Hi. unfold logits.
    rewrite (nth_indep _ NegInf ((fun x => Fin (x / t)) 0%R)) by exact Hi.
    rewrite (map_nth (fun x => Fin (x / t))). eexists. reflexivity. }
  assert (Hentry : forall j, (j < length logits)%nat ->
            nth (nth j (map fst sorted) 0%nat) masked NegInf = NegInf
            <-> (1 <= j)%nat /\ (p < Rsum (firstn j probs))%R).
  { intros j Hj. unfold masked.
    rewrite nth_masked_fill by (try exact Hlm; apply Hidx; exact Hj).
    rewrite (Hmask j Hj).
    destruct (Hfin _ (Hidx j Hj)) as [r Hr]. rewrite Hr.
    destruct j as [|j'].
    - split; [discriminate | intros [H _]; lia].
    - rewrite <- Rltb_true.
      destruct (Rltb p (Rsum (firstn (S j') probs))); split; try congruence.
      + intros _. split; [lia | reflexivity].
      + intros [_ H]. discriminate. }
  assert (Htop : exists r, In (Fin r) masked).
  { assert (H0 : (0 < length logits)%nat) by (destruct logits; [congruence | simpl; lia]).
    destruct (nth (nth 0 (map fst sorted) 0%nat) masked NegInf) as [|r] eqn:E.
    - apply (Hentry 0%nat H0) in E. lia.
    - exists r. rewrite <- E. apply nth_In. rewrite Hlmk. apply Hidx. exact H0. }
  destruct Htop as [r Hr].
  pose proof (softmax_total_pos _ _ Hr) as Htotal.
  exists masked.
  split; [exact Hf|].
  split; [unfold nucleus_distribution; rewrite Hf; reflexivity|].
  split; [rewrite length_softmax; congruence|].
  split; [now exists r|].
  intros j Hj. rewrite <- Hll in Hj.
  rewrite softmax_entry_zero by (try exact Htotal; rewrite Hlmk; apply Hidx; exact Hj).
  apply Hentry. exact Hj.
Qed.

(** The method sorts the scaled logits and runs the filter on the result;
    the order it gets is one of the descending orders. *)
Lemma get_next_token_distribution_nucleus_run
    (model : list nat -> list (list R)) (ids : list nat) (t p : R) (row : list R) :
  index_last (model ids) = Ok row -> t <> 0%R ->
  let logits := map (fun x => Fin (x / t)%R) row in
  exists sorted,
    descending_order xltb logits sorted /\
    get_next_token_distribution model ids t None (Some p)
    = nucleus_distribution sorted p logits.
Proof.
  intros Hrow Ht logits. exists (sort_desc xltb logits). split.
  - apply sort_desc_descending; [exact xltb_asym | exact xltb_negtrans].
  - unfold get_next_token_distribution. rewrite Hrow, bind_Ok.
    rewrite scale_nonzero by exact Ht. reflexivity.
Qed.

Lemma get_next_token_distribution_top_p
    (model : list nat -> list (list R)) (ids : list nat) (t p : R) (row : list R) :
  index_last (model ids) = Ok row -> t <> 0%R -> row <> [] ->
  let logits := map (fun x => Fin (x / t)%R) row in
  let sorted := sort_desc xltb logits in
  let probs := softmax (map snd sorted) in
  exists d,
    get_next_token_distribution model ids t None (Some p) = Ok d /\
    length d = length row /\
    (forall j, (j < length row)%nat ->
       nth (nth j (map fst sorted) 0%nat) d 0%R = 0%R
       <-> (1 <= j)%nat /\ (p < Rsum (firstn j probs))%R) /\
    (exists z, In z d /\ (0 < z)%R) /\
    Forall (fun z => 0 <= z)%R d.
Proof.
  intros Hrow Ht Hne logits sorted probs.
  assert (Hll : length logits = length row) by (unfold logits; apply length_map).
  assert (Hlne : logits <> []) by (intros E; rewrite E in Hll; destruct row; [congruence|discriminate]).
  destruct (@top_p_filter_spec p logits Hlne) as [mask [Hf [Hlm Hmask]]].
  fold sorted in Hmask. fold probs in Hmask.
  set (masked := masked_fill logits mask) in *.
  assert (Hlmk : length masked = length logits) by (apply length_masked_fill; exact Hlm).
  assert (Hli : length (map fst sorted) = length logits).
  { rewrite length_map. apply sort_desc_length. }
  assert (Hidx : forall j, (j < length logits)%nat ->
                           (nth j (map fst sorted) 0%nat < length logits)%nat).
  { intros j Hj. apply (sort_desc_index_lt xltb). apply nth_In.
    change (j < length (map fst sorted))%nat. now rewrite Hli. }
  assert (Hfin : forall i, (i < length logits)%nat -> exists r, nth i logits NegInf = Fin r).
  { intros i Hi. unfold logits.
    rewrite (nth_indep _ NegInf ((fun x => Fin (x / t)) 0%R)) by exact Hi.
    rewrite (map_nth (fun x => Fin (x / t))). eexists. reflexivity. }
  assert (Hentry : forall j, (j < length logits)%nat ->
            nth (nth j (map fst sorted) 0%nat) masked NegInf = NegInf
            <-> (1 <= j)%nat /\ (p < Rsum (firstn j probs))%R).
  { intros j Hj. unfold masked.
    rewrite nth_masked_fill by (try exact Hlm; apply Hidx; exact Hj).
    rewrite (Hmask j Hj).
    destruct (Hfin _ (Hidx j Hj)) as [r Hr]. rewrite Hr.
    destruct j as [|j'].
    - split; [discriminate | intros [H _]; lia].
    - rewrite <- Rltb_true.
      destruct (Rltb p (Rsum (firstn (S j') probs))); split; try congruence.
      + intros _. split; [lia | reflexivity].
      + intros [_ H]. discriminate. }
  assert (Htop : exists r, In (Fin r) masked).
  { assert (H0 : (0 < length logits)%nat) by (destruct logits; [congruence | simpl; lia]).
    destruct (nth (nth 0 (map fst sorted) 0%nat) masked NegInf) as [|r] eqn:E.
    - apply (Hentry 0%nat H0) in E. lia.
    - exists r. rewrite <- E. apply nth_In. rewrite Hlmk. apply Hidx. exact H0. }
  destruct Htop as [r Hr].
  pose proof (softmax_total_pos _ _ Hr) as Htotal.
  exists (softmax masked).
  split.
  { unfold get_next_token_distribution. rewrite Hrow. simpl.
    rewrite scale_nonzero by exact Ht. unfold apply_filters. simpl.
    fold logits. rewrite Hf. reflexivity. }
  split; [rewrite length_softmax; congruence|].
  split.
  { intros j Hj. rewrite <- Hll in Hj.
    rewrite softmax_entry_zero by (try exact Htotal; rewrite Hlmk; apply Hidx; exact Hj).
    apply Hentry. exact Hj. }
  split; [|apply softmax_nonneg].
  exists (xexp (Fin r) / Rsum (map xexp masked))%R. split.
  - unfold softmax. apply in_map_iff. exists (Fin r). split; [reflexivity | exact Hr].
  - apply Rdiv_lt_0_compat; [apply exp_pos | exact Htotal].
Qed.

(** ** When the Distribution Builder raises *)

Lemma top_k_filter_succeeds (top_k : Z) (logits : list xreal) :
  (1 <= top_k <= Z.of_nat (length logits))%Z ->
  exists out, top_k_filter top_k logits = Ok out /\ length out = length logits.
Proof.
  intros H. destruct (@top_k_filter_spec _ _ H) as [l1 [e [l2 [_ [_ Hf]]]]].
  eexists. split; [exact Hf | apply length_map].
Qed.

Lemma apply_filters_succeeds (top_k : option Z) (top_p : option R) (logits : list xreal) :
  logits <> [] -> valid_top_k top_k (length logits) ->
  exists out, apply_filters top_k top_p logits = Ok out /\ length out = length logits.
Proof.
  intros Hne Hk. unfold apply_filters.
  assert (H1 : exists l1,
             match top_k with Some k => top_k_filter k logits | None => Ok logits end = Ok l1
             /\ length l1 = length logits).
  { destruct top_k as [k|]; [apply top_k_filter_succeeds; exact Hk|].
    exists logits. split; reflexivity. }
  destruct H1 as [l1 [H1 Hl1]]. rewrite H1. simpl.
  destruct top_p as [p|]; [|exists l1; split; [reflexivity | exact Hl1]].
  assert (Hne1 : l1 <> [])
    by (intros E; rewrite E in Hl1; destruct logits; [congruence | discriminate]).
  destruct (@top_p_filter_spec p l1 Hne1) as [mask [Hf [Hlm _]]].
  eexists. split; [exact Hf|]. rewrite length_masked_fill; congruence.
Qed.

(** What the filters do depends on the scores; whether they raise, and
    what, depends on [top_k] and on the length of the tensor only.  This is
    what lets [get_next_token_distribution] run them for their exceptions
    when the scores themselves have left the reals. *)
Lemma top_k_filter_by_shape (top_k : Z) (logits : list xreal) :
  match top_k_filter top_k logits with
  | Ok out => (1 <= top_k <= Z.of_nat (length logits))%Z /\ length out = length logits
  | Raise e =>
      ((top_k < 0 \/ Z.of_nat (length logits) < top_k)%Z /\
       e = if (int64_max <? top_k)%Z
           then ValueError "Overflow when unpacking long long"
           else RuntimeError "selected index k out of range") \/
      (top_k = 0%Z /\
       e = IndexError "index -1 is out of bounds for dimension with size 0")
  | NonFinite => False
  end.
Proof.
  destruct (Z_lt_le_dec top_k 0) as [Hneg|Hnn].
  { unfold top_k_filter, topk.
    destruct (top_k <? 0)%Z eqn:E; [|apply Z.ltb_ge in E; lia].
    simpl. destruct (int64_max <? top_k)%Z; simpl; left; (split; [lia | reflexivity]). }
  destruct (Z_lt_le_dec (Z.of_nat (length logits)) top_k) as [Hbig|Hle].
  { unfold top_k_filter, topk.
    destruct (top_k <? 0)%Z eqn:E1; [apply Z.ltb_lt in E1; lia|].
    destruct (Z.of_nat (length logits) <? top_k)%Z eqn:E2; [|apply Z.ltb_ge in E2; lia].
    simpl. destruct (int64_max <? top_k)%Z; simpl; left; (split; [lia | reflexivity]). }
  destruct (Z.eq_dec top_k 0) as [->|Hnz].
  { unfold top_k_filter. rewrite topk_succeeds by lia. simpl.
    right. split; reflexivity. }
  destruct (@top_k_filter_succeeds top_k logits) as [out [Hout Hl]]; [lia|].
  rewrite Hout. split; [lia | exact Hl].
Qed.

Lemma top_p_filter_by_shape (top_p : R) (logits : list xreal) :
  match top_p_filter top_p logits with
  | Ok out => logits <> [] /\ length out = length logits
  | Raise e =>
      logits = [] /\
      e = IndexError "index 0 is out of bounds for dimension with size 0"
  | NonFinite => False
  end.
Proof.
  destruct logits as [|x logits].
  - simpl. split; reflexivity.
  - destruct (@top_p_filter_spec top_p (x :: logits)) as [mask [Hf [Hl _]]];
      [discriminate|].
    rewrite Hf. split; [discriminate | now apply length_masked_fill].
Qed.

Lemma apply_filters_by_shape (top_k : option Z) (top_p : option R)
    (l1 l2 : list xreal) :
  length l1 = length l2 ->
  match apply_filters top_k top_p l1, apply_filters top_k top_p l2 with
  | Ok out1, Ok out2 => length out1 = length out2
  | Raise e1, Raise e2 => e1 = e2
  | _, _ => False
  end.
Proof.
  intros Hlen. unfold apply_filters.
  assert (Hk : match (match top_k with Some k => top_k_filter k l1 | None => Ok l1 end),
                     (match top_k with Some k => top_k_filter k l2 | None => Ok l2 end) with
               | Ok out1, Ok out2 => length out1 = length out2
               | Raise e1, Raise e2 => e1 = e2
               | _, _ => False
               end).
  { destruct top_k as [k|]; [|exact Hlen].
    pose proof (top_k_filter_by_shape k l1) as H1.
    pose proof (top_k_filter_by_shape k l2) as H2.
    destruct (top_k_filter k l1) as [o1|e1|], (top_k_filter k l2) as [o2|e2|];
      try contradiction; try lia.
    destruct H1 as [[H1 ->]|[H1 ->]], H2 as [[H2 ->]|[H2 ->]]; try reflexivity; lia. }
  destruct (match top_k with Some k => top_k_filter k l1 | None => Ok l1 end)
    as [o1|e1|],
    (match top_k with Some k => top_k_filter k l2 | None => Ok l2 end) as [o2|e2|];
    simpl; try contradiction; try exact Hk.
  destruct top_p as [p|]; [|exact Hk].
  pose proof (top_p_filter_by_shape p o1) as H1.
  pose proof (top_p_filter_by_shape p o2) as H2.
  destruct (top_p_filter p o1) as [q1|e1|], (top_p_filter p o2) as [q2|e2|];
    try contradiction.
  - destruct H1 as [_ H1], H2 as [_ H2]. congruence.
  - destruct H1 as [H1 _], H2 as [H2 _]. subst o2.
    destruct o1; [congruence | discriminate].
  - destruct H1 as [H1 _], H2 as [H2 _]. subst o1.
    destruct o2; [congruence | discriminate].
  - destruct H1 as [_ ->], H2 as [_ ->]. reflexivity.
Qed.

Lemma model_output_last (model : list nat -> list (list R)) (ids : list nat) :
  length (model ids) = length ids -> ids <> [] ->
  exists row, index_last (model ids) = Ok row.
Proof.
  intros Hlen Hne. apply index_last_nonempty. intros E. rewrite E in Hlen.
  destruct ids; [congruence | discriminate].
Qed.

(** C7, as the code has it.  [get_next_token_distribution] does not check
    the temperature.  It raises whenever the input token sequence is empty.
    For a non-empty input over a non-empty vocabulary, with [top_k] unset or
    between 1 and the vocabulary size, it does not raise at any temperature:
    a non-zero temperature, positive or negative, gives a distribution, and
    temperature zero gives a tensor of non-finite values. *)
Theorem get_next_token_distribution_never_checks_temperature
    (model : list nat -> list (list R)) (ids : list nat) (t : R)
    (top_k : option Z) (top_p : option R) :
  length (model ids) = length ids ->
  (ids = [] -> raises (get_next_token_distribution model ids t top_k top_p)) /\
  (ids <> [] ->
   exists row,
     index_last (model ids) = Ok row /\
     (row <> [] -> valid_top_k top_k (length row) ->
      ~ raises (get_next_token_distribution model ids t top_k top_p) /\
      (t <> 0%R ->
       exists d, get_next_token_distribution model ids t top_k top_p = Ok d /\
                 length d = length row) /\
      (t = 0%R -> get_next_token_distribution model ids t top_k top_p = NonFinite))).
Proof.
  intros Hlen. split.
  - intros ->. destruct (model []) as [|r rs] eqn:E; [|discriminate].
    unfold get_next_token_distribution. rewrite E. eexists. reflexivity.
  - intros Hne. destruct (@model_output_last model ids Hlen Hne) as [row Hrow].
    exists row. split; [exact Hrow|]. intros Hrne Hk.
    assert (Hzero : t = 0%R ->
              get_next_token_distribution model ids t top_k top_p = NonFinite).
    { intros ->. unfold get_next_token_distribution.
      rewrite Hrow, bind_Ok, scale_zero by exact Hrne.
      destruct (@apply_filters_succeeds top_k top_p (map Fin row)) as [out [Hout _]].
      - intros E. apply map_eq_nil in E. contradiction.
      - rewrite length_map. exact Hk.
      - rewrite Hout. reflexivity. }
    assert (Hnz : t <> 0%R ->
              exists d, get_next_token_distribution model ids t top_k top_p = Ok d /\
                        length d = length row).
    { intros Ht. unfold get_next_token_distribution.
      rewrite Hrow, bind_Ok, scale_nonzero by exact Ht.
      destruct (@apply_filters_succeeds top_k top_p (map (fun xi => Fin (xi / t)) row))
        as [out [Hout Hlo]].
      - intros E. apply map_eq_nil in E. contradiction.
      - rewrite length_map. exact Hk.
      - rewrite Hout. simpl. eexists. split; [reflexivity|].
        rewrite length_softmax, Hlo. apply length_map. }
    split; [|split; assumption].
    destruct (Req_dec_T t 0) as [E|E].
    + rewrite (Hzero E). apply raises_NonFinite.
    + destruct (Hnz E) as [d [Hd _]]. rewrite Hd. apply raises_Ok.
Qed.

(** ** The base distribution of a decoding step *)

Lemma base_distribution_valid
    (model : list nat -> list (list R)) (ids : list nat) (t : R) (top_p : option R)
    (row : list R) :
  index_last (model ids) = Ok row -> t <> 0%R -> row <> [] ->
  exists d,
    get_next_token_distribution model ids t None top_p = Ok d /\
    length d = length row /\
    Forall (fun z => 0 <= z)%R d /\
    (exists z, In z d /\ (0 < z)%R).
Proof.
  intros Hrow Ht Hne. destruct top_p as [p|].
  - destruct (@get_next_token_distribution_top_p model ids t p row Hrow Ht Hne)
      as [d [Hd [Hl [_ [Hpos Hnn]]]]].
    exists d. repeat split; assumption.
  - exists (softmax (map (fun x => Fin (x / t)) row)).
    split.
    { unfold get_next_token_distribution.
      rewrite Hrow, bind_Ok, scale_nonzero by exact Ht. reflexivity. }
    split; [now rewrite length_softmax, length_map|].
    split; [apply softmax_nonneg|].
    destruct row as [|x row]; [congruence|].
    eexists. split; [left; reflexivity|].
    apply (@softmax_all_finite_pos (x :: row) t). left. reflexivity.
Qed.

(** * Success of a decoding step and validity of its sampling weights *)

Lemma channel_1_succeeds (logits : list R) :
  (2 <= length logits)%nat -> exists s, channel_1 logits = Ok s.
Proof.
  intros H. unfold channel_1.
  destruct (nth_error logits 1) as [s|] eqn:E; [now exists s|].
  apply nth_error_None in E. lia.
Qed.

Lemma score_candidates_succeeds (scorer : list nat -> list R) (gen cands : list nat) :
  (forall s, (2 <= length (scorer s))%nat) ->
  exists scores, score_candidates scorer gen cands = Ok scores.
Proof.
  intros Hs. induction cands as [|c cands [scores IH]]; simpl.
  - now exists [].
  - destruct (@channel_1_succeeds _ (Hs (gen ++ [c]))) as [s Hc].
    rewrite Hc, bind_Ok, IH, bind_Ok. now eexists.
Qed.

Lemma decoding_step_succeeds (self : FudgeInference) (cfg : GenerationConfig)
    (gen : list nat) (row : list R) :
  index_last (model self gen) = Ok row -> row <> [] ->
  temperature cfg <> 0%R -> fudge_temperature cfg <> 0%R ->
  (0 <= fudge_top_k cfg)%Z ->
  (forall k, base_top_k cfg = Some k -> (0 <= k)%Z) ->
  (forall s, (2 <= length (fudge_model self s))%nat) ->
  exists st, decoding_step self cfg gen = Ok st.
Proof.
  intros Hrow Hne Ht Hft Hk Hbk Hsc.
  destruct (@base_distribution_valid (model self) gen (temperature cfg)
              (base_top_p cfg) row Hrow Ht Hne) as [base [Hbase _]].
  unfold decoding_step. rewrite Hbase, bind_Ok.
  rewrite topk_succeeds by lia. rewrite bind_Ok.
  match goal with
  | |- context [score_candidates ?f ?g ?c] =>
      destruct (@score_candidates_succeeds f g c Hsc) as [scores Hscores]
  end.
  rewrite Hscores, bind_Ok, scale_nonzero by exact Hft.
  destruct (base_top_k cfg) as [k|] eqn:Ek.
  - specialize (Hbk k eq_refl).
    rewrite topk_succeeds by lia. rewrite !bind_Ok. now eexists.
  - rewrite bind_Ok. now eexists.
Qed.

Lemma Forall_map2 (A B C : Type) (P : A -> Prop) (Q : B -> Prop) (S : C -> Prop)
    (f : A -> B -> C) (x : list A) (y : list B) :
  (forall a b, P a -> Q b -> S (f a b)) ->
  Forall P x -> Forall Q y -> Forall S (map2 f x y).
Proof.
  intros Hf Hx. revert y. induction Hx as [|a x Ha _ IH]; intros y Hy;
    [constructor|].
  destruct Hy as [|b y Hb Hy]; simpl; constructor; auto.
Qed.

Lemma fuse_nonneg (lam b f : R) :
  (0 <= lam <= 1)%R -> (0 <= b)%R -> (0 <= f)%R -> (0 <= fuse lam b f)%R.
Proof. intros Hl Hb Hf. unfold fuse. nra. Qed.

Lemma fuse_pos (lam b f : R) :
  (0 <= lam <= 1)%R -> (0 < b)%R -> (0 < f)%R -> (0 < fuse lam b f)%R.
Proof.
  intros Hl Hb Hf. unfold fuse.
  destruct (Rle_lt_dec lam (1 / 2)).
  - assert (0 <= lam * f)%R by nra. assert (0 < (1 - lam) * b)%R by nra. lra.
  - assert (0 < lam * f)%R by nra. assert (0 <= (1 - lam) * b)%R by nra. lra.
Qed.

Lemma topk_nonempty (x : list R) (k : Z) (top : list (nat * R)) :
  topk Rltb x k = Ok top -> (1 <= k)%Z -> exists e rest, top = e :: rest.
Proof.
  intros H Hk. apply topk_length in H.
  destruct top as [|e rest]; [simpl in H; lia|]. now exists e, rest.
Qed.

Lemma topk_values_In (x : list R) (k : Z) (top : list (nat * R)) :
  topk Rltb x k = Ok top -> forall v, In v (map snd top) -> In v x.
Proof.
  intros H v Hv. apply in_map_iff in Hv. destruct Hv as [[i v'] [Hs Hin]].
  simpl in Hs. subst v'. eapply nth_error_In. exact (topk_In _ _ _ _ _ H Hin).
Qed.

(** A scatter of the result of [topk] puts the largest entry at its place. *)
Lemma scatter_topk_head (base x : list R) (k : Z) (e : nat * R) (rest : list (nat * R)) :
  topk Rltb x k = Ok (e :: rest) -> length base = length x ->
  nth (fst e) (scatter base (map fst (e :: rest)) (map snd (e :: rest))) 0%R = snd e.
Proof.
  intros H Hl. destruct e as [i v]. cbn [fst snd]. apply nth_scatter_In.
  - exact (topk_NoDup _ _ _ H).
  - apply In_combine_map. now left.
  - rewrite Hl. apply nth_error_Some.
    rewrite (topk_In _ _ _ i v H); [discriminate | now left].
Qed.

Lemma sampling_weights_valid (self : FudgeInference) (cfg : GenerationConfig)
    (gen : list nat) (row : list R) (st : step_tensors) :
  decoding_step self cfg gen = Ok st ->
  index_last (model self gen) = Ok row -> row <> [] ->
  temperature cfg <> 0%R ->
  (0 <= lambda_weight cfg <= 1)%R ->
  (1 <= fudge_top_k cfg)%Z ->
  (forall k, base_top_k cfg = Some k -> (1 <= k)%Z) ->
  Forall (fun w => 0 <= w)%R (retruncated_distribution st) /\
  (0 < Rsum (retruncated_distribution st))%R.
Proof.
  intros Hst Hrow Hne Ht Hlam Hk Hbk.
  destruct (decoding_step_inv _ _ _ Hst)
    as [cands [Hbase [Htop [Hval [Hidx [Hsc [Hfd [Hcs [Hcd Hre]]]]]]]]].
  destruct (@base_distribution_valid (model self) gen (temperature cfg)
              (base_top_p cfg) row Hrow Ht Hne) as [d [Hd [Hld [Hnn [z [Hz Hzpos]]]]]].
  assert (d = base_distribution st) by congruence. subst d.
  assert (HV : (1 <= length (base_distribution st))%nat)
    by (rewrite Hld; destruct row; [congruence | simpl; lia]).
  destruct (@topk_nonempty _ _ _ Htop) as [e [rest Hc]]; [lia|]. subst cands.
  (* the first candidate carries the largest base probability *)
  assert (Hv0 : (0 < snd e)%R).
  { apply In_nth_error in Hz. destruct Hz as [j Hj].
    pose proof (@topk_head_max _ Rltb Rltb_asym Rltb_negtrans _ _ _ _ _ _ Htop Hj) as Hmax.
    apply Rltb_false in Hmax. lra. }
  assert (Hvals : Forall (fun v => 0 <= v)%R (candidate_values st)).
  { rewrite Hval. apply Forall_forall. intros v Hv.
    rewrite Forall_forall in Hnn. apply Hnn. exact (@topk_values_In _ _ _ Htop v Hv). }
  pose proof (@score_candidates_length _ _ _ _ Hsc) as Hls.
  rewrite Hidx in Hls. simpl in Hls.
  destruct (fudge_scores st) as [|s0 scores] eqn:Escores; [discriminate|].
  assert (Hfpos : Forall (fun v => 0 < v)%R (fudge_distribution st)).
  { rewrite Hfd. apply Forall_forall. intros v Hv.
    exact (@softmax_all_finite_pos _ _ _ Hv). }
  assert (Hcsnn : Forall (fun v => 0 <= v)%R (combined_scores st)).
  { rewrite Hcs.
    apply Forall_map2 with (P := fun v => (0 <= v)%R) (Q := fun v => (0 < v)%R);
      [|exact Hvals | exact Hfpos].
    intros a b Ha Hb. apply fuse_nonneg; [exact Hlam | exact Ha | lra]. }
  assert (Hzeros : Forall (fun v => 0 <= v)%R (zeros_like (base_distribution st))).
  { unfold zeros_like. apply Forall_forall. intros v Hv.
    apply repeat_spec in Hv. lra. }
  assert (Hcdnn : Forall (fun v => 0 <= v)%R (combined_distribution st)).
  { rewrite Hcd. apply Forall_scatter; assumption. }
  assert (Hlcd : length (combined_distribution st) = length (base_distribution st)).
  { rewrite Hcd, length_scatter. apply length_zeros_like. }
  assert (Hc0 : (0 < nth (fst e) (combined_distribution st) 0)%R).
  { destruct (fudge_distribution st) as [|f0 fd] eqn:Efd.
    { apply (f_equal (@length R)) in Hfd. rewrite length_softmax in Hfd.
      simpl in Hfd. discriminate. }
    assert (Hf0 : (0 < f0)%R) by (inversion Hfpos; assumption).
    rewrite Hcd, Hidx, Hcs, Hval.
    simpl.
    rewrite nth_scatter_notin.
    - rewrite nth_update_eq.
      + apply fuse_pos; assumption.
      + rewrite length_zeros_like. apply nth_error_Some.
        rewrite (topk_In _ _ _ (fst e) (snd e) Htop); [discriminate|].
        left. now destruct e.
    - pose proof (topk_NoDup _ _ _ Htop) as Hnd. simpl in Hnd.
      inversion Hnd. assumption. }
  assert (Hgoal : forall w : list R,
            Forall (fun v => 0 <= v)%R w -> forall i, (0 < nth i w 0)%R ->
            Forall (fun v => 0 <= v)%R w /\ (0 < Rsum w)%R).
  { intros w Hw i Hi. split; [exact Hw|].
    apply Rsum_pos with (v := nth i w 0%R); [exact Hw | | exact Hi].
    apply nth_In. destruct (Nat.lt_ge_cases i (length w)) as [H|H]; [exact H|].
    rewrite nth_overflow in Hi by exact H. lra. }
  destruct (base_top_k cfg) as [k|] eqn:Ek.
  - destruct Hre as [top [Htop' Hre]]. specialize (Hbk k eq_refl).
    destruct (@topk_nonempty _ _ _ Htop') as [e' [rest' Ht']]; [lia|]. subst top.
    apply (Hgoal _) with (i := fst e').
    + rewrite Hre. apply Forall_scatter; [exact Hzeros|].
      apply Forall_forall. intros v Hv. rewrite Forall_forall in Hcdnn.
      apply Hcdnn. exact (@topk_values_In _ _ _ Htop' v Hv).
    + rewrite Hre, (@scatter_topk_head _ _ _ _ _ Htop')
        by (rewrite length_zeros_like; congruence).
      assert (Hnth : nth_error (combined_distribution st) (fst e)
                     = Some (nth (fst e) (combined_distribution st) 0%R)).
      { apply nth_error_nth'.
        destruct (Nat.lt_ge_cases (fst e) (length (combined_distribution st))) as [H|H];
          [exact H|].
        rewrite nth_overflow in Hc0 by exact H. lra. }
      pose proof (@topk_head_max _ Rltb Rltb_asym Rltb_negtrans _ _ _ _ _ _ Htop' Hnth)
        as Hmax.
      apply Rltb_false in Hmax. lra.
  - rewrite Hre. apply (Hgoal _ Hcdnn (fst e) Hc0).
Qed.

(** * Construction *)

Lemma dict_get_None (d : list (string * Z)) (key : string) :
  dict_get d key = None <-> ~ In key (dict_keys d).
Proof.
  induction d as [|[k v] d IH]; simpl; [tauto|].
  destruct (String.eqb_spec key k) as [E|E].
  - split; [discriminate|]. intros H. exfalso. apply H. left. now symmetry.
  - rewrite IH. split; [|tauto]. intros H [H'|H']; [congruence | contradiction].
Qed.

Lemma dict_get_Some (d : list (string * Z)) (key : string) (v : Z) :
  dict_get d key = Some v -> In (key, v) d.
Proof.
  induction d as [|[k v'] d IH]; simpl; [discriminate|].
  destruct (String.eqb_spec key k) as [E|E].
  - intros H. inversion H. subst. now left.
  - intros H. right. now apply IH.
Qed.

Lemma string_app_assoc (a b c : string) : ((a ++ b) ++ c = a ++ b ++ c)%string.
Proof. induction a as [|ch a IH]; simpl; [reflexivity|]. now rewrite IH. Qed.

Lemma mentions_app_r (pre msg s : string) :
  mentions msg s -> mentions (pre ++ msg) s.
Proof.
  intros [p [q ->]]. exists (pre ++ p)%string, q. now rewrite string_app_assoc.
Qed.

Lemma mentions_app_l (msg post s : string) :
  mentions msg s -> mentions (msg ++ post) s.
Proof.
  intros [p [q ->]]. exists p, (q ++ post)%string.
  now rewrite !string_app_assoc.
Qed.

Lemma mentions_refl (s : string) : mentions s s.
Proof. exists ""%string, ""%string. simpl. induction s; simpl; congruence. Qed.

Lemma mentions_concat (sep : string) (l : list string) (s : string) :
  In s l -> mentions (String.concat sep l) s.
Proof.
  induction l as [|x l IH]; [contradiction|].
  intros [->|H].
  - destruct l as [|y l]; simpl; [apply mentions_refl|].
    apply mentions_app_l, mentions_refl.
  - destruct l as [|y l]; [contradiction|].
    change (mentions (x ++ sep ++ String.concat sep (y :: l)) s).
    apply mentions_app_r, mentions_app_r, IH, H.
Qed.

Lemma repr_char_plain (c : ascii) :
  is_printable c && negb (Ascii.eqb c single_quote) && negb (Ascii.eqb c backslash) = true ->
  repr_char single_quote c = String c "".
Proof.
  destruct c as [[] [] [] [] [] [] [] []]; vm_compute; intros H;
    try reflexivity; discriminate.
Qed.

Lemma plain_no_single_quote (s : string) :
  plain s = true -> string_mem single_quote s = false.
Proof.
  induction s as [|c s IH]; [reflexivity|]. cbn [plain string_mem]. intros H.
  apply andb_true_iff in H. destruct H as [H Hs].
  apply andb_true_iff in H. destruct H as [H _].
  apply andb_true_iff in H. destruct H as [_ H].
  rewrite (IH Hs), orb_false_r. rewrite Ascii.eqb_sym.
  now apply negb_true_iff in H.
Qed.

Lemma repr_body_plain (s : string) :
  plain s = true -> repr_body single_quote s = s.
Proof.
  induction s as [|c s IH]; [reflexivity|]. cbn [plain repr_body]. intros H.
  apply andb_true_iff in H. destruct H as [H Hs].
  rewrite (repr_char_plain _ H), (IH Hs). reflexivity.
Qed.

(** The [repr] of a plain text is the text between single quotes. *)
Lemma repr_str_plain (s : string) :
  plain s = true -> repr_str s = ("'" ++ s ++ "'")%string.
Proof.
  intros H. unfold repr_str, repr_quote.
  rewrite (plain_no_single_quote _ H). simpl. now rewrite (repr_body_plain _ H).
Qed.

Lemma unknown_class_message_mentions (name : string) (d : list (string * Z)) :
  mentions (unknown_class_message name d) name /\
  (forall key, In key (dict_keys d) ->
     mentions (unknown_class_message name d) (repr_str key) /\
     (plain key = true -> mentions (unknown_class_message name d) key)).
Proof.
  unfold unknown_class_message. split.
  - apply mentions_app_r, mentions_app_l, mentions_refl.
  - intros key Hkey.
    assert (Hrepr : mentions (str_of_list (dict_keys d)) (repr_str key)).
    { unfold str_of_list. apply mentions_app_r, mentions_app_l.
      apply mentions_concat, in_map, Hkey. }
    split; [do 3 apply mentions_app_r; exact Hrepr|].
    intros Hplain. do 3 apply mentions_app_r.
    destruct Hrepr as [p [q Hm]]. rewrite Hm, (repr_str_plain _ Hplain).
    exists (p ++ "'")%string, ("'" ++ q)%string.
    now rewrite !string_app_assoc.
Qed.

Section DecoderFacts.
Variable StateDict : Type.
Variable AutoregressiveFudgeClassifier :
  option (string -> Z -> StateDict -> outcome (list nat -> list R)).
Variable Generator : Type.
Variable draw : Generator -> list R -> nat * Generator.

(** What a successful construction has done. *)
Lemma __init___inv (model : list nat -> list (list R)) (tokenizer : Tokenizer)
    (checkpoint : Checkpoint StateDict) (target : class_spec) (self : FudgeInference) :
  __init__ AutoregressiveFudgeClassifier model tokenizer checkpoint target = Ok self ->
  exists index scorer,
    resolve_target_class (ckpt_label_mapping checkpoint) (ckpt_num_labels checkpoint)
      target = Ok index /\
    (exists classifier,
       AutoregressiveFudgeClassifier = Some classifier /\
       classifier (ckpt_base_model_name checkpoint) (ckpt_num_labels checkpoint)
         (ckpt_state_dict checkpoint) = Ok scorer) /\
    self = {| model := model;
              tokenizer := tokenizer;
              label_mapping := ckpt_label_mapping checkpoint;
              num_classes := ckpt_num_labels checkpoint;
              target_class := index;
              fudge_model := scorer |}.
Proof.
  unfold __init__. intros H.
  apply bind_Ok_inv in H. destruct H as [index [Hres H]].
  destruct AutoregressiveFudgeClassifier as [classifier|]; [|discriminate].
  apply bind_Ok_inv in H. destruct H as [scorer [Hbuilt H]].
  inversion H; subst self; clear H.
  exists index, scorer. split; [exact Hres|]. split; [|reflexivity].
  exists classifier. split; [reflexivity | exact Hbuilt].
Qed.

Lemma resolve_valid_target (mapping : list (string * Z)) (n : Z) (t : class_spec) :
  valid_target mapping n t ->
  exists index,
    resolve_target_class mapping n t = Ok index /\
    match t with
    | ClassName name => dict_get mapping name = Some index /\ In (name, index) mapping
    | ClassIndex i => index = i
    end.
Proof.
  destruct t as [name|i]; simpl; intros H.
  - destruct (dict_get mapping name) as [idx|] eqn:E;
      [|apply dict_get_None in E; contradiction].
    exists idx. split; [reflexivity|]. split; [reflexivity | now apply dict_get_Some].
  - exists i. split; [|reflexivity].
    destruct ((0 <=? i)%Z && (i <? n)%Z) eqn:E; [reflexivity|].
    apply andb_false_iff in E. destruct E as [E|E];
      [apply Z.leb_gt in E | apply Z.ltb_ge in E]; lia.
Qed.

(** C8.  Construction raises a [ValueError] for a class name that is not a
    key of the label mapping, with the message of line 42: it contains the
    given name and the [repr] of every key (the key itself, for a key of
    printable characters without single quote or backslash); and it raises a
    [ValueError] for a class index outside [0 .. num_classes - 1].  For a
    key of the mapping or an index in range the target class is resolved and
    line 50 looks up the name [AutoregressiveFudgeClassifier].  The module
    binds no such name, so construction raises a [NameError] and no decoder
    is built; were the name bound to a class whose construction returns,
    construction would return a decoder with the resolved target class. *)
Theorem construction_stops_at_unbound_classifier
    (model : list nat -> list (list R)) (tokenizer : Tokenizer)
    (checkpoint : Checkpoint StateDict) :
  let mapping := ckpt_label_mapping checkpoint in
  let n := ckpt_num_labels checkpoint in
  (forall name, ~ In name (dict_keys mapping) ->
     __init__ AutoregressiveFudgeClassifier model tokenizer checkpoint (ClassName name)
       = Raise (ValueError (unknown_class_message name mapping)) /\
     mentions (unknown_class_message name mapping) name /\
     (forall key, In key (dict_keys mapping) ->
        mentions (unknown_class_message name mapping) (repr_str key) /\
        (plain key = true -> mentions (unknown_class_message name mapping) key))) /\
  (forall index, ~ (0 <= index < n)%Z ->
     __init__ AutoregressiveFudgeClassifier model tokenizer checkpoint (ClassIndex index)
       = Raise (ValueError (out_of_range_message n))) /\
  (forall target, valid_target mapping n target ->
     __init__ None model tokenizer checkpoint target
       = Raise (NameError "name 'AutoregressiveFudgeClassifier' is not defined")) /\
  (forall target classifier scorer, valid_target mapping n target ->
     AutoregressiveFudgeClassifier = Some classifier ->
     classifier (ckpt_base_model_name checkpoint) n (ckpt_state_dict checkpoint)
       = Ok scorer ->
     exists self,
       __init__ AutoregressiveFudgeClassifier model tokenizer checkpoint target = Ok self /\
       resolve_target_class mapping n target = Ok (target_class self) /\
       fudge_model self = scorer).
Proof.
  intros mapping n. unfold __init__. fold mapping. fold n.
  split; [|split; [|split]].
  - intros name Hname. apply dict_get_None in Hname.
    split; [simpl; now rewrite Hname|]. apply unknown_class_message_mentions.
  - intros index Hidx. simpl.
    destruct ((0 <=? index)%Z && (index <? n)%Z) eqn:E; [|reflexivity].
    apply andb_true_iff in E. destruct E as [E1 E2].
    apply Z.leb_le in E1. apply Z.ltb_lt in E2. lia.
  - intros target Hvalid.
    destruct (resolve_valid_target _ _ _ Hvalid) as [index [Hres _]].
    rewrite Hres. reflexivity.
  - intros target classifier scorer Hvalid Hbound Hbuilt.
    destruct (resolve_valid_target _ _ _ Hvalid) as [index [Hres _]].
    rewrite Hres, bind_Ok, Hbound, Hbuilt, bind_Ok.
    eexists. split; [reflexivity|]. split; reflexivity.
Qed.

(** * Sampling and the generation loop *)

Lemma multinomial_all_zero (g : Generator) (weights : list R) :
  Forall (fun w => w = 0%R) weights ->
  multinomial draw g weights
  = Raise (RuntimeError "invalid multinomial distribution (sum of probabilities <= 0)").
Proof.
  intros H. unfold multinomial.
  assert (E : existsb (fun w => Rltb w 0) weights = false).
  { induction H as [|w ws Hw _ IH]; simpl; [reflexivity|].
    rewrite IH, Hw, Rltb_irrefl. reflexivity. }
  rewrite E. destruct (Req_dec_T (Rsum weights) 0) as [_|F]; [reflexivity|].
  exfalso. apply F, Rsum_zero, H.
Qed.

Lemma multinomial_valid (g : Generator) (weights : list R) :
  Forall (fun w => 0 <= w)%R weights -> (0 < Rsum weights)%R ->
  multinomial draw g weights = Ok (draw g weights).
Proof.
  intros Hnn Hpos. unfold multinomial.
  assert (E : existsb (fun w => Rltb w 0) weights = false).
  { clear Hpos. induction Hnn as [|w ws Hw _ IH]; simpl; [reflexivity|].
    rewrite IH. apply orb_false_iff. split; [|reflexivity]. apply Rltb_false, Hw. }
  rewrite E. destruct (Req_dec_T (Rsum weights) 0) as [F|_]; [lra | reflexivity].
Qed.

(** The concatenation of line 172 raises whatever token was drawn. *)
Lemma cat_row_drawn_token (gen : list nat) (tok : nat) :
  cat_row gen (Vector [tok])
  = Raise (RuntimeError "Tensors must have same number of dimensions: got 2 and 1").
Proof. reflexivity. Qed.

(** An iteration of the loop never completes. *)
Lemma generation_loop_never_returns (self : FudgeInference) (cfg : GenerationConfig)
    (n : nat) (gen : list nat) (g : Generator) (result : list nat * Generator) :
  generation_loop draw self cfg (S n) gen g <> Ok result.
Proof.
  simpl. intros H.
  apply bind_Ok_inv in H. destruct H as [st [_ H]].
  apply bind_Ok_inv in H. destruct H as [[tok g1] [_ H]].
  discriminate.
Qed.

(** With well-formed models and parameters in their documented ranges the
    first iteration reaches line 172. *)
Lemma generation_loop_first_append (self : FudgeInference) (cfg : GenerationConfig)
    (n : nat) (gen : list nat) (g : Generator) :
  well_formed_models self -> valid_config cfg -> gen <> [] ->
  generation_loop draw self cfg (S n) gen g
  = Raise (RuntimeError "Tensors must have same number of dimensions: got 2 and 1").
Proof.
  intros [Hmodel Hscorer] [Ht [Hft [Hlam [Hk Hbk]]]] Hgen. simpl.
  destruct (Hmodel gen Hgen) as [row [Hrow Hne]].
  destruct (@decoding_step_succeeds self cfg gen row) as [st Hst]; try assumption;
    try lra; try lia.
  { intros k Hk'. specialize (Hbk k Hk'). lia. }
  destruct (@sampling_weights_valid self cfg gen row st) as [Hnn Hpos];
    try assumption; try lra.
  rewrite Hst, bind_Ok, (multinomial_valid g Hnn Hpos), bind_Ok.
  destruct (draw g (retruncated_distribution st)) as [tok g1]. reflexivity.
Qed.

(** C6.  For a positive [max_length], [generate_with_fudge] returns no text
    at all: whatever the decoder, the arguments and the state of the
    generator, the call does not return.  With well-formed models, a
    non-empty encoded prompt and parameters in their documented ranges the
    first iteration samples a token and then raises a [RuntimeError] at line
    172, where [torch.cat] is given [generated_tokens], of two dimensions,
    and the sampled token, of one; nothing is appended and the test for the
    end-of-sequence id at line 174 is not reached.  The concatenation of
    lines 141-144, which gives the token two dimensions first, returns the
    sequence extended by the token. *)
Theorem generation_raises_at_first_append (self : FudgeInference)
    (cfg : GenerationConfig) (prompt : string) (g : Generator) :
  (1 <= max_length cfg)%Z ->
  (forall result, generate_with_fudge draw self cfg prompt g <> Ok result) /\
  (well_formed_models self -> valid_config cfg ->
   encode (tokenizer self) prompt <> [] ->
   generate_with_fudge draw self cfg prompt g
   = Raise (RuntimeError "Tensors must have same number of dimensions: got 2 and 1")) /\
  (forall token_id,
     cat_row (encode (tokenizer self) prompt) (Row [token_id])
     = Ok (encode (tokenizer self) prompt ++ [token_id])).
Proof.
  intros Hmax.
  destruct (Z.to_nat (max_length cfg)) as [|n] eqn:En; [lia|].
  unfold generate_with_fudge, generate_tokens. rewrite En.
  split; [|split].
  - intros result H. apply bind_Ok_inv in H. destruct H as [[toks g1] [H _]].
    exact (generation_loop_never_returns _ _ _ _ _ H).
  - intros Hwf Hcfg Hprompt.
    rewrite (generation_loop_first_append n g Hwf Hcfg Hprompt). reflexivity.
  - reflexivity.
Qed.

(** C9.  When the combined vector of a decoding step is all zero after the
    re-truncation, the draw raises a [RuntimeError] and the exception leaves
    the generation loop: no token is returned. *)
Theorem all_zero_weights_make_sampling_raise (self : FudgeInference)
    (cfg : GenerationConfig) (gen : list nat) (g : Generator) (n : nat)
    (st : step_tensors) :
  decoding_step self cfg gen = Ok st ->
  Forall (fun w => w = 0%R) (retruncated_distribution st) ->
  exists msg,
    multinomial draw g (retruncated_distribution st) = Raise (RuntimeError msg) /\
    generation_loop draw self cfg (S n) gen g = Raise (RuntimeError msg).
Proof.
  intros Hst Hzero. eexists. split; [apply multinomial_all_zero, Hzero|].
  simpl. rewrite Hst, bind_Ok, (multinomial_all_zero g Hzero). reflexivity.
Qed.

(** The decoding step reads the two models of the instance and nothing else. *)
Lemma decoding_step_models (self1 self2 : FudgeInference) (cfg : GenerationConfig)
    (gen : list nat) :
  model self1 = model self2 -> fudge_model self1 = fudge_model self2 ->
  decoding_step self1 cfg gen = decoding_step self2 cfg gen.
Proof. intros Hm Hf. unfold decoding_step. now rewrite Hm, Hf. Qed.

Lemma generation_loop_models (self1 self2 : FudgeInference) (cfg : GenerationConfig)
    (n : nat) (gen : list nat) (g : Generator) :
  model self1 = model self2 -> fudge_model self1 = fudge_model self2 ->
  tokenizer self1 = tokenizer self2 ->
  generation_loop draw self1 cfg n gen g = generation_loop draw self2 cfg n gen g.
Proof.
  intros Hm Hf Ht. destruct n as [|n]; cbn [generation_loop]; [reflexivity|].
  rewrite (decoding_step_models self1 self2 cfg gen Hm Hf), Ht.
  destruct (decoding_step self2 cfg gen) as [st| |]; cbn [bind]; [|reflexivity..].
  destruct (multinomial draw g (retruncated_distribution st)) as [[tok g1]| |];
    reflexivity.
Qed.

(** C10.  Two decoders built from the same models and checkpoint that differ
    only in the target class they were given, each a valid name or an index
    in range, return the same text (and leave the random generator in the
    same state) for every prompt, configuration and generator state: the
    auxiliary score is read from output channel 1 and [target_class] is not
    consulted. *)
Theorem generation_ignores_target_class
    (model : list nat -> list (list R)) (tokenizer : Tokenizer)
    (checkpoint : Checkpoint StateDict) (target1 target2 : class_spec)
    (self1 self2 : FudgeInference)
    (cfg : GenerationConfig) (prompt : string) (g : Generator) :
  __init__ AutoregressiveFudgeClassifier model tokenizer checkpoint target1 = Ok self1 ->
  __init__ AutoregressiveFudgeClassifier model tokenizer checkpoint target2 = Ok self2 ->
  generate_with_fudge draw self1 cfg prompt g
  = generate_with_fudge draw self2 cfg prompt g.
Proof.
  intros H1 H2.
  destruct (@__init___inv _ _ _ _ _ H1) as [c1 [scorer1 [_ [[cl1 [Hb1 Hs1]] ->]]]].
  destruct (@__init___inv _ _ _ _ _ H2) as [c2 [scorer2 [_ [[cl2 [Hb2 Hs2]] ->]]]].
  assert (scorer2 = scorer1) by congruence. subst scorer2.
  unfold generate_with_fudge, generate_tokens. simpl.
  rewrite (generation_loop_models
             {| model := model; tokenizer := tokenizer;
                label_mapping := ckpt_label_mapping checkpoint;
                num_classes := ckpt_num_labels checkpoint;
                target_class := c1;
                fudge_model := scorer1 |}
             {| model := model; tokenizer := tokenizer;
                label_mapping := ckpt_label_mapping checkpoint;
                num_classes := ckpt_num_labels checkpoint;
                target_class := c2;
                fudge_model := scorer1 |}
             cfg (Z.to_nat (max_length cfg)) (encode tokenizer prompt) g
             eq_refl eq_refl eq_refl).
  reflexivity.
Qed.
End DecoderFacts.

(** * The filters of the Distribution Builder, as the code has them *)

(** C2, as the code has it.  For [1 <= k <= vocabulary size] the top-k
    filter leaves non-zero probability exactly at the positions whose score
    is at least the [k]-th largest score [kth] (a score with fewer than [k]
    scores above it and at least [k] scores not below it).  So at least [k]
    positions survive, every position that ties with the [k]-th largest
    score among them, and exactly [k] when the scores are pairwise
    distinct. *)
Theorem top_k_filter_keeps_scores_from_kth_largest
    (model : list nat -> list (list R)) (ids : list nat) (t : R) (k : Z) (row : list R) :
  index_last (model ids) = Ok row -> t <> 0%R ->
  (1 <= k <= Z.of_nat (length row))%Z ->
  let scores := map (fun x => (x / t)%R) row in
  exists d kth,
    get_next_token_distribution model ids t (Some k) None = Ok d /\
    length d = length row /\
    In kth scores /\
    (length (filter (fun s => Rltb kth s) scores) < Z.to_nat k)%nat /\
    (Z.to_nat k <= length (filter (fun s => negb (Rltb s kth)) scores))%nat /\
    (forall i, (i < length row)%nat ->
       nth i d 0%R <> 0%R <-> (kth <= nth i scores 0)%R) /\
    (Z.to_nat k <= length (support d))%nat /\
    (NoDup scores -> length (support d) = Z.to_nat k).
Proof.
  intros Hrow Ht Hk scores.
  destruct (@get_next_token_distribution_top_k model ids t k row Hrow Ht Hk)
    as [d [kth [Hd [Hl [Hin [Hgt [Hge [Hz [Hs Hex]]]]]]]]].
  exists d, kth. fold scores in Hin, Hgt, Hge, Hz, Hs, Hex.
  repeat (split; [assumption|]). split; [|exact Hex].
  rewrite Hs. exact Hge.
Qed.

(** C3, as the code has it.  With [top_p] set (and no top-k), take the
    scaled logits in descending order, equal scores in whatever order the
    sort returns them.  The position of rank [j] is removed exactly when
    [j >= 1] and the probabilities of the [j] positions sorted before it,
    its own excluded, sum to more than [top_p].  The position of rank 0, a
    highest-probability one, is always retained, so the support of the
    result is non-empty.  This holds for every descending order, and the
    method returns the result for one of them. *)
Theorem nucleus_filter_removes_after_mass_exceeds_p
    (model : list nat -> list (list R)) (ids : list nat) (t p : R) (row : list R) :
  index_last (model ids) = Ok row -> t <> 0%R -> row <> [] ->
  let logits := map (fun x => Fin (x / t)%R) row in
  (forall sorted, descending_order xltb logits sorted ->
     let probs := softmax (map snd sorted) in
     exists d,
       nucleus_distribution sorted p logits = Ok d /\
       length d = length row /\
       (forall j, (j < length row)%nat ->
          nth (nth j (map fst sorted) 0%nat) d 0%R = 0%R
          <-> (1 <= j)%nat /\ (p < Rsum (firstn j probs))%R) /\
       (forall i, (i < length row)%nat ->
          (nth i row 0 / t <= nth (nth 0 (map fst sorted) 0%nat) row 0 / t)%R) /\
       nth (nth 0 (map fst sorted) 0%nat) d 0%R <> 0%R /\
       support d <> []) /\
  (exists sorted,
     descending_order xltb logits sorted /\
     get_next_token_distribution model ids t None (Some p)
     = nucleus_distribution sorted p logits).
Proof.
  intros Hrow Ht Hne logits. split.
  - intros sorted Hdesc probs.
    destruct (@descending_head_max t row sorted Hne Hdesc) as [_ Hmax].
    destruct Hdesc as [Hperm _].
    destruct (@nucleus_distribution_spec t p row sorted Hne Hperm)
      as [out [_ [Hd [Hl [_ Hrem]]]]].
    fold logits in Hd. fold probs in Hrem.
    assert (H0 : (0 < length row)%nat) by (destruct row; [congruence | simpl; lia]).
    assert (Htop : nth (nth 0 (map fst sorted) 0%nat) (softmax out) 0%R <> 0%R).
    { intros E. apply (Hrem 0%nat H0) in E. lia. }
    exists (softmax out). repeat (split; [assumption|]).
    intros E. apply support_In in Htop. rewrite E in Htop. contradiction.
  - exact (@get_next_token_distribution_nucleus_run model ids t p row Hrow Ht).
Qed.

(** * Runs on the two-token instance *)

Lemma toy_model_last_row (ids : list nat) :
  ids <> [] -> index_last (toy_model ids) = Ok [1%R; 0%R].
Proof.
  destruct ids as [|a ids] using rev_ind; [congruence|]. intros _.
  unfold toy_model. rewrite map_app. simpl. apply index_last_app.
Qed.

Lemma toy_models_well_formed (target : Z) : well_formed_models (toy_self target).
Proof.
  split.
  - intros s Hs. exists [1%R; 0%R]. split; [apply toy_model_last_row, Hs | discriminate].
  - intros s. simpl. lia.
Qed.

Lemma default_config_valid : valid_config default_config.
Proof.
  unfold valid_config. simpl. repeat split; try lra; try lia.
  intros k H. inversion H. lia.
Qed.

Lemma toy_step (target : Z) :
  exists st, decoding_step (toy_self target) default_config [0%nat] = Ok st.
Proof.
  apply (@decoding_step_succeeds (toy_self target) default_config [0%nat] [1%R; 0%R]).
  - reflexivity.
  - discriminate.
  - simpl. lra.
  - simpl. lra.
  - simpl. lia.
  - simpl. intros k H. inversion H. lia.
  - intros s. simpl. lia.
Qed.

(** With no candidate the combined vector is all zero. *)
Lemma no_candidates_zero_weights (self : FudgeInference) (cfg : GenerationConfig)
    (gen : list nat) (st : step_tensors) :
  decoding_step self cfg gen = Ok st -> fudge_top_k cfg = 0%Z ->
  Forall (fun w => w = 0%R) (retruncated_distribution st).
Proof.
  intros Hst Hk.
  destruct (decoding_step_inv _ _ _ Hst)
    as [cands [_ [Htop [Hval [Hidx [_ [_ [Hcs [Hcd Hre]]]]]]]]].
  apply topk_length in Htop. rewrite Hk in Htop.
  assert (cands = []) by (destruct cands; [reflexivity | simpl in Htop; lia]).
  subst cands. simpl in Hval, Hidx. rewrite Hval in Hcs. simpl in Hcs.
  rewrite Hidx, Hcs in Hcd. simpl in Hcd.
  assert (Hz : Forall (fun w => w = 0%R) (zeros_like (base_distribution st))).
  { unfold zeros_like. apply Forall_forall. intros v Hv. now apply repeat_spec in Hv. }
  destruct (base_top_k cfg) as [k|].
  - destruct Hre as [top [Htop' ->]]. apply Forall_scatter; [exact Hz|].
    apply Forall_forall. intros v Hv.
    apply (@topk_values_In _ _ _ Htop') in Hv. rewrite Hcd in Hv.
    rewrite Forall_forall in Hz. now apply Hz.
  - rewrite Hre, Hcd. exact Hz.
Qed.

Lemma toy_sorted :
  sort_desc xltb (map (fun x => Fin (x / 1)%R) [1%R; 0%R])
  = [(0%nat, Fin (1 / 1)%R); (1%nat, Fin (0 / 1)%R)].
Proof.
  unfold sort_desc, enumerate. simpl. unfold Rltb.
  destruct (Rlt_dec (1 / 1) (0 / 1)); [lra | reflexivity].
Qed.

Lemma exp_1_div_1 : exp (1 / 1) = exp 1.
Proof. f_equal. lra. Qed.

Lemma exp_0_div_1 : exp (0 / 1) = 1%R.
Proof. replace (0 / 1)%R with 0%R by lra. apply exp_0. Qed.

(** Witness of C1. *)
Lemma fused_score_is_convex_combination_witness :
  exists st,
    decoding_step (toy_self 1) default_config [0%nat] = Ok st /\
    length (combined_scores st) = length (candidate_indices st).
Proof.
  destruct (toy_step 1) as [st Hst]. exists st. split; [exact Hst|].
  exact (proj1 (proj2 (proj2
           (@fused_score_is_convex_combination (toy_self 1) default_config [0%nat] st Hst)))).
Defined.

(** Witness of C4. *)
Lemma candidate_set_is_top_of_base_witness :
  exists st,
    decoding_step (toy_self 1) default_config [0%nat] = Ok st /\
    NoDup (candidate_indices st).
Proof.
  destruct (toy_step 1) as [st Hst]. exists st. split; [exact Hst|].
  exact (proj1 (proj2 (proj2
           (@candidate_set_is_top_of_base (toy_self 1) default_config [0%nat] st Hst)))).
Defined.

(** Witness of C5. *)
Lemma combined_mass_stays_on_candidates_witness :
  exists st,
    decoding_step (toy_self 1) default_config [0%nat] = Ok st /\
    incl (support (retruncated_distribution st)) (candidate_indices st).
Proof.
  destruct (toy_step 1) as [st Hst]. exists st. split; [exact Hst|].
  exact (proj1 (proj2
           (@combined_mass_stays_on_candidates (toy_self 1) default_config [0%nat] st Hst))).
Defined.

(** Witness of C2: with distinct scores exactly one position survives [top_k = 1]. *)
Lemma top_k_filter_keeps_scores_from_kth_largest_witness :
  exists d,
    get_next_token_distribution toy_model [0%nat] 1 (Some 1%Z) None = Ok d /\
    length (support d) = 1%nat.
Proof.
  destruct (@top_k_filter_keeps_scores_from_kth_largest toy_model [0%nat] 1%R 1%Z
              [1%R; 0%R])
    as [d [kth [Hd [_ [_ [_ [_ [_ [_ Hex]]]]]]]]].
  - reflexivity.
  - lra.
  - simpl. lia.
  - exists d. split; [exact Hd|]. apply Hex. simpl.
    constructor; [|constructor; [intros []|constructor]].
    intros [H|[]]. lra.
Defined.

(** Counterexample to C2 as stated: two tied scores both survive [top_k = 1]. *)
Lemma top_k_filter_keeps_ties_counterexample :
  exists d,
    get_next_token_distribution tie_model [0%nat] 1 (Some 1%Z) None = Ok d /\
    length (support d) = 2%nat /\
    length (support d) <> Nat.min 1 (length [1%R; 1%R]).
Proof.
  destruct (@get_next_token_distribution_top_k tie_model [0%nat] 1%R 1%Z [1%R; 1%R])
    as [d [kth [Hd [_ [Hin [_ [_ [_ [Hs _]]]]]]]]].
  - reflexivity.
  - lra.
  - simpl. lia.
  - exists d. split; [exact Hd|].
    assert (E : length (support d) = 2%nat).
    { rewrite Hs. simpl in Hin. simpl.
      assert (Hk : kth = (1 / 1)%R) by (destruct Hin as [H|[H|[]]]; now symmetry).
      rewrite Hk, Rltb_irrefl. reflexivity. }
    split; [exact E|]. rewrite E. simpl. lia.
Qed.

(** Witness of C3. *)
Lemma nucleus_filter_removes_after_mass_exceeds_p_witness :
  exists sorted d,
    descending_order xltb (map (fun x => Fin (x / 1)%R) [1%R; 0%R]) sorted /\
    get_next_token_distribution toy_model [0%nat] 1 None (Some (4 / 5)%R)
    = nucleus_distribution sorted (4 / 5) (map (fun x => Fin (x / 1)%R) [1%R; 0%R]) /\
    nucleus_distribution sorted (4 / 5) (map (fun x => Fin (x / 1)%R) [1%R; 0%R])
    = Ok d /\
    support d <> [].
Proof.
  destruct (@nucleus_filter_removes_after_mass_exceeds_p toy_model [0%nat] 1%R (4 / 5)%R
              [1%R; 0%R])
    as [Hall [sorted [Hdesc Hrun]]].
  - reflexivity.
  - lra.
  - discriminate.
  - destruct (Hall sorted Hdesc) as [d [Hd [_ [_ [_ [_ Hs]]]]]].
    exists sorted, d. repeat (split; [assumption|]). exact Hs.
Defined.

(** Counterexample to C3 as stated: token 1 is second in descending order
    and its cumulative probability, its own included, exceeds [p = 4/5], yet
    the filter keeps it. *)
Lemma nucleus_filter_keeps_first_crossing_counterexample :
  exists d,
    get_next_token_distribution toy_model [0%nat] 1 None (Some (4 / 5)%R) = Ok d /\
    map fst (sort_desc xltb (map (fun x => Fin (x / 1)%R) [1%R; 0%R]))
      = [0%nat; 1%nat] /\
    (4 / 5 < nth 1 (cumsum (softmax (map snd
                 (sort_desc xltb (map (fun x => Fin (x / 1)%R) [1%R; 0%R]))))) 0)%R /\
    nth 1 d 0%R <> 0%R.
Proof.
  set (sorted := sort_desc xltb (map (fun x => Fin (x / 1)%R) [1%R; 0%R])).
  destruct (@get_next_token_distribution_top_p toy_model [0%nat] 1%R (4 / 5)%R
              [1%R; 0%R])
    as [d [Hd [_ [Hrem _]]]].
  - reflexivity.
  - lra.
  - discriminate.
  - fold sorted in Hrem.
    assert (Hsorted : sorted = [(0%nat, Fin (1 / 1)%R); (1%nat, Fin (0 / 1)%R)])
      by apply toy_sorted.
    pose proof exp_le_3 as He. pose proof (exp_pos 1) as Hp.
    exists d. split; [exact Hd|]. rewrite Hsorted in *. simpl in *.
    rewrite exp_1_div_1, exp_0_div_1 in *.
    split; [reflexivity|]. split.
    + unfold cumsum. simpl.
      replace (0 + exp 1 / (exp 1 + (1 + 0)) + 1 / (exp 1 + (1 + 0)))%R with 1%R
        by (field; lra).
      lra.
    + intros E. apply (Hrem 1%nat) in E; [|lia]. destruct E as [_ E].
      unfold softmax in E. simpl in E. rewrite exp_1_div_1, exp_0_div_1 in E.
      assert (Hinv : (/ 4 <= / (exp 1 + (1 + 0)))%R)
        by (apply Rinv_le_contravar; lra).
      replace (exp 1 / (exp 1 + (1 + 0)) + 0)%R
        with (1 - / (exp 1 + (1 + 0)))%R in E by (field; lra).
      lra.
Qed.

(** Counterexample to C7 as stated: a negative temperature is accepted. *)
Lemma negative_temperature_is_accepted_counterexample :
  (-1 <= 0)%R /\
  get_next_token_distribution toy_model [0%nat] (-1) None None
  = Ok (softmax [Fin (1 / -1)%R; Fin (0 / -1)%R]) /\
  ~ raises (get_next_token_distribution toy_model [0%nat] (-1) None None).
Proof.
  assert (E : get_next_token_distribution toy_model [0%nat] (-1) None None
              = Ok (softmax [Fin (1 / -1)%R; Fin (0 / -1)%R])).
  { unfold get_next_token_distribution.
    change (index_last (toy_model [0%nat])) with (Ok [1%R; 0%R]).
    rewrite bind_Ok, scale_nonzero by lra. reflexivity. }
  split; [lra|]. split; [exact E|]. rewrite E. apply raises_Ok.
Qed.

(** Witness of C7. *)
Lemma get_next_token_distribution_never_checks_temperature_witness :
  raises (get_next_token_distribution toy_model [] 1 None None) /\
  ~ raises (get_next_token_distribution toy_model [0%nat] (-1) None None).
Proof.
  split.
  - apply (@get_next_token_distribution_never_checks_temperature
             toy_model [] 1%R None None); reflexivity.
  - destruct (@get_next_token_distribution_never_checks_temperature
                toy_model [0%nat] (-1)%R None None eq_refl) as [_ H].
    destruct H as [row [Hrow H]]; [discriminate|].
    inversion Hrow; subst row. apply H; [discriminate | exact I].
Defined.

(** Witness of C6: the default arguments on the two-token instance. *)
Lemma generation_raises_at_first_append_witness :
  generate_with_fudge toy_draw (toy_self 1) default_config "The weather today is" 0%nat
  = Raise (RuntimeError "Tensors must have same number of dimensions: got 2 and 1").
Proof.
  assert (Hmax : (1 <= max_length default_config)%Z) by (simpl; lia).
  destruct (@generation_raises_at_first_append nat toy_draw (toy_self 1)
              default_config "The weather today is" 0%nat Hmax) as [_ [Hraise _]].
  apply Hraise.
  - apply toy_models_well_formed.
  - apply default_config_valid.
  - discriminate.
Defined.

(** Witness of C8: the label mapping [{"positive": 1, "negative": 0}], in
    the module as it stands and with a class bound to the name. *)
Lemma construction_stops_at_unbound_classifier_witness :
  __init__ None toy_model toy_tokenizer toy_checkpoint (ClassName "neutral")
    = Raise (ValueError
        "Unknown class name: neutral. Available classes: ['positive', 'negative']") /\
  __init__ None toy_model toy_tokenizer toy_checkpoint (ClassIndex 2)
    = Raise (ValueError "target_class must be between 0 and 1") /\
  __init__ None toy_model toy_tokenizer toy_checkpoint (ClassName "positive")
    = Raise (NameError "name 'AutoregressiveFudgeClassifier' is not defined") /\
  (exists self,
     __init__ toy_classifier toy_model toy_tokenizer toy_checkpoint (ClassName "positive")
       = Ok self /\ target_class self = 1%Z).
Proof.
  destruct (@construction_stops_at_unbound_classifier unit None
              toy_model toy_tokenizer toy_checkpoint) as [Hname [Hindex [Hunbound _]]].
  destruct (@construction_stops_at_unbound_classifier unit toy_classifier
              toy_model toy_tokenizer toy_checkpoint) as [_ [_ [_ Hbound]]].
  split; [|split; [|split]].
  - apply Hname. simpl. intros [H|[H|[]]]; discriminate.
  - apply Hindex. simpl. lia.
  - apply (Hunbound (ClassName "positive")). simpl. now left.
  - destruct (Hbound (ClassName "positive") (fun _ _ _ => Ok toy_scorer) toy_scorer)
      as [self [Hself [Hres _]]].
    + simpl. now left.
    + reflexivity.
    + reflexivity.
    + exists self. split; [exact Hself|]. simpl in Hres. congruence.
Defined.

(** Witness of C9: an empty candidate pool leaves nothing to sample. *)
Lemma all_zero_weights_make_sampling_raise_witness :
  exists msg,
    generation_loop toy_draw (toy_self 1) no_candidates_config 1 [0%nat] 0%nat
    = Raise (RuntimeError msg).
Proof.
  destruct (@decoding_step_succeeds (toy_self 1) no_candidates_config [0%nat] [1%R; 0%R])
    as [st Hst].
  - reflexivity.
  - discriminate.
  - simpl. lra.
  - simpl. lra.
  - simpl. lia.
  - simpl. intros k H. inversion H. lia.
  - intros s. simpl. lia.
  - destruct (@all_zero_weights_make_sampling_raise nat toy_draw (toy_self 1)
                no_candidates_config [0%nat] 0%nat 0%nat st Hst) as [msg [_ Hloop]].
    + apply (@no_candidates_zero_weights _ _ _ _ Hst). reflexivity.
    + exists msg. exact Hloop.
Defined.

(** Witness of C10: the same instance resolved to "positive" and to "negative". *)
Lemma generation_ignores_target_class_witness :
  generate_with_fudge toy_draw (toy_self 1) default_config "The weather today is" 0%nat
  = generate_with_fudge toy_draw (toy_self 0) default_config "The weather today is" 0%nat.
Proof.
  apply (@generation_ignores_target_class unit toy_classifier nat toy_draw
           toy_model toy_tokenizer toy_checkpoint
           (ClassName "positive") (ClassIndex 0)); reflexivity.
Defined.

(** * Introspection of the resolved target class *)

Lemma int_dict_get_set_eq (d : list (Z * string)) (key : Z) (v : string) :
  int_dict_get (int_dict_set d key v) key = Some v.
Proof.
  induction d as [|[k v'] d IH]; simpl.
  - now rewrite Z.eqb_refl.
  - destruct (Z.eqb key k) eqn:E; simpl; rewrite E; [reflexivity | exact IH].
Qed.

Lemma int_dict_get_set_neq (d : list (Z * string)) (key key' : Z) (v : string) :
  key' <> key -> int_dict_get (int_dict_set d key v) key' = int_dict_get d key'.
Proof.
  intros Hne. induction d as [|[k v'] d IH]; simpl.
  - destruct (Z.eqb key' key) eqn:E; [apply Z.eqb_eq in E; contradiction | reflexivity].
  - destruct (Z.eqb key k) eqn:E; simpl.
    + apply Z.eqb_eq in E. subst k.
      destruct (Z.eqb key' key) eqn:E'; [apply Z.eqb_eq in E'; contradiction | reflexivity].
    + destruct (Z.eqb key' k); [reflexivity | exact IH].
Qed.

(** Inverting a mapping leaves indices that no name has without an entry. *)
Lemma inverted_get_absent (items : list (string * Z)) (d : list (Z * string)) (i : Z) :
  ~ In i (map snd items) ->
  int_dict_get (fold_left (fun d kv => int_dict_set d (snd kv) (fst kv)) items d) i
  = int_dict_get d i.
Proof.
  revert d. induction items as [|[k v] items IH]; intros d Hi; simpl; [reflexivity|].
  rewrite IH by (intros H; apply Hi; now right).
  apply int_dict_get_set_neq. intros ->. apply Hi. now left.
Qed.

(** Whatever name the inverted mapping gives an index, the mapping lists
    that name with that index. *)
Lemma inverted_get_sound (items : list (string * Z)) (d : list (Z * string))
    (i : Z) (name : string) :
  int_dict_get (fold_left (fun d kv => int_dict_set d (snd kv) (fst kv)) items d) i
    = Some name ->
  In (name, i) items \/ int_dict_get d i = Some name.
Proof.
  revert d. induction items as [|[k v] items IH]; intros d H; simpl in H; [now right|].
  apply IH in H. destruct H as [H|H]; [left; now right|].
  destruct (Z.eq_dec i v) as [->|Hne].
  - rewrite int_dict_get_set_eq in H. inversion H. left. now left.
  - rewrite int_dict_get_set_neq in H by exact Hne. now right.
Qed.

(** Every index some name has gets an entry, and the entry is a name the
    mapping lists with that index. *)
Lemma inverted_get_present (items : list (string * Z)) (d : list (Z * string)) (i : Z) :
  In i (map snd items) ->
  exists name,
    int_dict_get (fold_left (fun d kv => int_dict_set d (snd kv) (fst kv)) items d) i
      = Some name /\
    In (name, i) items.
Proof.
  revert d. induction items as [|[k v] items IH]; intros d Hin; [contradiction|].
  simpl. destruct (in_dec Z.eq_dec i (map snd items)) as [Hi|Hi].
  - destruct (IH (int_dict_set d v k) Hi) as [n [Hn Hin']].
    exists n. split; [exact Hn | now right].
  - destruct Hin as [Hin|Hin]; [|contradiction]. simpl in Hin. subst v.
    exists k. split; [|now left].
    rewrite inverted_get_absent by exact Hi. apply int_dict_get_set_eq.
Qed.

(** When no two names share an index, the inverted mapping gives each index
    its name. *)
Lemma inverted_get_complete (items : list (string * Z)) (d : list (Z * string))
    (i : Z) (name : string) :
  NoDup (map snd items) -> In (name, i) items ->
  int_dict_get (fold_left (fun d kv => int_dict_set d (snd kv) (fst kv)) items d) i
    = Some name.
Proof.
  revert d. induction items as [|[k v] items IH]; intros d Hnd Hin; [contradiction|].
  simpl in Hnd. inversion Hnd as [|? ? Hv Hnd']; subst. simpl.
  destruct Hin as [Hin|Hin].
  - inversion Hin; subst. rewrite inverted_get_absent by exact Hv.
    apply int_dict_get_set_eq.
  - apply IH; assumption.
Qed.

Lemma dict_get_In (d : list (string * Z)) (key : string) (v : Z) :
  NoDup (dict_keys d) -> In (key, v) d -> dict_get d key = Some v.
Proof.
  induction d as [|[k v'] d IH]; simpl; intros Hnd Hin; [contradiction|].
  inversion Hnd as [|? ? Hk Hnd']; subst.
  destruct (String.eqb_spec key k) as [E|E].
  - subst k. destruct Hin as [Hin|Hin]; [inversion Hin; reflexivity|].
    exfalso. apply Hk. apply in_map_iff. now exists (key, v).
  - destruct Hin as [Hin|Hin]; [inversion Hin; congruence | now apply IH].
Qed.

Section IntrospectionFacts.
Variable StateDict : Type.
Variable AutoregressiveFudgeClassifier :
  option (string -> Z -> StateDict -> outcome (list nat -> list R)).

(** X1.  A decoder constructed from a class name reports a name of the same
    class: [target_class_name] returns a key of the label mapping whose
    index is the resolved target class, and it returns the very name given
    at construction when no two names share an index. *)
Theorem target_class_name_of_named_target
    (model : list nat -> list (list R)) (tokenizer : Tokenizer)
    (checkpoint : Checkpoint StateDict) (name : string) (self : FudgeInference) :
  __init__ AutoregressiveFudgeClassifier model tokenizer checkpoint (ClassName name)
    = Ok self ->
  In (target_class_name self, target_class self) (ckpt_label_mapping checkpoint) /\
  (NoDup (map snd (ckpt_label_mapping checkpoint)) -> target_class_name self = name).
Proof.
  intros H.
  destruct (@__init___inv _ _ _ _ _ _ _ H) as [idx [scorer [Hidx [_ ->]]]]. clear H.
  simpl in Hidx. destruct (dict_get (ckpt_label_mapping checkpoint) name) as [i|] eqn:E;
    [|discriminate].
  inversion Hidx; subst idx. apply dict_get_Some in E.
  unfold target_class_name, reverse_mapping. simpl.
  split.
  - destruct (@inverted_get_present (ckpt_label_mapping checkpoint) [] i)
      as [n [Hn Hin]];
      [apply in_map_iff; now exists (name, i)|].
    rewrite Hn. exact Hin.
  - intros Hnd. now rewrite (@inverted_get_complete _ [] _ _ Hnd E).
Qed.

(** X2.  A decoder constructed from a class index reports the name the label
    mapping lists for that index when no two names share an index, and the
    decimal text of the index when the mapping lists no name for it. *)
Theorem target_class_name_of_indexed_target
    (model : list nat -> list (list R)) (tokenizer : Tokenizer)
    (checkpoint : Checkpoint StateDict) (index : Z) (self : FudgeInference) :
  __init__ AutoregressiveFudgeClassifier model tokenizer checkpoint (ClassIndex index)
    = Ok self ->
  (0 <= index < ckpt_num_labels checkpoint)%Z /\
  (forall name,
     NoDup (map snd (ckpt_label_mapping checkpoint)) ->
     In (name, index) (ckpt_label_mapping checkpoint) ->
     target_class_name self = name) /\
  (~ In index (map snd (ckpt_label_mapping checkpoint)) ->
   target_class_name self = str_of_int index).
Proof.
  intros H.
  destruct (@__init___inv _ _ _ _ _ _ _ H) as [idx [scorer [Hidx [_ ->]]]]. clear H.
  simpl in Hidx.
  destruct ((0 <=? index)%Z && (index <? ckpt_num_labels checkpoint)%Z) eqn:E;
    [|discriminate].
  simpl in Hidx. inversion Hidx; subst idx.
  apply andb_true_iff in E. destruct E as [E1 E2].
  apply Z.leb_le in E1. apply Z.ltb_lt in E2.
  unfold target_class_name, reverse_mapping. simpl.
  split; [lia|]. split.
  - intros name Hnd Hin. now rewrite (@inverted_get_complete _ [] _ _ Hnd Hin).
  - intros Hi. now rewrite inverted_get_absent by exact Hi.
Qed.

(** X3.  Introspection and construction agree: for a label mapping with
    distinct keys, every pair [get_available_classes] lists names a class
    the constructor accepts, and the decoder built from that name has the
    listed index as its target class and lists the same classes. *)
Theorem available_classes_are_constructible
    (model : list nat -> list (list R)) (tokenizer : Tokenizer)
    (checkpoint : Checkpoint StateDict) (target : class_spec) (self : FudgeInference)
    (name : string) (index : Z) :
  __init__ AutoregressiveFudgeClassifier model tokenizer checkpoint target = Ok self ->
  NoDup (dict_keys (ckpt_label_mapping checkpoint)) ->
  In (name, index) (get_available_classes self) ->
  exists self',
    __init__ AutoregressiveFudgeClassifier model tokenizer checkpoint (ClassName name)
      = Ok self' /\
    target_class self' = index /\
    get_available_classes self' = get_available_classes self.
Proof.
  intros H Hnd Hin.
  destruct (@__init___inv _ _ _ _ _ _ _ H)
    as [idx [scorer [Hidx [[classifier [Hbound Hbuilt]] ->]]]]. clear H.
  unfold get_available_classes in *. simpl in Hin.
  unfold __init__. simpl. rewrite (@dict_get_In _ _ _ Hnd Hin), bind_Ok.
  rewrite Hbound, Hbuilt, bind_Ok.
  eexists. split; [reflexivity|]. split; reflexivity.
Qed.
End IntrospectionFacts.

(** * More on the Distribution Builder *)

Lemma Rsum_map_div (A : Type) (f : A -> R) (total : R) (l : list A) :
  Rsum (map (fun a => (f a / total)%R) l) = (Rsum (map f l) / total)%R.
Proof.
  induction l as [|a l IH]; simpl; [unfold Rdiv; ring|].
  rewrite IH. unfold Rdiv. ring.
Qed.

Lemma softmax_sums_to_1 (x : list xreal) :
  (0 < Rsum (map xexp x))%R -> Rsum (softmax x) = 1%R.
Proof.
  intros H. unfold softmax. rewrite (Rsum_map_div xexp). apply Rdiv_diag. lra.
Qed.

(** The two filters only mask: an entry is left as it was or set to [-inf]. *)
Lemma top_k_filter_only_masks (top_k : Z) (logits out : list xreal) :
  top_k_filter top_k logits = Ok out ->
  length out = length logits /\
  (forall i, nth i out NegInf = NegInf \/ nth i out NegInf = nth i logits NegInf).
Proof.
  intros H. pose proof (top_k_filter_by_shape top_k logits) as Hs.
  rewrite H in Hs. destruct Hs as [Hk Hl].
  destruct (@top_k_filter_spec top_k logits Hk) as [l1 [e [l2 [_ [_ Hf]]]]].
  rewrite Hf in H. inversion H; subst out; clear H.
  split; [apply length_map|]. intros i.
  destruct (Nat.lt_ge_cases i (length logits)) as [Hi|Hi].
  - rewrite (nth_indep _ NegInf
               ((fun x => if xltb x (snd e) then NegInf else x) NegInf))
      by (rewrite length_map; exact Hi).
    rewrite (map_nth (fun x => if xltb x (snd e) then NegInf else x)).
    destruct (xltb (nth i logits NegInf) (snd e)); [now left | now right].
  - left. apply nth_overflow. now rewrite length_map.
Qed.

Lemma top_p_filter_only_masks (top_p : R) (logits out : list xreal) :
  top_p_filter top_p logits = Ok out ->
  length out = length logits /\
  (forall i, nth i out NegInf = NegInf \/ nth i out NegInf = nth i logits NegInf).
Proof.
  intros H. pose proof (top_p_filter_by_shape top_p logits) as Hs.
  rewrite H in Hs. destruct Hs as [Hne Hl].
  destruct (@top_p_filter_spec top_p logits Hne) as [mask [Hf [Hlm _]]].
  rewrite Hf in H. inversion H; subst out; clear H.
  split; [exact Hl|]. intros i.
  destruct (Nat.lt_ge_cases i (length logits)) as [Hi|Hi].
  - rewrite nth_masked_fill by assumption.
    destruct (nth i mask false); [now left | now right].
  - left. apply nth_overflow. now rewrite Hl.
Qed.

(** The largest entry of a tensor with a finite entry is finite. *)
Lemma sort_desc_head_finite (logits : list xreal) (r : R) :
  In (Fin r) logits ->
  exists i0 r0 rest,
    sort_desc xltb logits = (i0, Fin r0) :: rest /\
    nth_error logits i0 = Some (Fin r0).
Proof.
  intros Hin.
  assert (Hlen : (1 <= length logits)%nat) by (destruct logits; [contradiction | simpl; lia]).
  destruct (sort_desc xltb logits) as [|[i0 h] rest] eqn:Es.
  { pose proof (sort_desc_length xltb logits) as Hl. rewrite Es in Hl. simpl in Hl. lia. }
  assert (Htop : topk xltb logits 1 = Ok [(i0, h)]).
  { rewrite topk_succeeds by lia. rewrite Es. reflexivity. }
  apply In_nth_error in Hin. destruct Hin as [j Hj].
  pose proof (@topk_head_max _ xltb xltb_asym xltb_negtrans _ _ _ _ _ _ Htop Hj) as Hmax.
  simpl in Hmax. destruct h as [|r0]; [discriminate|].
  exists i0, r0, rest. split; [reflexivity|].
  apply (sort_desc_In xltb). rewrite Es. now left.
Qed.

(** The filters leave at least one finite score. *)
Lemma top_k_filter_keeps_finite (top_k : Z) (logits out : list xreal) :
  (forall x, In x logits -> x <> NegInf) ->
  top_k_filter top_k logits = Ok out -> exists r, In (Fin r) out.
Proof.
  intros Hfin H. pose proof (top_k_filter_by_shape top_k logits) as Hs.
  rewrite H in Hs. destruct Hs as [Hk _].
  destruct (@top_k_filter_spec top_k logits Hk) as [l1 [e [l2 [Hsort [_ Hf]]]]].
  rewrite Hf in H. inversion H; subst out; clear H.
  destruct (@rank_counts _ xltb xltb_asym xltb_negtrans _ _ _ _ Hsort) as [Hin _].
  destruct (snd e) as [|r] eqn:Ee; [exfalso; exact (Hfin _ Hin eq_refl)|].
  exists r. apply in_map_iff. exists (Fin r). simpl. rewrite Rltb_irrefl.
  split; [reflexivity | exact Hin].
Qed.

Lemma top_p_filter_keeps_finite (top_p : R) (logits out : list xreal) (r : R) :
  In (Fin r) logits ->
  top_p_filter top_p logits = Ok out -> exists r', In (Fin r') out.
Proof.
  intros Hin H.
  assert (Hne : logits <> []) by (intros E; rewrite E in Hin; contradiction).
  destruct (@top_p_filter_spec top_p logits Hne) as [mask [Hf [Hlm Hmask]]].
  rewrite Hf in H. inversion H; subst out; clear H.
  destruct (sort_desc_head_finite _ _ Hin) as [i0 [r0 [rest [Es Hi0]]]].
  assert (H0 : (0 < length logits)%nat) by (destruct logits; [congruence | simpl; lia]).
  specialize (Hmask 0%nat H0). rewrite Es in Hmask. simpl in Hmask.
  assert (Hi0' : (i0 < length logits)%nat) by (apply nth_error_Some; congruence).
  exists r0. rewrite <- (nth_error_nth _ _ NegInf Hi0).
  replace (nth i0 logits NegInf) with (nth i0 (masked_fill logits mask) NegInf)
    by (rewrite nth_masked_fill by assumption; now rewrite Hmask).
  apply nth_In. now rewrite length_masked_fill.
Qed.

Lemma apply_filters_result (top_k : option Z) (top_p : option R) (logits : list xreal) :
  logits <> [] -> (forall x, In x logits -> x <> NegInf) ->
  valid_top_k top_k (length logits) ->
  exists out,
    apply_filters top_k top_p logits = Ok out /\
    length out = length logits /\
    (exists r, In (Fin r) out) /\
    (forall i, nth i out NegInf = NegInf \/ nth i out NegInf = nth i logits NegInf).
Proof.
  intros Hne Hfin Hk. unfold apply_filters.
  assert (H1 : exists l1,
             match top_k with Some k => top_k_filter k logits | None => Ok logits end = Ok l1
             /\ length l1 = length logits /\ (exists r, In (Fin r) l1) /\
             (forall i, nth i l1 NegInf = NegInf \/ nth i l1 NegInf = nth i logits NegInf)).
  { destruct top_k as [k|].
    - destruct (@top_k_filter_succeeds k logits Hk) as [l1 [Hl1 _]].
      exists l1. split; [exact Hl1|].
      destruct (top_k_filter_only_masks _ _ Hl1) as [Hlen Hmask].
      split; [exact Hlen|]. split; [|exact Hmask].
      exact (top_k_filter_keeps_finite _ _ Hfin Hl1).
    - exists logits. split; [reflexivity|]. split; [reflexivity|].
      split; [|intros i; now right].
      destruct logits as [|[|r] logits]; [congruence | |].
      + exfalso. apply (Hfin NegInf); [now left | reflexivity].
      + exists r. now left. }
  destruct H1 as [l1 [H1 [Hl1 [[r Hr] Hm1]]]]. rewrite H1, bind_Ok.
  destruct top_p as [p|].
  - assert (Hne1 : l1 <> []) by (intros E; rewrite E in Hr; contradiction).
    destruct (@top_p_filter_spec p l1 Hne1) as [mask [Hf _]].
    exists (masked_fill l1 mask). split; [exact Hf|].
    destruct (top_p_filter_only_masks _ _ Hf) as [Hlen Hm2].
    split; [congruence|]. split; [exact (top_p_filter_keeps_finite _ _ _ Hr Hf)|].
    intros i. destruct (Hm2 i) as [E|E]; [now left|].
    rewrite E. apply Hm1.
  - exists l1. split; [reflexivity|]. split; [exact Hl1|].
    split; [now exists r | exact Hm1].
Qed.

Lemma scaled_logits_finite (row : list R) (t : R) (x : xreal) :
  In x (map (fun xi => Fin (xi / t)%R) row) -> x <> NegInf.
Proof. intros H. apply in_map_iff in H. destruct H as [xi [<- _]]. discriminate. Qed.

(** X4.  For a non-empty input, a non-zero temperature, a non-empty
    vocabulary and [top_k] unset or between 1 and the vocabulary size,
    whatever [top_p] is, [get_next_token_distribution] returns a probability
    distribution over the vocabulary: one entry per token, no negative
    entry, and the entries sum to 1. *)
Theorem next_token_distribution_is_a_distribution
    (model : list nat -> list (list R)) (ids : list nat) (t : R)
    (top_k : option Z) (top_p : option R) (row : list R) :
  index_last (model ids) = Ok row -> row <> [] -> t <> 0%R ->
  valid_top_k top_k (length row) ->
  exists d,
    get_next_token_distribution model ids t top_k top_p = Ok d /\
    length d = length row /\
    Forall (fun z => 0 <= z)%R d /\
    Rsum d = 1%R.
Proof.
  intros Hrow Hne Ht Hk.
  destruct (@apply_filters_result top_k top_p (map (fun xi => Fin (xi / t)%R) row))
    as [out [Hout [Hlen [[r Hr] _]]]].
  - intros E. apply map_eq_nil in E. contradiction.
  - intros x. apply scaled_logits_finite.
  - rewrite length_map. exact Hk.
  - exists (softmax out). split.
    { unfold get_next_token_distribution.
      rewrite Hrow, bind_Ok, scale_nonzero by exact Ht. now rewrite Hout. }
    split; [rewrite length_softmax, Hlen; apply length_map|].
    split; [apply softmax_nonneg|].
    apply softmax_sums_to_1. exact (softmax_total_pos _ _ Hr).
Qed.

(** X5.  Adding a nucleus filter to a top-k filter only removes positions:
    every position with non-zero probability under both filters has non-zero
    probability under the top-k filter alone. *)
Theorem nucleus_after_top_k_only_removes
    (model : list nat -> list (list R)) (ids : list nat) (t p : R) (k : Z)
    (row : list R) :
  index_last (model ids) = Ok row -> t <> 0%R ->
  (1 <= k <= Z.of_nat (length row))%Z ->
  exists d_k d_kp,
    get_next_token_distribution model ids t (Some k) None = Ok d_k /\
    get_next_token_distribution model ids t (Some k) (Some p) = Ok d_kp /\
    incl (support d_kp) (support d_k).
Proof.
  intros Hrow Ht Hk.
  set (logits := map (fun xi => Fin (xi / t)%R) row).
  assert (Hll : length logits = length row) by apply length_map.
  destruct (@top_k_filter_succeeds k logits) as [out_k [Hok Hlk]]; [rewrite Hll; exact Hk|].
  assert (Hfin : exists r, In (Fin r) out_k).
  { apply (@top_k_filter_keeps_finite k logits out_k); [|exact Hok].
    intros x. apply scaled_logits_finite. }
  destruct Hfin as [r Hr].
  assert (Hne : out_k <> []) by (intros E; rewrite E in Hr; contradiction).
  destruct (@top_p_filter_spec p out_k Hne) as [mask [Hop _]].
  destruct (top_p_filter_only_masks _ _ Hop) as [Hlp Hmask].
  destruct (top_p_filter_keeps_finite _ _ _ Hr Hop) as [r' Hr'].
  exists (softmax out_k), (softmax (masked_fill out_k mask)).
  split.
  { unfold get_next_token_distribution.
    rewrite Hrow, bind_Ok, scale_nonzero by exact Ht.
    unfold apply_filters. fold logits. now rewrite Hok. }
  split.
  { unfold get_next_token_distribution.
    rewrite Hrow, bind_Ok, scale_nonzero by exact Ht.
    unfold apply_filters. fold logits. rewrite Hok, bind_Ok. now rewrite Hop. }
  intros i Hi. apply support_In in Hi. apply support_In. intros Hz. apply Hi.
  destruct (Nat.lt_ge_cases i (length out_k)) as [Hlt|Hge].
  - apply softmax_entry_zero in Hz;
      [|exact (softmax_total_pos _ _ Hr) | exact Hlt].
    apply softmax_entry_zero;
      [exact (softmax_total_pos _ _ Hr') | now rewrite Hlp|].
    destruct (Hmask i) as [E|E]; [exact E | now rewrite E].
  - apply nth_overflow. now rewrite length_softmax, Hlp.
Qed.

Lemma get_next_token_distribution_filters
    (model : list nat -> list (list R)) (ids : list nat) (t : R)
    (top_k : option Z) (top_p : option R) (row : list R) :
  index_last (model ids) = Ok row -> t <> 0%R ->
  get_next_token_distribution model ids t top_k top_p
  = (logits <- apply_filters top_k top_p (map (fun xi => Fin (xi / t)%R) row) ;;
     Ok (softmax logits)).
Proof.
  intros Hrow Ht. unfold get_next_token_distribution.
  now rewrite Hrow, bind_Ok, scale_nonzero by exact Ht.
Qed.

(** X6.  A [top_k] outside [1 .. vocabulary size] makes
    [get_next_token_distribution] raise at any temperature, zero included,
    and whatever [top_p] is; the class of the exception tells the cases
    apart.  [top_k = 0] raises an [IndexError] (it does not mean "no
    filter"); a negative [top_k], or one above the vocabulary size, that
    fits a 64-bit integer raises a [RuntimeError]; a [top_k] of [2^63] or
    more raises a [ValueError]. *)
Theorem top_k_outside_range_raises
    (model : list nat -> list (list R)) (ids : list nat) (t : R)
    (k : Z) (top_p : option R) (row : list R) :
  index_last (model ids) = Ok row ->
  (k = 0%Z ->
   exists msg,
     get_next_token_distribution model ids t (Some k) top_p = Raise (IndexError msg)) /\
  ((- 2 ^ 63 <= k < 0 \/ Z.of_nat (length row) < k <= int64_max)%Z ->
   exists msg,
     get_next_token_distribution model ids t (Some k) top_p = Raise (RuntimeError msg)) /\
  ((int64_max < k)%Z -> (Z.of_nat (length row) <= int64_max)%Z ->
   exists msg,
     get_next_token_distribution model ids t (Some k) top_p = Raise (ValueError msg)).
Proof.
  intros Hrow.
  assert (Hshape : forall logits : list xreal, length logits = length row ->
            (k = 0%Z ->
             exists msg, apply_filters (Some k) top_p logits = Raise (IndexError msg)) /\
            ((- 2 ^ 63 <= k < 0 \/ Z.of_nat (length row) < k <= int64_max)%Z ->
             exists msg, apply_filters (Some k) top_p logits = Raise (RuntimeError msg)) /\
            ((int64_max < k)%Z -> (Z.of_nat (length row) <= int64_max)%Z ->
             exists msg, apply_filters (Some k) top_p logits = Raise (ValueError msg))).
  { intros logits Hl. unfold apply_filters.
    pose proof (top_k_filter_by_shape k logits) as Hs. rewrite Hl in Hs.
    destruct (top_k_filter k logits) as [out|e|]; [| |contradiction].
    - unfold int64_max. repeat split; intros; lia.
    - destruct Hs as [[Hs ->]|[Hs ->]].
      + destruct (int64_max <? k)%Z eqn:E;
          [apply Z.ltb_lt in E | apply Z.ltb_ge in E]; unfold int64_max in *;
          repeat split; intros; try lia; eexists; reflexivity.
      + unfold int64_max. repeat split; intros; try lia. eexists; reflexivity. }
  unfold get_next_token_distribution. rewrite Hrow, bind_Ok.
  destruct (scale row t) as [logits|] eqn:Es.
  - apply scale_Some in Es.
    destruct (Hshape logits) as [H0 [H1 H2]]; [subst logits; apply length_map|].
    split; [|split].
    + intros Hk. destruct (H0 Hk) as [msg E]. exists msg. now rewrite E.
    + intros Hk. destruct (H1 Hk) as [msg E]. exists msg. now rewrite E.
    + intros Hk Hv. destruct (H2 Hk Hv) as [msg E]. exists msg. now rewrite E.
  - destruct (Hshape (map Fin row)) as [H0 [H1 H2]]; [apply length_map|].
    split; [|split].
    + intros Hk. destruct (H0 Hk) as [msg E]. exists msg. now rewrite E.
    + intros Hk. destruct (H1 Hk) as [msg E]. exists msg. now rewrite E.
    + intros Hk Hv. destruct (H2 Hk Hv) as [msg E]. exists msg. now rewrite E.
Qed.

Lemma Rsum_firstn_mono (l : list R) (m m' : nat) :
  Forall (fun v => 0 <= v)%R l -> (m <= m')%nat ->
  (Rsum (firstn m l) <= Rsum (firstn m' l))%R.
Proof.
  intros Hl. revert m m'. induction Hl as [|a l Ha Hl IH]; intros m m' Hm.
  - rewrite !firstn_nil. lra.
  - destruct m as [|m]; destruct m' as [|m']; simpl; try lia.
    + lra.
    + pose proof (IH 0%nat m' (Nat.le_0_l _)) as H0. simpl in H0. lra.
    + specialize (IH m m'). assert (m <= m')%nat by lia. specialize (IH H). lra.
Qed.

Lemma Rsum_firstn_le (l : list R) (m : nat) :
  Forall (fun v => 0 <= v)%R l -> (Rsum (firstn m l) <= Rsum l)%R.
Proof.
  intros Hl. destruct (Nat.le_gt_cases m (length l)) as [H|H].
  - rewrite <- (firstn_all l) at 2. now apply Rsum_firstn_mono.
  - rewrite firstn_all2 by lia. lra.
Qed.

Lemma masked_fill_all_false (logits : list xreal) (mask : list bool) :
  length mask = length logits ->
  (forall i, (i < length logits)%nat -> nth i mask false = false) ->
  masked_fill logits mask = logits.
Proof.
  intros Hl Hm. apply nth_ext with (d := NegInf) (d' := NegInf).
  - now apply length_masked_fill.
  - intros i Hi. rewrite length_masked_fill in Hi by exact Hl.
    rewrite nth_masked_fill by assumption. now rewrite Hm.
Qed.

(** The sorted probabilities of a tensor with a finite entry sum to 1. *)
Lemma sorted_probs_sum (logits : list xreal) (r : R) :
  In (Fin r) logits ->
  Rsum (softmax (map snd (sort_desc xltb logits))) = 1%R.
Proof.
  intros Hin. apply softmax_sums_to_1. apply softmax_total_pos with (r := r).
  apply (Permutation_in _ (Permutation_sym (sort_desc_values xltb logits))). exact Hin.
Qed.

Lemma top_p_filter_at_least_1 (p : R) (logits : list xreal) (r : R) :
  In (Fin r) logits -> (1 <= p)%R -> top_p_filter p logits = Ok logits.
Proof.
  intros Hin Hp.
  assert (Hne : logits <> []) by (intros E; rewrite E in Hin; contradiction).
  destruct (@top_p_filter_spec p logits Hne) as [mask [Hf [Hlm Hmask]]].
  rewrite Hf. f_equal. apply masked_fill_all_false; [exact Hlm|].
  intros i Hi.
  assert (Hidx : In i (map fst (sort_desc xltb logits)))
    by (apply sort_desc_index_lt; exact Hi).
  apply In_nth with (d := 0%nat) in Hidx. destruct Hidx as [j [Hj Hnth]].
  rewrite length_map, sort_desc_length in Hj.
  rewrite <- Hnth, (Hmask j Hj). destruct j as [|j']; [reflexivity|].
  apply Rltb_false.
  pose proof (Rsum_firstn_le (S j') (softmax_nonneg (map snd (sort_desc xltb logits)))) as Hle.
  rewrite (sorted_probs_sum _ _ Hin) in Hle. lra.
Qed.

(** X7.  A [top_p] of 1 or more filters nothing: the distribution is the one
    computed without a nucleus filter, with or without top-k. *)
Theorem top_p_of_at_least_1_filters_nothing
    (model : list nat -> list (list R)) (ids : list nat) (t p : R)
    (top_k : option Z) (row : list R) :
  index_last (model ids) = Ok row -> row <> [] -> t <> 0%R ->
  valid_top_k top_k (length row) -> (1 <= p)%R ->
  get_next_token_distribution model ids t top_k (Some p)
  = get_next_token_distribution model ids t top_k None.
Proof.
  intros Hrow Hne Ht Hk Hp.
  rewrite !(get_next_token_distribution_filters _ _ _ _ Hrow Ht).
  destruct (@apply_filters_result top_k None (map (fun xi => Fin (xi / t)%R) row))
    as [out [Hout [_ [[r Hr] _]]]].
  - intros E. apply map_eq_nil in E. contradiction.
  - intros x. apply scaled_logits_finite.
  - rewrite length_map. exact Hk.
  - rewrite Hout. unfold apply_filters in *.
    destruct (match top_k with
              | Some k => top_k_filter k (map (fun xi => Fin (xi / t)%R) row)
              | None => Ok (map (fun xi => Fin (xi / t)%R) row)
              end) as [l1| |]; try discriminate.
    rewrite bind_Ok in *. inversion Hout; subst l1.
    now rewrite (top_p_filter_at_least_1 _ _ Hr Hp).
Qed.

Lemma top_k_filter_full_width (logits : list xreal) :
  logits <> [] -> top_k_filter (Z.of_nat (length logits)) logits = Ok logits.
Proof.
  intros Hne.
  assert (Hlen : (1 <= length logits)%nat) by (destruct logits; [congruence | simpl; lia]).
  destruct (@top_k_filter_spec (Z.of_nat (length logits)) logits)
    as [l1 [e [l2 [Hs [Hl Hf]]]]]; [lia|].
  rewrite Hf. f_equal. rewrite <- (map_id logits) at 2.
  apply map_ext_in. intros x Hx.
  pose proof (@sort_desc_sorted _ xltb xltb_asym xltb_negtrans logits) as Hsorted.
  pose proof (sort_desc_length xltb logits) as Hsl.
  rewrite Hs in Hsorted, Hsl. rewrite length_app in Hsl. simpl in Hsl.
  assert (l2 = []) by (destruct l2; [reflexivity | simpl in Hsl; lia]). subst l2.
  apply (@sorted_middle _ xltb) in Hsorted. destruct Hsorted as [H1 _].
  apply (Permutation_in _ (Permutation_sym (sort_desc_values xltb logits))) in Hx.
  rewrite Hs, map_app in Hx. apply in_app_or in Hx. simpl in Hx.
  assert (E : xltb x (snd e) = false).
  { destruct Hx as [Hx|[Hx|[]]].
    - apply in_map_iff in Hx. destruct Hx as [a [<- Ha]].
      rewrite Forall_forall in H1. exact (H1 _ Ha).
    - subst x. apply (@ltb_irrefl _ xltb xltb_asym). }
  now rewrite E.
Qed.

(** X8.  A [top_k] equal to the vocabulary size filters nothing: the
    distribution is the one computed with [top_k=None]. *)
Theorem top_k_of_vocabulary_size_filters_nothing
    (model : list nat -> list (list R)) (ids : list nat) (t : R)
    (top_p : option R) (row : list R) :
  index_last (model ids) = Ok row -> row <> [] -> t <> 0%R ->
  get_next_token_distribution model ids t (Some (Z.of_nat (length row))) top_p
  = get_next_token_distribution model ids t None top_p.
Proof.
  intros Hrow Hne Ht.
  rewrite !(get_next_token_distribution_filters _ _ _ _ Hrow Ht).
  unfold apply_filters.
  rewrite <- (length_map (fun xi => Fin (xi / t)%R) row) at 1.
  rewrite top_k_filter_full_width; [reflexivity|].
  intros E. apply map_eq_nil in E. contradiction.
Qed.

(** The least number from [lo] on that satisfies a decidable property, or
    [hi] when none below [hi] does. *)
Lemma least_from (P : nat -> Prop) (dec : forall m, {P m} + {~ P m}) (lo hi : nat) :
  (lo <= hi)%nat ->
  exists n, (lo <= n <= hi)%nat /\
            (forall m, (lo <= m < n)%nat -> ~ P m) /\
            ((n < hi)%nat -> P n).
Proof.
  induction 1 as [|hi Hle [n [Hn [Hbelow Hat]]]].
  - exists lo. repeat split; intros; lia.
  - destruct (Nat.eq_dec n hi) as [E|E].
    + subst n. destruct (dec hi) as [HP|HP].
      * exists hi. repeat split; try lia; [exact Hbelow | intros _; exact HP].
      * exists (S hi). repeat split; try lia.
        intros m Hm. destruct (Nat.eq_dec m hi) as [->|Hne]; [exact HP|].
        apply Hbelow. lia.
    + exists n. repeat split; try lia; [exact Hbelow | intros _; apply Hat; lia].
Qed.

Lemma nucleus_prefix_spec (t p : R) (row : list R) (sorted : list (nat * xreal)) :
  row <> [] ->
  let logits := map (fun x => Fin (x / t)%R) row in
  Permutation sorted (enumerate logits) ->
  let probs := softmax (map snd sorted) in
  exists d n,
    nucleus_distribution sorted p logits = Ok d /\
    (1 <= n <= length row)%nat /\
    (forall j, (j < length row)%nat ->
       nth (nth j (map fst sorted) 0%nat) d 0%R <> 0%R <-> (j < n)%nat) /\
    ((n < length row)%nat -> (p < Rsum (firstn n probs))%R) /\
    (forall m, (1 <= m < n)%nat -> (Rsum (firstn m probs) <= p)%R).
Proof.
  intros Hne logits Hperm probs.
  destruct (@nucleus_distribution_spec t p row sorted Hne Hperm)
    as [out [_ [Hd [_ [_ Hrem]]]]].
  fold logits in Hd. fold probs in Hrem.
  assert (HV : (1 <= length row)%nat) by (destruct row; [congruence | simpl; lia]).
  destruct (@least_from (fun m => (p < Rsum (firstn m probs))%R)
              (fun m => Rlt_dec p (Rsum (firstn m probs))) 1 (length row) HV)
    as [n [Hn [Hbelow Hat]]].
  assert (Hmono : forall m m', (m <= m')%nat ->
            (p < Rsum (firstn m probs))%R -> (p < Rsum (firstn m' probs))%R).
  { intros m m' Hm H.
    pose proof (Rsum_firstn_mono (softmax_nonneg (map snd sorted)) Hm) as Hle.
    fold probs in Hle. lra. }
  exists (softmax out), n. split; [exact Hd|]. split; [exact Hn|]. split; [|split].
  - intros j Hj. rewrite (Hrem j Hj). split.
    + intros Hkeep. destruct (Nat.lt_ge_cases j n) as [H|H]; [exact H|].
      exfalso. apply Hkeep. split; [lia|]. apply (Hmono n j H). apply Hat. lia.
    + intros Hlt [H1 HP]. apply (Hbelow j); [lia | exact HP].
  - exact Hat.
  - intros m Hm. specialize (Hbelow m Hm). lra.
Qed.

(** X9.  The nucleus filter (without top-k) keeps a prefix of the descending
    order, equal scores in whatever order the sort returns them: there is a
    number [n >= 1] such that exactly the positions of the first [n] ranks
    keep non-zero probability; [n] is the least number of leading positions,
    at least one, whose probabilities sum to more than [top_p], and the
    whole vocabulary when no proper prefix does.  This holds for every
    descending order, and the method returns the result for one of them. *)
Theorem nucleus_is_smallest_prefix_over_p
    (model : list nat -> list (list R)) (ids : list nat) (t p : R) (row : list R) :
  index_last (model ids) = Ok row -> t <> 0%R -> row <> [] ->
  let logits := map (fun x => Fin (x / t)%R) row in
  (forall sorted, descending_order xltb logits sorted ->
     let probs := softmax (map snd sorted) in
     exists d n,
       nucleus_distribution sorted p logits = Ok d /\
       (1 <= n <= length row)%nat /\
       (forall j, (j < length row)%nat ->
          nth (nth j (map fst sorted) 0%nat) d 0%R <> 0%R <-> (j < n)%nat) /\
       ((n < length row)%nat -> (p < Rsum (firstn n probs))%R) /\
       (forall m, (1 <= m < n)%nat -> (Rsum (firstn m probs) <= p)%R)) /\
  (exists sorted,
     descending_order xltb logits sorted /\
     get_next_token_distribution model ids t None (Some p)
     = nucleus_distribution sorted p logits).
Proof.
  intros Hrow Ht Hne logits. split.
  - intros sorted [Hperm _].
    exact (@nucleus_prefix_spec t p row sorted Hne Hperm).
  - exact (@get_next_token_distribution_nucleus_run model ids t p row Hrow Ht).
Qed.

(** X10.  Without filters a positive temperature keeps the order of the
    logits and a negative temperature reverses it: for [temperature > 0] a
    token has a smaller probability than another exactly when its logit is
    smaller, for [temperature < 0] exactly when its logit is larger. *)
Theorem temperature_sign_orders_probabilities
    (model : list nat -> list (list R)) (ids : list nat) (t : R) (row : list R) :
  index_last (model ids) = Ok row -> t <> 0%R ->
  exists d,
    get_next_token_distribution model ids t None None = Ok d /\
    forall i j, (i < length row)%nat -> (j < length row)%nat ->
      ((0 < t)%R -> (nth i d 0 < nth j d 0)%R <-> (nth i row 0 < nth j row 0)%R) /\
      ((t < 0)%R -> (nth i d 0 < nth j d 0)%R <-> (nth j row 0 < nth i row 0)%R).
Proof.
  intros Hrow Ht.
  set (logits := map (fun x => Fin (x / t)%R) row).
  exists (softmax logits). split.
  { rewrite (get_next_token_distribution_filters _ _ _ _ Hrow Ht). reflexivity. }
  intros i j Hi Hj.
  assert (Hll : length logits = length row) by apply length_map.
  assert (Hnth : forall i, (i < length row)%nat ->
                           nth i logits NegInf = Fin (nth i row 0 / t)%R).
  { intros i0 Hi0. unfold logits.
    rewrite (nth_indep _ NegInf ((fun x => Fin (x / t)%R) 0%R))
      by (rewrite length_map; exact Hi0).
    exact (map_nth (fun x => Fin (x / t)%R) row 0%R i0). }
  assert (Htotal : (0 < Rsum (map xexp logits))%R).
  { apply softmax_total_pos with (r := (nth i row 0 / t)%R).
    rewrite <- (Hnth i Hi). apply nth_In. now rewrite Hll. }
  rewrite !nth_softmax by (rewrite Hll; assumption).
  rewrite (Hnth i Hi), (Hnth j Hj). simpl.
  assert (Hdiv : (exp (nth i row 0 / t) / Rsum (map xexp logits)
                  < exp (nth j row 0 / t) / Rsum (map xexp logits))%R
                 <-> (nth i row 0 / t < nth j row 0 / t)%R).
  { split; intros H.
    - apply exp_lt_inv. apply Rmult_lt_reg_r with (r := (/ Rsum (map xexp logits))%R);
        [apply Rinv_0_lt_compat; exact Htotal | exact H].
    - apply Rmult_lt_compat_r; [apply Rinv_0_lt_compat; exact Htotal|].
      apply exp_increasing. exact H. }
  rewrite Hdiv. unfold Rdiv. split; intros Hs.
  - pose proof (Rinv_0_lt_compat t Hs) as Hinv. split; intros H.
    + apply Rmult_lt_reg_r with (r := (/ t)%R); assumption.
    + apply Rmult_lt_compat_r; assumption.
  - assert (Hinv : (0 < - / t)%R).
    { rewrite <- Rinv_opp. apply Rinv_0_lt_compat. lra. }
    split; intros H; nra.
Qed.

(** * More on the decoding step and the generation loop *)

Lemma channel_1_missing (logits : list R) :
  (length logits < 2)%nat ->
  channel_1 logits = Raise (IndexError "index 1 is out of bounds for dimension 1").
Proof.
  intros H. unfold channel_1.
  destruct (nth_error logits 1) as [s|] eqn:E; [|reflexivity].
  assert (1 < length logits)%nat by (apply nth_error_Some; congruence). lia.
Qed.

Lemma zeros_all_zero (x : list R) : Forall (fun w => w = 0%R) (zeros_like x).
Proof.
  unfold zeros_like. apply Forall_forall. intros v Hv. now apply repeat_spec in Hv.
Qed.

(** X13.  A scorer with fewer than two output channels cannot guide
    decoding: as soon as there is a candidate to score, the step raises an
    [IndexError] for channel 1. *)
Theorem single_channel_scorer_raises (self : FudgeInference) (cfg : GenerationConfig)
    (gen : list nat) (row : list R) :
  index_last (model self gen) = Ok row -> row <> [] ->
  temperature cfg <> 0%R -> (1 <= fudge_top_k cfg)%Z ->
  (forall s, (length (fudge_model self s) < 2)%nat) ->
  decoding_step self cfg gen
  = Raise (IndexError "index 1 is out of bounds for dimension 1").
Proof.
  intros Hrow Hne Ht Hk Hsc.
  destruct (@base_distribution_valid (model self) gen (temperature cfg)
              (base_top_p cfg) row Hrow Ht Hne) as [base [Hbase [Hlen _]]].
  assert (HV : (1 <= length base)%nat)
    by (rewrite Hlen; destruct row; [congruence | simpl; lia]).
  unfold decoding_step. rewrite Hbase, bind_Ok.
  rewrite topk_succeeds by lia. rewrite bind_Ok.
  destruct (firstn (Z.to_nat (Z.min (fudge_top_k cfg) (Z.of_nat (length base))))
              (sort_desc Rltb base)) as [|e rest] eqn:Ef.
  - apply (f_equal (@length _)) in Ef.
    rewrite length_firstn, sort_desc_length in Ef. simpl in Ef. lia.
  - simpl. rewrite channel_1_missing by apply Hsc. reflexivity.
Qed.

Section GenerationFacts.
Variable Generator : Type.
Variable draw : Generator -> list R -> nat * Generator.

(** X11.  The two edge cases of the loop.  With [max_length <= 0] nothing is
    generated and no model is called: the result is the prompt encoded and
    decoded again, and the random generator is untouched.  With
    [max_length >= 1] and a prompt that encodes to no token, for which the
    base model returns no row of logits, the call raises an [IndexError]. *)
Theorem generation_edge_cases (self : FudgeInference) (cfg : GenerationConfig)
    (prompt : string) (g : Generator) :
  ((max_length cfg <= 0)%Z ->
   generate_with_fudge draw self cfg prompt g
   = Ok (decode (tokenizer self) (encode (tokenizer self) prompt), g)) /\
  ((1 <= max_length cfg)%Z ->
   encode (tokenizer self) prompt = [] -> model self [] = [] ->
   generate_with_fudge draw self cfg prompt g
   = Raise (IndexError "index -1 is out of bounds for dimension with size 0")).
Proof.
  unfold generate_with_fudge, generate_tokens. split.
  - intros Hmax. replace (Z.to_nat (max_length cfg)) with 0%nat by lia. reflexivity.
  - intros Hmax Henc Hmodel.
    destruct (Z.to_nat (max_length cfg)) as [|n] eqn:En; [lia|].
    rewrite Henc. simpl. unfold decoding_step, get_next_token_distribution.
    rewrite Hmodel. reflexivity.
Qed.


End GenerationFacts.

(** * What the fused weights depend on *)

Lemma score_candidates_ext (scorer1 scorer2 : list nat -> list R) (gen cands : list nat) :
  (forall c, In c cands ->
     nth_error (scorer2 (gen ++ [c])) 1 = nth_error (scorer1 (gen ++ [c])) 1) ->
  score_candidates scorer2 gen cands = score_candidates scorer1 gen cands.
Proof.
  induction cands as [|c cands IH]; intros H; simpl; [reflexivity|].
  unfold channel_1. rewrite (H c) by now left.
  rewrite IH by (intros c' Hc'; apply H; now right). reflexivity.
Qed.

(** X12.  A decoding step consults the auxiliary scorer only through output
    channel 1 on the current sequence extended by one candidate token: a
    second scorer that agrees with the first on these values, whatever it
    returns on other channels or other sequences, gives the same step. *)
Theorem scorer_matters_only_on_candidate_continuations
    (self1 self2 : FudgeInference) (cfg : GenerationConfig) (gen : list nat)
    (st : step_tensors) :
  decoding_step self1 cfg gen = Ok st ->
  model self2 = model self1 ->
  (forall c, In c (candidate_indices st) ->
     nth_error (fudge_model self2 (gen ++ [c])) 1
     = nth_error (fudge_model self1 (gen ++ [c])) 1) ->
  decoding_step self2 cfg gen = Ok st.
Proof.
  intros H Hm Hagree.
  destruct (decoding_step_inv _ _ _ H) as [cands [Hbase [Htop [_ [Hidx _]]]]].
  rewrite Hidx in Hagree.
  unfold decoding_step in H |- *. rewrite Hm.
  rewrite Hbase, bind_Ok, Htop, bind_Ok in H |- *.
  rewrite (score_candidates_ext _ _ _ _ Hagree). exact H.
Qed.

Lemma Rsum_update (x : list R) (i : nat) (v : R) :
  (i < length x)%nat -> Rsum (update x i v) = (Rsum x - nth i x 0 + v)%R.
Proof.
  revert i. induction x as [|a x IH]; intros [|i] Hi; simpl in *; try lia.
  - lra.
  - rewrite IH by lia. lra.
Qed.

Lemma Rsum_scatter (base : list R) (index : list nat) (src : list R) :
  NoDup index -> (forall i, In i index -> (i < length base)%nat) ->
  length index = length src ->
  Rsum (scatter base index src)
  = (Rsum base - Rsum (map (fun i => nth i base 0%R) index) + Rsum src)%R.
Proof.
  revert base src. induction index as [|i index IH]; intros base [|v src] Hnd Hlt Hlen;
    simpl in *; try discriminate; [lra|].
  inversion Hnd as [|? ? Hni Hnd']; subst.
  rewrite IH; [| exact Hnd' | | congruence].
  - rewrite Rsum_update by (apply Hlt; now left).
    replace (map (fun j => nth j (update base i v) 0%R) index)
      with (map (fun j => nth j base 0%R) index).
    + lra.
    + apply map_ext_in. intros j Hj. symmetry. apply nth_update_neq.
      intros ->. contradiction.
  - intros j Hj. rewrite length_update. apply Hlt. now right.
Qed.

Lemma Rsum_scatter_zeros (x : list R) (index : list nat) (src : list R) :
  NoDup index -> (forall i, In i index -> (i < length x)%nat) ->
  length index = length src ->
  Rsum (scatter (zeros_like x) index src) = Rsum src.
Proof.
  intros Hnd Hlt Hlen. rewrite Rsum_scatter; try assumption.
  - rewrite (Rsum_zero (zeros_all_zero x)).
    rewrite Rsum_zero; [lra|].
    apply Forall_forall. intros v Hv. apply in_map_iff in Hv.
    destruct Hv as [i [<- _]]. apply nth_zeros_like.
  - intros i Hi. rewrite length_zeros_like. now apply Hlt.
Qed.

Lemma Rsum_map2_fuse (lam : R) (x y : list R) :
  length x = length y ->
  Rsum (map2 (fuse lam) x y) = ((1 - lam) * Rsum x + lam * Rsum y)%R.
Proof.
  revert y. induction x as [|a x IH]; intros [|b y] H; simpl in *; try discriminate.
  - lra.
  - rewrite IH by congruence. unfold fuse. lra.
Qed.

Lemma Rsum_Permutation (l l' : list R) : Permutation l l' -> Rsum l = Rsum l'.
Proof. induction 1; simpl; lra. Qed.

(** X16.  The mass of the combined vector: with at least one candidate it is
    [(1 - lambda_weight)] times the base probability of the candidate set
    plus [lambda_weight]; the base probability of the candidate set lies
    between 0 and 1, and when every token is a candidate the combined vector
    sums to 1. *)
Theorem combined_mass_identity (self : FudgeInference) (cfg : GenerationConfig)
    (gen : list nat) (row : list R) (st : step_tensors) :
  decoding_step self cfg gen = Ok st ->
  index_last (model self gen) = Ok row -> row <> [] ->
  temperature cfg <> 0%R -> (1 <= fudge_top_k cfg)%Z ->
  Rsum (combined_distribution st)
    = ((1 - lambda_weight cfg) * Rsum (candidate_values st) + lambda_weight cfg)%R /\
  (0 <= Rsum (candidate_values st) <= 1)%R /\
  ((Z.of_nat (length row) <= fudge_top_k cfg)%Z ->
   Rsum (combined_distribution st) = 1%R).
Proof.
  intros Hst Hrow Hne Ht Hk.
  destruct (decoding_step_inv _ _ _ Hst)
    as [cands [Hbase [Htop [Hval [Hidx [Hsc [Hfd [Hcs [Hcd _]]]]]]]]].
  (* the base distribution sums to 1 *)
  destruct (@apply_filters_result None (base_top_p cfg)
              (map (fun xi => Fin (xi / temperature cfg)%R) row))
    as [out [Hout [Hlo [[r Hr] _]]]].
  { intros E. apply map_eq_nil in E. contradiction. }
  { intros x. apply scaled_logits_finite. }
  { exact I. }
  rewrite (get_next_token_distribution_filters _ _ _ _ Hrow Ht), Hout, bind_Ok in Hbase.
  inversion Hbase as [Hb]. clear Hbase.
  assert (Hsum : Rsum (base_distribution st) = 1%R)
    by (rewrite <- Hb; apply softmax_sums_to_1, (softmax_total_pos _ _ Hr)).
  assert (Hnn : Forall (fun z => 0 <= z)%R (base_distribution st))
    by (rewrite <- Hb; apply softmax_nonneg).
  assert (HV : length (base_distribution st) = length row)
    by (rewrite <- Hb, length_softmax, Hlo; apply length_map).
  assert (HV1 : (1 <= length row)%nat) by (destruct row; [congruence | simpl; lia]).
  pose proof (topk_Ok_inv _ _ _ Htop) as [_ Hcands].
  pose proof (topk_length _ _ _ Htop) as Hlc.
  pose proof (@score_candidates_length _ _ _ _ Hsc) as Hls.
  assert (Hlv : length (candidate_values st) = length (candidate_indices st))
    by (rewrite Hval, Hidx, !length_map; reflexivity).
  assert (Hlf : length (fudge_distribution st) = length (candidate_indices st))
    by (rewrite Hfd, length_softmax, length_map; exact Hls).
  assert (Hfsum : Rsum (fudge_distribution st) = 1%R).
  { rewrite Hfd. apply softmax_sums_to_1.
    destruct (fudge_scores st) as [|s0 scores].
    - rewrite Hidx, length_map in Hls. simpl in Hls. lia.
    - apply softmax_total_pos with (r := (s0 / fudge_temperature cfg)%R). now left. }
  assert (Hmass : Rsum (combined_distribution st)
            = ((1 - lambda_weight cfg) * Rsum (candidate_values st)
               + lambda_weight cfg)%R).
  { rewrite Hcd, Rsum_scatter_zeros.
    - rewrite Hcs, Rsum_map2_fuse by congruence. rewrite Hfsum. lra.
    - rewrite Hidx. exact (topk_NoDup _ _ _ Htop).
    - intros i Hi. rewrite Hidx in Hi. apply in_map_iff in Hi.
      destruct Hi as [[i' v] [Hf Hin]]. simpl in Hf. subst i'.
      apply nth_error_Some. rewrite (topk_In _ _ _ _ _ Htop Hin). discriminate.
    - rewrite Hcs, length_map2, Hlv, Hlf. symmetry. apply Nat.min_id. }
  assert (Hvals : candidate_values st
            = firstn (Z.to_nat (Z.min (fudge_top_k cfg)
                                  (Z.of_nat (length (base_distribution st)))))
                (map snd (sort_desc Rltb (base_distribution st))))
    by (rewrite Hval, Hcands; symmetry; apply firstn_map).
  assert (Hsorted_nn : Forall (fun z => 0 <= z)%R
                         (map snd (sort_desc Rltb (base_distribution st)))).
  { apply Forall_forall. intros v Hv.
    apply (Permutation_in _ (sort_desc_values Rltb (base_distribution st))) in Hv.
    rewrite Forall_forall in Hnn. now apply Hnn. }
  assert (Hsorted_sum : Rsum (map snd (sort_desc Rltb (base_distribution st))) = 1%R)
    by (rewrite (Rsum_Permutation (sort_desc_values Rltb (base_distribution st)));
        exact Hsum).
  split; [exact Hmass|]. split; [split|].
  - rewrite Hvals.
    pose proof (@Rsum_firstn_mono _ 0
                  (Z.to_nat (Z.min (fudge_top_k cfg)
                               (Z.of_nat (length (base_distribution st)))))
                  Hsorted_nn (Nat.le_0_l _)) as H0.
    simpl in H0. exact H0.
  - rewrite Hvals, <- Hsorted_sum. apply Rsum_firstn_le. exact Hsorted_nn.
  - intros Hall. rewrite Hmass, Hvals.
    rewrite firstn_all2 by (rewrite length_map, sort_desc_length; lia).
    rewrite Hsorted_sum. lra.
Qed.

(** X17.  With [lambda_weight = 0] the sampling weights are those of the
    base model alone: two decoders with the same base model and any two
    scorers compute the same combined and re-truncated vectors whenever
    their steps succeed, and the fused scores are the candidates' base
    probabilities. *)
Theorem zero_lambda_ignores_the_scorer
    (self1 self2 : FudgeInference) (cfg : GenerationConfig) (gen : list nat)
    (st1 st2 : step_tensors) :
  decoding_step self1 cfg gen = Ok st1 ->
  decoding_step self2 cfg gen = Ok st2 ->
  model self2 = model self1 -> lambda_weight cfg = 0%R ->
  combined_scores st1 = candidate_values st1 /\
  combined_distribution st2 = combined_distribution st1 /\
  retruncated_distribution st2 = retruncated_distribution st1.
Proof.
  intros H1 H2 Hm Hlam.
  destruct (decoding_step_inv _ _ _ H1)
    as [c1 [Hb1 [Ht1 [Hv1 [Hi1 [Hs1 [Hf1 [Hc1 [Hd1 Hr1]]]]]]]]].
  destruct (decoding_step_inv _ _ _ H2)
    as [c2 [Hb2 [Ht2 [Hv2 [Hi2 [Hs2 [Hf2 [Hc2 [Hd2 Hr2]]]]]]]]].
  rewrite Hm, Hb1 in Hb2. inversion Hb2 as [Hb]. rewrite <- Hb in *.
  rewrite Ht1 in Ht2. inversion Ht2; subst c2.
  assert (Hcs : forall st c,
            candidate_values st = map snd c -> candidate_indices st = map fst c ->
            length (fudge_scores st) = length (candidate_indices st) ->
            fudge_distribution st
              = softmax (map (fun s => Fin (s / fudge_temperature cfg)) (fudge_scores st)) ->
            combined_scores st
              = map2 (fuse (lambda_weight cfg)) (candidate_values st)
                  (fudge_distribution st) ->
            combined_scores st = candidate_values st).
  { intros st c Hv Hi Hl Hf Hc. rewrite Hc, Hlam. apply map2_fuse_0.
    rewrite Hf, length_softmax, length_map, Hl, Hv, Hi, !length_map. reflexivity. }
  pose proof (Hcs st1 c1 Hv1 Hi1 (@score_candidates_length _ _ _ _ Hs1) Hf1 Hc1) as E1.
  pose proof (Hcs st2 c1 Hv2 Hi2 (@score_candidates_length _ _ _ _ Hs2) Hf2 Hc2) as E2.
  assert (Hd : combined_distribution st2 = combined_distribution st1)
    by (rewrite Hd1, Hd2, E1, E2, Hv1, Hv2, Hi1, Hi2; reflexivity).
  split; [exact E1|]. split; [exact Hd|].
  rewrite Hd in Hr2. destruct (base_top_k cfg) as [k|].
  - destruct Hr1 as [top1 [Htop1 ->]]. destruct Hr2 as [top2 [Htop2 ->]].
    rewrite Htop1 in Htop2. inversion Htop2. reflexivity.
  - congruence.
Qed.

Lemma softmax_shift (scores : list R) (c t : R) :
  softmax (map (fun s => Fin ((s + c) / t)%R) scores)
  = softmax (map (fun s => Fin (s / t)%R) scores).
Proof.
  unfold softmax. rewrite !map_map. simpl.
  assert (Hsum : Rsum (map (fun s => exp ((s + c) / t)) scores)
                 = (exp (c / t) * Rsum (map (fun s => exp (s / t)) scores))%R).
  { induction scores as [|s scores IH]; simpl; [lra|].
    rewrite IH. replace ((s + c) / t)%R with (s / t + c / t)%R by (unfold Rdiv; ring).
    rewrite exp_plus. ring. }
  rewrite Hsum. apply map_ext_in. intros s Hs.
  assert (Hpos : (0 < Rsum (map (fun s => exp (s / t)) scores))%R).
  { apply Rsum_pos with (v := exp (s / t)).
    - apply Forall_forall. intros v Hv. apply in_map_iff in Hv.
      destruct Hv as [s' [<- _]]. apply Rlt_le, exp_pos.
    - apply in_map_iff. now exists s.
    - apply exp_pos. }
  pose proof (exp_pos (c / t)) as Hc.
  replace ((s + c) / t)%R with (s / t + c / t)%R by (unfold Rdiv; ring).
  rewrite exp_plus. field. lra.
Qed.

Lemma score_candidates_shift (scorer1 scorer2 : list nat -> list R) (gen cands : list nat)
    (c : R) (scores : list R) :
  (forall cand, In cand cands ->
     nth_error (scorer2 (gen ++ [cand])) 1
     = option_map (fun s => (s + c)%R) (nth_error (scorer1 (gen ++ [cand])) 1)) ->
  score_candidates scorer1 gen cands = Ok scores ->
  score_candidates scorer2 gen cands = Ok (map (fun s => (s + c)%R) scores).
Proof.
  revert scores. induction cands as [|cand cands IH]; intros scores Hshift H.
  - simpl in H. inversion H. reflexivity.
  - cbn [score_candidates] in H |- *. bind_inv H s Hs. bind_inv H ss Hss. inversion H; subst scores; clear H.
    unfold channel_1 in Hs |- *. rewrite (Hshift cand) by now left.
    destruct (nth_error (scorer1 (gen ++ [cand])) 1) as [s'|]; [|discriminate].
    inversion Hs; subst s'. simpl.
    rewrite (IH ss) by (try exact Hss; intros c' Hc'; apply Hshift; now right).
    reflexivity.
Qed.

(** X18.  Only the differences between auxiliary scores matter: a scorer
    whose channel 1 is the first scorer's plus a constant on every candidate
    continuation gives the same auxiliary distribution and the same combined
    and re-truncated vectors. *)
Theorem scorer_offset_does_not_change_weights
    (self1 self2 : FudgeInference) (cfg : GenerationConfig) (gen : list nat)
    (c : R) (st1 : step_tensors) :
  decoding_step self1 cfg gen = Ok st1 ->
  model self2 = model self1 ->
  (forall cand, In cand (candidate_indices st1) ->
     nth_error (fudge_model self2 (gen ++ [cand])) 1
     = option_map (fun s => (s + c)%R)
         (nth_error (fudge_model self1 (gen ++ [cand])) 1)) ->
  exists st2,
    decoding_step self2 cfg gen = Ok st2 /\
    fudge_scores st2 = map (fun s => (s + c)%R) (fudge_scores st1) /\
    fudge_distribution st2 = fudge_distribution st1 /\
    combined_distribution st2 = combined_distribution st1 /\
    retruncated_distribution st2 = retruncated_distribution st1.
Proof.
  intros H Hm Hshift.
  destruct (decoding_step_inv _ _ _ H)
    as [cands [Hbase [Htop [Hval [Hidx [Hsc [Hfd [Hcs [Hcd Hre]]]]]]]]].
  rewrite Hidx in Hshift, Hsc.
  pose proof (score_candidates_shift _ _ _ _ _ Hshift Hsc) as Hsc2.
  unfold decoding_step in H |- *. rewrite Hm.
  rewrite Hbase, bind_Ok, Htop, bind_Ok, Hsc, bind_Ok in H.
  rewrite Hbase, bind_Ok, Htop, bind_Ok, Hsc2, bind_Ok.
  destruct (scale (fudge_scores st1) (fudge_temperature cfg)) as [scaled|] eqn:Es;
    [|discriminate].
  pose proof Es as Es'. apply scale_Some in Es. subst scaled.
  assert (Es2 : scale (map (fun s => (s + c)%R) (fudge_scores st1)) (fudge_temperature cfg)
                = Some (map (fun s => Fin ((s + c) / fudge_temperature cfg)%R)
                          (fudge_scores st1))).
  { destruct (fudge_scores st1) as [|s0 scores] eqn:E; [reflexivity|].
    assert (Hft : fudge_temperature cfg <> 0%R).
    { intros E0. rewrite E0, scale_zero in Es' by discriminate. discriminate. }
    rewrite scale_nonzero by exact Hft. now rewrite map_map. }
  rewrite Es2, softmax_shift.
  bind_inv H retr Hretr. rewrite Hretr, bind_Ok.
  inversion H as [Hst]. eexists. split; [reflexivity|].
  simpl. repeat split; reflexivity.
Qed.

Lemma get_next_token_distribution_nonneg
    (model : list nat -> list (list R)) (ids : list nat) (t : R)
    (top_k : option Z) (top_p : option R) (d : list R) :
  get_next_token_distribution model ids t top_k top_p = Ok d ->
  Forall (fun z => 0 <= z)%R d.
Proof.
  unfold get_next_token_distribution. intros H. bind_inv H row Hrow.
  destruct (scale row t) as [logits|].
  - bind_inv H out Hout. inversion H. apply softmax_nonneg.
  - destruct (apply_filters top_k top_p (map Fin row)); discriminate.
Qed.

Lemma combined_distribution_nonneg (self : FudgeInference) (cfg : GenerationConfig)
    (gen : list nat) (st : step_tensors) :
  decoding_step self cfg gen = Ok st -> (0 <= lambda_weight cfg <= 1)%R ->
  Forall (fun z => 0 <= z)%R (combined_distribution st).
Proof.
  intros Hst Hlam.
  destruct (decoding_step_inv _ _ _ Hst)
    as [cands [Hbase [Htop [Hval [Hidx [Hsc [Hfd [Hcs [Hcd _]]]]]]]]].
  pose proof (get_next_token_distribution_nonneg _ _ _ _ _ Hbase) as Hnn.
  rewrite Hcd. apply Forall_scatter.
  - apply Forall_forall. intros v Hv. unfold zeros_like in Hv.
    apply repeat_spec in Hv. lra.
  - rewrite Hcs.
    apply Forall_map2 with (P := fun v => (0 <= v)%R) (Q := fun v => (0 <= v)%R).
    + intros a b Ha Hb. now apply fuse_nonneg.
    + rewrite Hval. apply Forall_forall. intros v Hv.
      rewrite Forall_forall in Hnn. apply Hnn. exact (@topk_values_In _ _ _ Htop v Hv).
    + rewrite Hfd. apply softmax_nonneg.
Qed.

(** X19.  The final truncation changes nothing unless it is narrower than
    the candidate pool: with [lambda_weight] in [0, 1] and
    [base_top_k >= fudge_top_k], the re-truncated vector is the combined
    vector itself. *)
Theorem wide_truncation_changes_nothing (self : FudgeInference) (cfg : GenerationConfig)
    (gen : list nat) (st : step_tensors) (k : Z) :
  decoding_step self cfg gen = Ok st ->
  (0 <= lambda_weight cfg <= 1)%R ->
  base_top_k cfg = Some k -> (fudge_top_k cfg <= k)%Z ->
  retruncated_distribution st = combined_distribution st.
Proof.
  intros Hst Hlam Hbk Hwide.
  pose proof (combined_distribution_nonneg _ _ _ Hst Hlam) as Hnn.
  destruct (decoding_step_inv _ _ _ Hst)
    as [cands [_ [Htop [_ [Hidx [_ [_ [_ [Hcd Hre]]]]]]]]].
  rewrite Hbk in Hre. destruct Hre as [top [Htop' Hre]].
  assert (Hlen : length (combined_distribution st) = length (base_distribution st))
    by (rewrite Hcd, length_scatter; apply length_zeros_like).
  assert (Hout : forall j, ~ In j (candidate_indices st) ->
                           nth j (combined_distribution st) 0%R = 0%R).
  { intros j Hj. rewrite Hcd, nth_scatter_notin by exact Hj. apply nth_zeros_like. }
  pose proof (topk_length _ _ _ Htop) as Hlc.
  pose proof (topk_length _ _ _ Htop') as Hlt.
  pose proof (topk_NoDup _ _ _ Htop') as Hnd.
  rewrite Hre. apply nth_ext with (d := 0%R) (d' := 0%R).
  { rewrite length_scatter, length_zeros_like. congruence. }
  intros j Hj. rewrite length_scatter, length_zeros_like, <- Hlen in Hj.
  destruct (nth_error (combined_distribution st) j) as [w|] eqn:Hw;
    [|apply nth_error_None in Hw; lia].
  rewrite (nth_error_nth _ _ 0%R Hw).
  destruct (in_dec Nat.eq_dec j (map fst top)) as [Hin|Hnin].
  - apply in_map_iff in Hin. destruct Hin as [[j' v] [Hf Hin]]. simpl in Hf. subst j'.
    pose proof (topk_In _ _ _ _ _ Htop' Hin) as Hv.
    assert (v = w) by congruence. subst v.
    apply nth_scatter_In; [exact Hnd | now apply In_combine_map|].
    rewrite length_zeros_like, <- Hlen. exact Hj.
  - rewrite nth_scatter_notin by exact Hnin. rewrite nth_zeros_like.
    destruct (Req_dec_T w 0) as [E|E]; [now symmetry|]. exfalso.
    assert (Hwpos : (0 < w)%R).
    { rewrite Forall_forall in Hnn. pose proof (Hnn w (nth_error_In _ _ Hw)). lra. }
    (* every selected position carries mass, so it is a candidate, and so is j *)
    assert (Hincl : incl (j :: map fst top) (candidate_indices st)).
    { intros i [<-|Hi].
      - destruct (in_dec Nat.eq_dec j (candidate_indices st)) as [H|H]; [exact H|].
        exfalso. apply E. rewrite <- (Hout j H). symmetry. now apply nth_error_nth.
      - apply in_map_iff in Hi. destruct Hi as [[i' v] [Hf Hin]]. simpl in Hf. subst i'.
        pose proof (topk_In _ _ _ _ _ Htop' Hin) as Hv.
        pose proof (@topk_largest _ Rltb Rltb_asym Rltb_negtrans _ _ _ (i, v) j w
                      Htop' Hin Hw Hnin) as Hge.
        simpl in Hge. apply Rltb_false in Hge.
        destruct (in_dec Nat.eq_dec i (candidate_indices st)) as [H|H]; [exact H|].
        exfalso. pose proof (Hout i H) as Hz.
        rewrite (nth_error_nth _ _ 0%R Hv) in Hz. lra. }
    assert (Hnd' : NoDup (j :: map fst top)) by (constructor; assumption).
    pose proof (NoDup_incl_length Hnd' Hincl) as Hcount.
    simpl in Hcount. rewrite Hidx in Hcount. rewrite !length_map in Hcount. lia.
Qed.

Lemma Rsum_single (l : list R) (i : nat) :
  (i < length l)%nat -> (forall j, j <> i -> nth j l 0%R = 0%R) ->
  Rsum l = nth i l 0%R.
Proof.
  revert i. induction l as [|a l IH]; intros i Hi Hz; simpl in Hi; [lia|].
  destruct i as [|i]; simpl.
  - rewrite Rsum_zero; [lra|].
    apply Forall_forall. intros v Hv. apply In_nth with (d := 0%R) in Hv.
    destruct Hv as [j [_ <-]]. apply (Hz (S j)). discriminate.
  - rewrite (IH i) by (try lia; intros j Hj; apply (Hz (S j)); congruence).
    pose proof (Hz 0%nat) as H0. simpl in H0. rewrite H0 by discriminate. lra.
Qed.

Lemma nucleus_greedy_spec (t p : R) (row : list R) (sorted : list (nat * xreal)) :
  row <> [] -> (p <= 0)%R ->
  let logits := map (fun x => Fin (x / t)%R) row in
  descending_order xltb logits sorted ->
  let top := nth 0 (map fst sorted) 0%nat in
  exists d,
    nucleus_distribution sorted p logits = Ok d /\
    (top < length row)%nat /\
    (forall i, (i < length row)%nat -> (nth i row 0 / t <= nth top row 0 / t)%R) /\
    nth top d 0%R = 1%R /\
    (forall i, i <> top -> nth i d 0%R = 0%R).
Proof.
  intros Hne Hp logits Hdesc top.
  destruct (@descending_head_max t row sorted Hne Hdesc) as [Htop Hmax].
  fold top in Htop, Hmax.
  destruct Hdesc as [Hperm Hsorted].
  destruct (@nucleus_distribution_spec t p row sorted Hne Hperm)
    as [out [_ [Hd [Hl [[r Hr] Hrem]]]]].
  fold logits in Hd.
  assert (Hll : length logits = length row) by apply length_map.
  assert (Hls : length sorted = length row)
    by (rewrite <- Hll; exact (@order_length _ _ _ Hperm)).
  assert (Hsum : Rsum (softmax out) = 1%R)
    by (apply softmax_sums_to_1, (softmax_total_pos _ _ Hr)).
  assert (Hmem : forall i, (i < length row)%nat -> In i (map fst sorted))
    by (intros i Hi; apply (@order_index_lt _ _ _ Hperm); now rewrite Hll).
  (* the first sorted probability is positive *)
  assert (Hp0 : forall j, (1 <= j)%nat ->
            (p < Rsum (firstn j (softmax (map snd sorted))))%R).
  { intros j Hj.
    pose proof (Rsum_firstn_mono (softmax_nonneg (map snd sorted)) Hj) as Hmono.
    assert (Hfirst : (0 < Rsum (firstn 1 (softmax (map snd sorted))))%R).
    { destruct sorted as [|[i0 x0] rest]; [simpl in Hls; lia|].
      assert (Hx0 : exists r0, x0 = Fin r0).
      { pose proof (@order_In _ _ _ Hperm i0 x0 (or_introl eq_refl)) as Hnth.
        apply nth_error_In in Hnth. unfold logits in Hnth.
        apply in_map_iff in Hnth. destruct Hnth as [v [Hv _]]. now exists (v / t)%R. }
      destruct Hx0 as [r0 ->].
      unfold softmax. simpl.
      pose proof (exp_pos r0).
      pose proof (Rsum_nonneg (xexp_all_nonneg (map snd rest))).
      assert (0 < exp r0 / (exp r0 + Rsum (map xexp (map snd rest))))%R
        by (apply Rdiv_lt_0_compat; lra).
      lra. }
    lra. }
  assert (Hothers : forall i, i <> top -> nth i (softmax out) 0%R = 0%R).
  { intros i Hi. destruct (Nat.lt_ge_cases i (length row)) as [Hlt|Hge];
      [|apply nth_overflow; lia].
    pose proof (Hmem i Hlt) as Hin.
    apply In_nth with (d := 0%nat) in Hin. destruct Hin as [j [Hj Hnth]].
    rewrite length_map, Hls in Hj. rewrite <- Hnth.
    apply (Hrem j Hj). destruct j as [|j]; [exfalso; apply Hi; now rewrite <- Hnth|].
    split; [lia | apply Hp0; lia]. }
  exists (softmax out). split; [exact Hd|]. split; [exact Htop|].
  split; [exact Hmax|]. split; [|exact Hothers].
  rewrite <- (Rsum_single (softmax out) (i := top)); [exact Hsum | lia | exact Hothers].
Qed.

(** X21.  A [top_p] of zero or less makes the distribution greedy: for
    every descending order of the scaled logits, equal scores in whatever
    order the sort returns them, only the position of rank 0 keeps mass; so
    the method puts probability 1 on some highest-scoring position and 0
    everywhere else. *)
Theorem nonpositive_top_p_is_greedy
    (model : list nat -> list (list R)) (ids : list nat) (t p : R) (row : list R) :
  index_last (model ids) = Ok row -> t <> 0%R -> row <> [] -> (p <= 0)%R ->
  let logits := map (fun x => Fin (x / t)%R) row in
  (forall sorted, descending_order xltb logits sorted ->
     let top := nth 0 (map fst sorted) 0%nat in
     exists d,
       nucleus_distribution sorted p logits = Ok d /\
       (top < length row)%nat /\
       (forall i, (i < length row)%nat -> (nth i row 0 / t <= nth top row 0 / t)%R) /\
       nth top d 0%R = 1%R /\
       (forall i, i <> top -> nth i d 0%R = 0%R)) /\
  (exists d top,
     get_next_token_distribution model ids t None (Some p) = Ok d /\
     (top < length row)%nat /\
     (forall i, (i < length row)%nat -> (nth i row 0 / t <= nth top row 0 / t)%R) /\
     nth top d 0%R = 1%R /\
     (forall i, i <> top -> nth i d 0%R = 0%R)).
Proof.
  intros Hrow Ht Hne Hp logits. split.
  - intros sorted Hdesc. exact (@nucleus_greedy_spec t p row sorted Hne Hp Hdesc).
  - destruct (@get_next_token_distribution_nucleus_run model ids t p row Hrow Ht)
      as [sorted [Hdesc Hrun]].
    destruct (@nucleus_greedy_spec t p row sorted Hne Hp Hdesc) as [d [Hd Hrest]].
    exists d, (nth 0 (map fst sorted) 0%nat). split; [|exact Hrest].
    rewrite Hrun. exact Hd.
Qed.

(** * Where the drawn token comes from *)

Lemma retruncated_support_in_candidates (self : FudgeInference) (cfg : GenerationConfig)
    (gen : list nat) (st : step_tensors) (j : nat) :
  decoding_step self cfg gen = Ok st ->
  nth j (retruncated_distribution st) 0%R <> 0%R ->
  In j (candidate_indices st).
Proof.
  intros Hst Hj.
  destruct (decoding_step_inv _ _ _ Hst)
    as [cands [_ [_ [_ [_ [_ [_ [_ [Hcd Hre]]]]]]]]].
  assert (Hout : forall i, ~ In i (candidate_indices st) ->
                           nth i (combined_distribution st) 0%R = 0%R).
  { intros i Hi. rewrite Hcd, nth_scatter_notin by exact Hi. apply nth_zeros_like. }
  destruct (in_dec Nat.eq_dec j (candidate_indices st)) as [Hc|Hc]; [exact Hc|].
  exfalso. apply Hj. destruct (base_top_k cfg) as [k|].
  - destruct Hre as [top [Htop ->]].
    destruct (in_dec Nat.eq_dec j (map fst top)) as [Hin|Hnin].
    + apply in_map_iff in Hin. destruct Hin as [[j' v] [Hf Hin]]. simpl in Hf. subst j'.
      pose proof (topk_In _ _ _ _ _ Htop Hin) as Hv.
      rewrite (@nth_scatter_In R _ (map fst top) (map snd top) j v 0%R).
      * rewrite <- (Hout j Hc). symmetry. now apply nth_error_nth.
      * exact (topk_NoDup _ _ _ Htop).
      * now apply In_combine_map.
      * rewrite length_zeros_like.
        assert (Hl : length (combined_distribution st) = length (base_distribution st))
          by (rewrite Hcd, length_scatter; apply length_zeros_like).
        rewrite <- Hl. apply nth_error_Some. congruence.
    + rewrite nth_scatter_notin by exact Hnin. apply nth_zeros_like.
  - rewrite Hre. exact (Hout j Hc).
Qed.

Section SamplingSupport.
Variable Generator : Type.
Variable draw : Generator -> list R -> nat * Generator.

(** [torch.multinomial] never returns a position of zero weight. *)
Hypothesis draw_support :
  forall g weights,
    Forall (fun w => 0 <= w)%R weights -> (0 < Rsum weights)%R ->
    (0 < nth (fst (draw g weights)) weights 0)%R.

Lemma multinomial_Ok_inv (g : Generator) (weights : list R) (r : nat * Generator) :
  multinomial draw g weights = Ok r ->
  r = draw g weights /\ Forall (fun w => 0 <= w)%R weights /\ (0 < Rsum weights)%R.
Proof.
  unfold multinomial. intros H.
  destruct (existsb (fun w => Rltb w 0) weights) eqn:E; [discriminate|].
  destruct (Req_dec_T (Rsum weights) 0) as [Hz|Hnz]; [discriminate|].
  inversion H; subst r; clear H.
  assert (Hnn : Forall (fun w => 0 <= w)%R weights).
  { apply Forall_forall. intros w Hw. apply Rltb_false.
    destruct (Rltb w 0) eqn:Ew; [|reflexivity].
    assert (existsb (fun w => Rltb w 0) weights = true)
      by (apply existsb_exists; now exists w).
    congruence. }
  split; [reflexivity|]. split; [exact Hnn|].
  pose proof (Rsum_nonneg Hnn). lra.
Qed.

(** X20.  The token drawn at line 169 is a candidate of its step: granted
    that [torch.multinomial] never returns a position of zero weight, a draw
    that succeeds returns one of the candidates chosen at lines 133-136, a
    position of the vocabulary that carries positive weight in the
    re-truncated combined vector. *)
Theorem drawn_token_is_a_candidate (self : FudgeInference) (cfg : GenerationConfig)
    (gen : list nat) (g : Generator) (st : step_tensors) (next_token : nat)
    (g' : Generator) :
  decoding_step self cfg gen = Ok st ->
  multinomial draw g (retruncated_distribution st) = Ok (next_token, g') ->
  In next_token (candidate_indices st) /\
  (0 < nth next_token (retruncated_distribution st) 0)%R /\
  (next_token < length (base_distribution st))%nat.
Proof.
  intros Hst Hr.
  apply multinomial_Ok_inv in Hr. destruct Hr as [Hdraw [Hnn Hpos]].
  pose proof (draw_support g Hnn Hpos) as Hw. rewrite <- Hdraw in Hw. simpl in Hw.
  assert (Hcand : In next_token (candidate_indices st))
    by (apply (retruncated_support_in_candidates _ _ _ next_token Hst); lra).
  split; [exact Hcand|]. split; [exact Hw|].
  destruct (decoding_step_inv _ _ _ Hst) as [cands [_ [Htop [_ [Hidx _]]]]].
  rewrite Hidx in Hcand. apply in_map_iff in Hcand.
  destruct Hcand as [[i v] [Hi Hin]]. simpl in Hi. subst i.
  apply nth_error_Some. rewrite (topk_In _ _ _ _ _ Htop Hin). discriminate.
Qed.
End SamplingSupport.

(** * Further runs on the two-token instance *)

Lemma toy_label_indices_distinct : NoDup (map snd (ckpt_label_mapping toy_checkpoint)).
Proof.
  simpl. constructor; [intros [H|[]]; discriminate|].
  constructor; [intros []| constructor].
Qed.

Lemma toy_label_names_distinct : NoDup (dict_keys (ckpt_label_mapping toy_checkpoint)).
Proof.
  simpl. constructor; [intros [H|[]]; discriminate|].
  constructor; [intros []| constructor].
Qed.

Lemma first_positive_support (weights : list R) :
  Forall (fun w => 0 <= w)%R weights -> (0 < Rsum weights)%R ->
  (0 < nth (first_positive weights) weights 0)%R.
Proof.
  induction 1 as [|w ws Hw Hws IH]; simpl; intros Hpos; [lra|].
  destruct (Rltb 0 w) eqn:E.
  - now apply Rltb_true in E.
  - apply Rltb_false in E. apply IH. lra.
Qed.

Lemma toy_step_with (self : FudgeInference) (cfg : GenerationConfig) :
  model self = toy_model ->
  temperature cfg = 1%R -> fudge_temperature cfg = 1%R ->
  (0 <= fudge_top_k cfg)%Z ->
  (forall k, base_top_k cfg = Some k -> (0 <= k)%Z) ->
  (forall s, (2 <= length (fudge_model self s))%nat) ->
  exists st, decoding_step self cfg [0%nat] = Ok st.
Proof.
  intros Hm Ht Hft Hk Hbk Hsc.
  apply (@decoding_step_succeeds self cfg [0%nat] [1%R; 0%R]); try assumption.
  - rewrite Hm. reflexivity.
  - discriminate.
  - rewrite Ht. lra.
  - rewrite Hft. lra.
Qed.

(** Side conditions of a step on the two-token instance. *)
Ltac toy_side :=
  first [ reflexivity
        | simpl; lia
        | simpl; intros ? H; inversion H; lia
        | intros ?; simpl; lia ].

(** Witness of X1. *)
Lemma target_class_name_of_named_target_witness :
  target_class_name (toy_self 1) = "positive"%string.
Proof.
  destruct (@target_class_name_of_named_target unit toy_classifier toy_model
              toy_tokenizer toy_checkpoint "positive"%string (toy_self 1) eq_refl)
    as [_ H].
  apply H. apply toy_label_indices_distinct.
Defined.

(** Witness of X2. *)
Lemma target_class_name_of_indexed_target_witness :
  target_class_name (toy_self 0) = "negative"%string.
Proof.
  destruct (@target_class_name_of_indexed_target unit toy_classifier toy_model
              toy_tokenizer toy_checkpoint 0%Z (toy_self 0) eq_refl)
    as [_ [H _]].
  apply H; [apply toy_label_indices_distinct | simpl; right; now left].
Defined.

(** Witness of X3. *)
Lemma available_classes_are_constructible_witness :
  exists self',
    __init__ toy_classifier toy_model toy_tokenizer toy_checkpoint (ClassName "negative")
      = Ok self' /\
    target_class self' = 0%Z.
Proof.
  destruct (@available_classes_are_constructible unit toy_classifier toy_model
              toy_tokenizer toy_checkpoint (ClassIndex 1) (toy_self 1)
              "negative"%string 0%Z eq_refl toy_label_names_distinct)
    as [self' [H1 [H2 _]]].
  - simpl. right. now left.
  - exists self'. split; assumption.
Defined.

(** Witness of X4. *)
Lemma next_token_distribution_is_a_distribution_witness :
  exists d,
    get_next_token_distribution toy_model [0%nat] 1 (Some 1%Z) (Some (4 / 5)%R) = Ok d /\
    Rsum d = 1%R.
Proof.
  destruct (@next_token_distribution_is_a_distribution toy_model [0%nat] 1%R
              (Some 1%Z) (Some (4 / 5)%R) [1%R; 0%R])
    as [d [Hd [_ [_ Hs]]]].
  - reflexivity.
  - discriminate.
  - lra.
  - simpl. lia.
  - exists d. split; assumption.
Defined.

(** Witness of X5. *)
Lemma nucleus_after_top_k_only_removes_witness :
  exists d_k d_kp,
    get_next_token_distribution toy_model [0%nat] 1 (Some 2%Z) None = Ok d_k /\
    get_next_token_distribution toy_model [0%nat] 1 (Some 2%Z) (Some (1 / 2)%R) = Ok d_kp /\
    incl (support d_kp) (support d_k).
Proof.
  apply (@nucleus_after_top_k_only_removes toy_model [0%nat] 1%R (1 / 2)%R 2%Z
           [1%R; 0%R]).
  - reflexivity.
  - lra.
  - simpl. lia.
Defined.

(** Witness of X6: a vocabulary of two tokens with [top_k] 0, 3 and [2^63]. *)
Lemma top_k_outside_range_raises_witness :
  (exists msg,
     get_next_token_distribution toy_model [0%nat] 1 (Some 0%Z) None
     = Raise (IndexError msg)) /\
  (exists msg,
     get_next_token_distribution toy_model [0%nat] 1 (Some 3%Z) None
     = Raise (RuntimeError msg)) /\
  (exists msg,
     get_next_token_distribution toy_model [0%nat] 1 (Some (2 ^ 63)%Z) None
     = Raise (ValueError msg)).
Proof.
  split; [|split].
  - apply (@top_k_outside_range_raises toy_model [0%nat] 1%R 0%Z None [1%R; 0%R]);
      reflexivity.
  - apply (@top_k_outside_range_raises toy_model [0%nat] 1%R 3%Z None [1%R; 0%R]);
      [reflexivity | right; unfold int64_max; simpl; lia].
  - apply (@top_k_outside_range_raises toy_model [0%nat] 1%R (2 ^ 63)%Z None [1%R; 0%R]);
      [reflexivity | unfold int64_max; lia | unfold int64_max; simpl; lia].
Defined.

(** Witness of X7. *)
Lemma top_p_of_at_least_1_filters_nothing_witness :
  get_next_token_distribution toy_model [0%nat] 1 None (Some 1%R)
  = get_next_token_distribution toy_model [0%nat] 1 None None.
Proof.
  apply (@top_p_of_at_least_1_filters_nothing toy_model [0%nat] 1%R 1%R None
           [1%R; 0%R]).
  - reflexivity.
  - discriminate.
  - lra.
  - exact I.
  - lra.
Defined.

(** Witness of X8. *)
Lemma top_k_of_vocabulary_size_filters_nothing_witness :
  get_next_token_distribution toy_model [0%nat] 1 (Some 2%Z) None
  = get_next_token_distribution toy_model [0%nat] 1 None None.
Proof.
  apply (@top_k_of_vocabulary_size_filters_nothing toy_model [0%nat] 1%R None
           [1%R; 0%R]).
  - reflexivity.
  - discriminate.
  - lra.
Defined.

(** Witness of X9. *)
Lemma nucleus_is_smallest_prefix_over_p_witness :
  exists sorted d n,
    get_next_token_distribution toy_model [0%nat] 1 None (Some (4 / 5)%R)
    = nucleus_distribution sorted (4 / 5) (map (fun x => Fin (x / 1)%R) [1%R; 0%R]) /\
    nucleus_distribution sorted (4 / 5) (map (fun x => Fin (x / 1)%R) [1%R; 0%R])
    = Ok d /\
    (1 <= n <= 2)%nat.
Proof.
  destruct (@nucleus_is_smallest_prefix_over_p toy_model [0%nat] 1%R (4 / 5)%R
              [1%R; 0%R])
    as [Hall [sorted [Hdesc Hrun]]].
  - reflexivity.
  - lra.
  - discriminate.
  - destruct (Hall sorted Hdesc) as [d [n [Hd [Hn _]]]].
    exists sorted, d, n. split; [exact Hrun|]. split; [exact Hd | exact Hn].
Defined.

(** Witness of X10: at temperature -1 the token with the smaller logit is
    the more probable one. *)
Lemma temperature_sign_orders_probabilities_witness :
  exists d,
    get_next_token_distribution toy_model [0%nat] (-1) None None = Ok d /\
    (nth 0 d 0 < nth 1 d 0)%R.
Proof.
  destruct (@temperature_sign_orders_probabilities toy_model [0%nat] (-1)%R
              [1%R; 0%R])
    as [d [Hd Hord]].
  - reflexivity.
  - lra.
  - exists d. split; [exact Hd|].
    destruct (Hord 0%nat 1%nat) as [_ Hneg]; [simpl; lia | simpl; lia|].
    apply Hneg; simpl; lra.
Defined.

(** Witness of X11. *)
Lemma generation_edge_cases_witness :
  generate_with_fudge toy_draw (toy_self 1) zero_length_config "The weather today is" 0%nat
    = Ok ("text"%string, 0%nat) /\
  generate_with_fudge toy_draw empty_prompt_self default_config "" 0%nat
    = Raise (IndexError "index -1 is out of bounds for dimension with size 0").
Proof.
  split.
  - apply (@generation_edge_cases nat toy_draw (toy_self 1) zero_length_config
             "The weather today is" 0%nat). simpl. lia.
  - apply (@generation_edge_cases nat toy_draw empty_prompt_self default_config
             "" 0%nat); [simpl; lia | reflexivity | reflexivity].
Defined.

(** Witness of X12. *)
Lemma scorer_matters_only_on_candidate_continuations_witness :
  exists st,
    decoding_step (toy_self 1) default_config [0%nat] = Ok st /\
    decoding_step other_channel_self default_config [0%nat] = Ok st.
Proof.
  destruct (toy_step 1) as [st Hst]. exists st. split; [exact Hst|].
  apply (@scorer_matters_only_on_candidate_continuations (toy_self 1)
           other_channel_self default_config [0%nat] st Hst); reflexivity.
Defined.

(** Witness of X13. *)
Lemma single_channel_scorer_raises_witness :
  decoding_step one_channel_self default_config [0%nat]
  = Raise (IndexError "index 1 is out of bounds for dimension 1").
Proof.
  apply (@single_channel_scorer_raises one_channel_self default_config [0%nat]
           [1%R; 0%R]).
  - reflexivity.
  - discriminate.
  - simpl. lra.
  - simpl. lia.
  - intros s. simpl. lia.
Defined.



(** Witness of X16: with both tokens as candidates the combined vector sums
    to 1. *)
Lemma combined_mass_identity_witness :
  exists st,
    decoding_step (toy_self 1) default_config [0%nat] = Ok st /\
    Rsum (combined_distribution st) = 1%R.
Proof.
  destruct (toy_step 1) as [st Hst]. exists st. split; [exact Hst|].
  destruct (@combined_mass_identity (toy_self 1) default_config [0%nat] [1%R; 0%R] st Hst)
    as [_ [_ H]].
  - reflexivity.
  - discriminate.
  - simpl. lra.
  - simpl. lia.
  - apply H. simpl. lia.
Defined.

(** Witness of X17. *)
Lemma zero_lambda_ignores_the_scorer_witness :
  exists st1 st2,
    decoding_step (toy_self 1) base_only_config [0%nat] = Ok st1 /\
    decoding_step shifted_self base_only_config [0%nat] = Ok st2 /\
    retruncated_distribution st2 = retruncated_distribution st1.
Proof.
  destruct (@toy_step_with (toy_self 1) base_only_config) as [st1 H1]; try toy_side.
  destruct (@toy_step_with shifted_self base_only_config) as [st2 H2]; try toy_side.
  exists st1, st2. split; [exact H1|]. split; [exact H2|].
  exact (proj2 (proj2 (@zero_lambda_ignores_the_scorer (toy_self 1) shifted_self
                         base_only_config [0%nat] st1 st2 H1 H2 eq_refl eq_refl))).
Defined.

(** Witness of X18. *)
Lemma scorer_offset_does_not_change_weights_witness :
  exists st1 st2,
    decoding_step (toy_self 1) default_config [0%nat] = Ok st1 /\
    decoding_step shifted_self default_config [0%nat] = Ok st2 /\
    retruncated_distribution st2 = retruncated_distribution st1.
Proof.
  destruct (toy_step 1) as [st1 H1].
  destruct (@scorer_offset_does_not_change_weights (toy_self 1) shifted_self
              default_config [0%nat] 1%R st1 H1 eq_refl)
    as [st2 [H2 [_ [_ [_ Hr]]]]].
  - intros cand _. simpl. f_equal. lra.
  - exists st1, st2. split; [exact H1|]. split; [exact H2 | exact Hr].
Defined.

(** Witness of X19. *)
Lemma wide_truncation_changes_nothing_witness :
  exists st,
    decoding_step (toy_self 1) wide_config [0%nat] = Ok st /\
    retruncated_distribution st = combined_distribution st.
Proof.
  destruct (@toy_step_with (toy_self 1) wide_config) as [st Hst]; try toy_side.
  exists st. split; [exact Hst|].
  apply (@wide_truncation_changes_nothing (toy_self 1) wide_config [0%nat] st 200%Z Hst).
  - simpl. lra.
  - reflexivity.
  - simpl. lia.
Defined.

(** Witness of X20: a draw that returns the first position of positive
    weight. *)
Lemma drawn_token_is_a_candidate_witness :
  exists st next_token g',
    decoding_step (toy_self 1) default_config [0%nat] = Ok st /\
    multinomial first_positive_draw 0%nat (retruncated_distribution st)
      = Ok (next_token, g') /\
    In next_token (candidate_indices st).
Proof.
  destruct (toy_step 1) as [st Hst].
  destruct (@sampling_weights_valid (toy_self 1) default_config [0%nat] [1%R; 0%R] st Hst)
    as [Hnn Hpos].
  - reflexivity.
  - discriminate.
  - simpl. lra.
  - simpl. lra.
  - simpl. lia.
  - simpl. intros k H. inversion H. lia.
  - pose proof (@multinomial_valid nat first_positive_draw 0%nat _ Hnn Hpos) as Hdraw.
    destruct (first_positive_draw 0%nat (retruncated_distribution st))
      as [next_token g'].
    destruct (@drawn_token_is_a_candidate nat first_positive_draw
                (fun g w Hnn' Hpos' => first_positive_support Hnn' Hpos')
                (toy_self 1) default_config [0%nat] 0%nat st next_token g' Hst Hdraw)
      as [Hcand _].
    exists st, next_token, g'. split; [exact Hst|]. split; [exact Hdraw | exact Hcand].
Defined.

(** Witness of X21. *)
Lemma nonpositive_top_p_is_greedy_witness :
  exists d top,
    get_next_token_distribution toy_model [0%nat] 1 None (Some 0%R) = Ok d /\
    nth top d 0%R = 1%R /\
    (forall i, i <> top -> nth i d 0%R = 0%R).
Proof.
  destruct (@nonpositive_top_p_is_greedy toy_model [0%nat] 1%R 0%R [1%R; 0%R])
    as [_ [d [top [Hd [_ [_ [H1 Hz]]]]]]].
  - reflexivity.
  - lra.
  - discriminate.
  - lra.
  - exists d, top. split; [exact Hd|]. split; [exact H1 | exact Hz].
Defined.
